(** * IFTSTA AHB PDF compare: structuring pass and differencing pass

    A shallow embedding of the JavaScript sources

    - [src/comparator.mjs] (section and row matching; the copy bundled with
      the web server additionally normalises text with
      [normalizeForComparison]),
    - [src/parser.mjs] (row grouping, column classification, section
      building),
    - [src/database.mjs] (only the shape of what [getSections] and [getRows]
      return),

    followed by the properties proved about them. *)

From Stdlib Require Import Strings.String Strings.Ascii Numbers.DecimalString.
From Stdlib Require Import List NArith ZArith Bool Lia Arith Permutation.
From Stdlib Require Import Sorting.Sorted.
Import ListNotations.

(* ================================================================== *)
(** * JavaScript strings *)
(* ================================================================== *)

(** A JavaScript string is a sequence of UTF-16 code units.  The regular
    expressions of the sources carry no [u] flag, so they too work on code
    units. *)
Module JS.

Abbreviation char := N (only parsing).
Abbreviation str := (list N) (only parsing).

(** String literals of the sources that are plain ASCII. *)
Definition lit (s : string) : str :=
  List.map N_of_ascii (list_ascii_of_string s).
Arguments lit s%_string.

Fixpoint eqb (a b : str) : bool :=
  match a, b with
  | [], [] => true
  | x :: a', y :: b' => N.eqb x y && eqb a' b'
  | _, _ => false
  end.

(** Truthiness of a string: non-empty. *)
Definition truthy (s : str) : bool :=
  match s with [] => false | _ => true end.

Definition between (lo hi c : N) : bool := N.leb lo c && N.leb c hi.

(** [\s] of a regular expression, which is also the set [trim] strips:
    WhiteSpace (TAB, VT, FF, SP, NBSP, ZWNBSP and the category Zs) and
    LineTerminator (LF, CR, LS, PS). *)
Definition isws (c : char) : bool :=
  between 9 13 c || N.eqb c 32 || N.eqb c 160 || N.eqb c 0x1680
  || between 0x2000 0x200A c || N.eqb c 0x2028 || N.eqb c 0x2029
  || N.eqb c 0x202F || N.eqb c 0x205F || N.eqb c 0x3000 || N.eqb c 0xFEFF.

(** [\d], [\w] and [[A-Z0-9_]]. *)
Definition isdigit (c : char) : bool := between 48 57 c.
Definition isupper (c : char) : bool := between 65 90 c.
Definition islower (c : char) : bool := between 97 122 c.
Definition isword (c : char) : bool :=
  isupper c || islower c || isdigit c || N.eqb c 95.
Definition iscode (c : char) : bool :=
  isupper c || isdigit c || N.eqb c 95.

Definition chr (x : N) (c : char) : bool := N.eqb c x.

Fixpoint drop_ws (s : str) : str :=
  match s with
  | c :: t => if isws c then drop_ws t else s
  | [] => []
  end.

(** [String.prototype.trim]. *)
Definition trim (s : str) : str := rev (drop_ws (rev (drop_ws s))).

Fixpoint starts_with (p s : str) : bool :=
  match p, s with
  | [], _ => true
  | x :: p', y :: s' => N.eqb x y && starts_with p' s'
  | _ :: _, [] => false
  end.

(** [String.prototype.includes]. *)
Fixpoint includes (s p : str) : bool :=
  starts_with p s || match s with [] => false | _ :: t => includes t p end.

(** [Array.prototype.join] on an array of strings. *)
Fixpoint join (sep : str) (parts : list str) : str :=
  match parts with
  | [] => []
  | [p] => p
  | p :: rest => p ++ sep ++ join sep rest
  end.

(** [s.split(/\s+/)]: [cur] is the piece being read, [insep] tells that the
    previous code unit belonged to a separator. *)
Fixpoint split_ws_from (cur : str) (insep : bool) (s : str) : list str :=
  match s with
  | [] => [cur]
  | c :: t =>
      if isws c
      then if insep then split_ws_from cur true t
           else cur :: split_ws_from [] true t
      else split_ws_from (cur ++ [c]) false t
  end.

Definition split_ws (s : str) : list str := split_ws_from [] false s.

(** Template literal [`${n}`] of an integer. *)
Definition of_int (z : Z) : str := lit (NilZero.string_of_int (Z.to_int z)).

(** ** Global replacement

    [s.replace(re, r)] with a [g] regular expression that never matches the
    empty string: scan from the left; where [re] matches, emit the
    replacement and go on behind the match, otherwise emit the code unit and
    go on one position further.  A matcher receives the rest of the string
    from the scan position and gives the replacement and what is left behind
    the match. *)
Definition matcher := str -> option (str * str).

Fixpoint gsub_fuel (fuel : nat) (m : matcher) (s : str) : str :=
  match fuel with
  | O => s
  | S fuel' =>
      match s with
      | [] => []
      | c :: t =>
          match m s with
          | Some (r, rest) => r ++ gsub_fuel fuel' m rest
          | None => c :: gsub_fuel fuel' m t
          end
      end
  end.

Definition gsub (m : matcher) (s : str) : str := gsub_fuel (length s) m s.

(** A matcher for a character class [[...]]. *)
Definition one_of (p : char -> bool) (r : str) : matcher :=
  fun s => match s with
           | c :: t => if p c then Some (r, t) else None
           | [] => None
           end.

(** The patterns built from [\s*] and single-character classes that exclude
    white space:

      [\s*]? c1 \s* c2 \s* ... \s* cn [\s*]?

    Since no class accepts white space, the greedy [\s*] never has to give
    anything back, and matching is a single pass. *)
Record pattern := {
  lead : bool;                      (* the pattern starts with [\s*] *)
  classes : list (char -> bool);    (* c1 ... cn, [\s*] in between *)
  trail : bool                      (* the pattern ends with [\s*] *)
}.

(** [\s* c] repeated; gives the code units the classes matched and the rest. *)
Fixpoint match_seq (cs : list (char -> bool)) (s : str) : option (str * str) :=
  match cs with
  | [] => Some ([], s)
  | p :: cs' =>
      match drop_ws s with
      | c :: t =>
          if p c
          then match match_seq cs' t with
               | Some (k, r) => Some (c :: k, r)
               | None => None
               end
          else None
      | [] => None
      end
  end.

Definition match_pattern (P : pattern) (s : str) : option (str * str) :=
  let core :=
    if lead P then match_seq (classes P) s
    else match classes P, s with
         | p :: cs', c :: t =>
             if p c
             then match match_seq cs' t with
                  | Some (k, r) => Some (c :: k, r)
                  | None => None
                  end
             else None
         | _, _ => None
         end in
  match core with
  | Some (k, r) => Some (k, if trail P then drop_ws r else r)
  | None => None
  end.

(** The matcher of a pattern; [repl] builds the replacement from the code
    units the classes matched. *)
Definition rx (P : pattern) (repl : str -> str) : matcher :=
  fun s => match match_pattern P s with
           | Some (k, r) => Some (repl k, r)
           | None => None
           end.

End JS.

(* ================================================================== *)
(** * Text normalisation (the comparator bundled with the web server) *)
(* ================================================================== *)

Module Normalize.
Import JS.

(** [[\u200B\u200C\u200D\uFEFF\u2060\u200E\u200F\u00AD]] *)
Definition zero_width (c : char) : bool :=
  N.eqb c 0x200B || N.eqb c 0x200C || N.eqb c 0x200D || N.eqb c 0xFEFF
  || N.eqb c 0x2060 || N.eqb c 0x200E || N.eqb c 0x200F || N.eqb c 0x00AD.

(** [[\x00-\x08\x0B\x0C\x0E-\x1F\x7F-\x9F]] *)
Definition control (c : char) : bool :=
  between 0x00 0x08 c || N.eqb c 0x0B || N.eqb c 0x0C
  || between 0x0E 0x1F c || between 0x7F 0x9F c.

(** [[\u00A0\u2000-\u200A\u202F\u205F\u3000]] *)
Definition space_variant (c : char) : bool :=
  N.eqb c 0x00A0 || between 0x2000 0x200A c || N.eqb c 0x202F
  || N.eqb c 0x205F || N.eqb c 0x3000.

(** [[\u2010-\u2015\u2212\uFE58\uFE63\uFF0D]] *)
Definition dash_variant (c : char) : bool :=
  between 0x2010 0x2015 c || N.eqb c 0x2212 || N.eqb c 0xFE58
  || N.eqb c 0xFE63 || N.eqb c 0xFF0D.

Definition space : char := 32%N.
Definition hyphen : char := 45%N.
Definition slash : char := 47%N.

(** [/(\w)\s*-\s*(\w)/g] with replacement ['$1-$2'] *)
Definition word_hyphen_word : pattern :=
  {| lead := false; classes := [isword; chr hyphen; isword]; trail := false |}.
Definition group1_hyphen_group2 (k : str) : str :=
  match k with
  | [g1; _; g2] => [g1; hyphen; g2]
  | _ => k
  end.

(** [/\s*-\s*\/\s*/g], [/\s*\/\s*-\s*/g] and [/\s*\/\s*/g] *)
Definition hyphen_slash : pattern :=
  {| lead := true; classes := [chr hyphen; chr slash]; trail := true |}.
Definition slash_hyphen : pattern :=
  {| lead := true; classes := [chr slash; chr hyphen]; trail := true |}.
Definition lone_slash : pattern :=
  {| lead := true; classes := [chr slash]; trail := true |}.

(** [/ {2,}/g]: two or more plain spaces. *)
Fixpoint drop_spaces (s : str) : str :=
  match s with
  | c :: t => if N.eqb c space then drop_spaces t else s
  | [] => []
  end.

Definition spaces2 (r : str) : matcher :=
  fun s => match s with
           | a :: b :: t =>
               if N.eqb a space && N.eqb b space
               then Some (r, drop_spaces t) else None
           | _ => None
           end.

Definition normalizeForComparison (text : str) : str :=
  if negb (truthy text) then [] else
  let s := text in
  (* Strip zero-width characters and soft hyphens *)
  let s := gsub (one_of zero_width []) s in
  (* Strip C0/C1 control characters except \n \r \t *)
  let s := gsub (one_of control []) s in
  (* Normalize Unicode whitespace variants to regular space *)
  let s := gsub (one_of space_variant [space]) s in
  (* Normalize dash/hyphen variants to standard hyphen *)
  let s := gsub (one_of dash_variant [hyphen]) s in
  (* Normalize spaces around hyphens between word characters *)
  let s := gsub (rx word_hyphen_word group1_hyphen_group2) s in
  (* Normalize spacing around hyphen-slash compounds *)
  let s := gsub (rx hyphen_slash (fun _ => lit "-/")) s in
  let s := gsub (rx slash_hyphen (fun _ => lit "/-")) s in
  let s := gsub (rx lone_slash (fun _ => lit "/")) s in
  (* Collapse multiple spaces and trim *)
  let s := trim (gsub (spaces2 [space]) s) in
  s.

End Normalize.

(* ================================================================== *)
(** * What the database hands to the comparator *)
(* ================================================================== *)

(** The objects [getSections] and [getRows] of [database.mjs] build from the
    result rows of their queries.  [insertDocument] stores every text column
    as a string, so no field is null. *)
Module DbSection.
Record t := {
  id : Z;
  sectionOrder : Z;
  title : JS.str;
  pruefidentifikator : JS.str;       (* comma-joined codes *)
  kommunikationVon : JS.str;
  statusCol1Header : JS.str;
  statusCol2Header : JS.str;
  pageStart : Z
}.
End DbSection.

Module DbRow.
Record t := {
  id : Z;
  rowOrder : Z;
  segmentGroup : JS.str;
  segmentCode : JS.str;
  dataElement : JS.str;
  beschreibung : JS.str;
  statusCol1 : JS.str;
  statusCol2 : JS.str;
  bedingung : JS.str;
  isLabel : bool
}.
End DbRow.

(** The database as the comparator sees it: the two queries it runs, each
    giving its result in the order of the [ORDER BY] clause. *)
Record Database := {
  getSections : Z -> list DbSection.t;    (* by document id *)
  getRows : Z -> list DbRow.t             (* by section id *)
}.

(* ================================================================== *)
(** * [Map] and [Set] with string keys *)
(* ================================================================== *)

(** Both iterate in insertion order, which decides the order of the diffs:
    a [Map] is the list of its entries, a [Set] the list of its members. *)
Module JSMap.
Import JS.

Definition t (V : Type) := list (str * V).

Fixpoint get {V} (key : str) (m : t V) : option V :=
  match m with
  | [] => None
  | (k, v) :: m' => if eqb k key then Some v else get key m'
  end.

Definition has {V} (key : str) (m : t V) : bool :=
  match get key m with Some _ => true | None => false end.

Fixpoint set {V} (key : str) (v : V) (m : t V) : t V :=
  match m with
  | [] => [(key, v)]
  | (k, v') :: m' => if eqb k key then (k, v) :: m' else (k, v') :: set key v m'
  end.

Definition keys {V} (m : t V) : list str := map fst m.

End JSMap.

Module JSSet.
Import JS.

Definition has (key : str) (s : list str) : bool := existsb (eqb key) s.

Definition add (key : str) (s : list str) : list str :=
  if has key s then s else s ++ [key].

(** [new Set(iterable)] *)
Definition of_list (l : list str) : list str :=
  fold_left (fun s key => add key s) l [].

End JSSet.

(* ================================================================== *)
(** * The comparator *)
(* ================================================================== *)

Module Comparator.
Import JS.

Inductive DiffType := Added | Removed | Modified | Unchanged.

Record FieldChange := { field : str; old : str; new : str }.

(** [{ type, key, row }], [{ type, key, rowOld, rowNew, changes }]; the row
    diffs of an added or removed section carry no key. *)
Inductive RowDiff :=
| RowAdded (key : option str) (row : DbRow.t)
| RowRemoved (key : option str) (row : DbRow.t)
| RowModified (key : str) (rowOld rowNew : DbRow.t) (changes : list FieldChange)
| RowUnchanged (key : str) (row : DbRow.t).

Definition rowDiffType (d : RowDiff) : DiffType :=
  match d with
  | RowAdded _ _ => Added
  | RowRemoved _ _ => Removed
  | RowModified _ _ _ _ => Modified
  | RowUnchanged _ _ => Unchanged
  end.

Inductive SectionDiff :=
| SectionAdded (pruefidentifikator : str) (section : DbSection.t)
    (rows : list RowDiff)
| SectionRemoved (pruefidentifikator : str) (section : DbSection.t)
    (rows : list RowDiff)
| SectionMatched (type : DiffType) (pruefidentifikator : str)
    (sectionOld sectionNew : DbSection.t) (metaChanges : list FieldChange)
    (rows : list RowDiff).

Definition sectionDiffType (d : SectionDiff) : DiffType :=
  match d with
  | SectionAdded _ _ _ => Added
  | SectionRemoved _ _ _ => Removed
  | SectionMatched type _ _ _ _ _ => type
  end.

Definition sectionDiffKey (d : SectionDiff) : str :=
  match d with
  | SectionAdded k _ _ | SectionRemoved k _ _ | SectionMatched _ k _ _ _ _ => k
  end.

Definition sectionDiffRows (d : SectionDiff) : list RowDiff :=
  match d with
  | SectionAdded _ _ rows | SectionRemoved _ _ rows
  | SectionMatched _ _ _ _ _ rows => rows
  end.

Record Summary := { added : nat; removed : nat; modified : nat; unchanged : nat }.

Record ComparisonResult := {
  summary : Summary;
  sectionDiffs : list SectionDiff
}.

(** [sectionDiffs.sort((a, b) => order[a.type] - order[b.type])]:
    [Array.prototype.sort] is stable, so the result is the one of a stable
    insertion sort. *)
Definition order (t : DiffType) : nat :=
  match t with Modified => 0 | Added => 1 | Removed => 2 | Unchanged => 3 end.

Fixpoint insert (d : SectionDiff) (l : list SectionDiff) : list SectionDiff :=
  match l with
  | [] => [d]
  | e :: l' =>
      if order (sectionDiffType d) <=? order (sectionDiffType e)
      then d :: l else e :: insert d l'
  end.

Definition sort (l : list SectionDiff) : list SectionDiff :=
  fold_right insert [] l.

Section WithNormalization.

(** The two copies of the comparator differ in this function only: the one
    bundled with the web server normalises with
    [Normalize.normalizeForComparison], the other compares the strings as
    they are (see [plain] below). *)
Variable normalizeForComparison : str -> str.

Definition buildPruefMap (sections : list DbSection.t) : JSMap.t DbSection.t :=
  fold_left
    (fun map section =>
       let key := DbSection.pruefidentifikator section in
       if negb (JSMap.has key map) then JSMap.set key section map else map)
    sections [].

Definition differ (a b : str) : bool :=
  negb (eqb (normalizeForComparison a) (normalizeForComparison b)).

Definition checkMetaChanges (s1 s2 : DbSection.t) : bool :=
  differ (DbSection.title s1) (DbSection.title s2)
  || differ (DbSection.kommunikationVon s1) (DbSection.kommunikationVon s2)
  || differ (DbSection.statusCol1Header s1) (DbSection.statusCol1Header s2)
  || differ (DbSection.statusCol2Header s1) (DbSection.statusCol2Header s2).

Definition getMetaChanges (s1 s2 : DbSection.t) : list FieldChange :=
  let changes := [] in
  let changes :=
    if differ (DbSection.title s1) (DbSection.title s2)
    then changes ++ [{| field := lit "title"; old := DbSection.title s1;
                        new := DbSection.title s2 |}]
    else changes in
  let changes :=
    if differ (DbSection.kommunikationVon s1) (DbSection.kommunikationVon s2)
    then changes ++ [{| field := lit "kommunikationVon";
                        old := DbSection.kommunikationVon s1;
                        new := DbSection.kommunikationVon s2 |}]
    else changes in
  let changes :=
    if differ (DbSection.statusCol1Header s1) (DbSection.statusCol1Header s2)
    then changes ++ [{| field := lit "statusCol1Header";
                        old := DbSection.statusCol1Header s1;
                        new := DbSection.statusCol1Header s2 |}]
    else changes in
  let changes :=
    if differ (DbSection.statusCol2Header s1) (DbSection.statusCol2Header s2)
    then changes ++ [{| field := lit "statusCol2Header";
                        old := DbSection.statusCol2Header s1;
                        new := DbSection.statusCol2Header s2 |}]
    else changes in
  changes.

(** [/^[A-Z0-9_]{1,10}$/.test(w)] *)
Definition looksLikeCode (w : str) : bool :=
  (1 <=? length w) && (length w <=? 10) && forallb iscode w.

Definition rowKey (row : DbRow.t) : str :=
  if DbRow.isLabel row
  then lit "LABEL:" ++ normalizeForComparison (DbRow.beschreibung row)
  else
    let sg := normalizeForComparison (DbRow.segmentGroup row) in
    let sc := normalizeForComparison (DbRow.segmentCode row) in
    let de := normalizeForComparison (DbRow.dataElement row) in
    let parts := filter truthy [sg; sc; de] in
    if length parts =? 0
    then lit "POS:" ++ of_int (DbRow.rowOrder row)
    else
      let beschr := normalizeForComparison (DbRow.beschreibung row) in
      let firstWord := nth 0 (split_ws beschr) [] in
      let parts :=
        if looksLikeCode firstWord && truthy de
        then parts ++ [firstWord] else parts in
      join (lit "|") parts.

(** [map.get(key).push(row)] changes the array the map holds; the array is
    there, it has just been set. *)
Definition buildRowMap (rows : list DbRow.t) : JSMap.t (list DbRow.t) :=
  fold_left
    (fun map row =>
       let key := rowKey row in
       let map := if negb (JSMap.has key map) then JSMap.set key [] map else map in
       match JSMap.get key map with
       | Some l => JSMap.set key (l ++ [row]) map
       | None => map
       end)
    rows [].

Definition textFields : list (str * (DbRow.t -> str)) :=
  [ (lit "beschreibung", DbRow.beschreibung);
    (lit "statusCol1", DbRow.statusCol1);
    (lit "statusCol2", DbRow.statusCol2);
    (lit "bedingung", DbRow.bedingung) ].

Definition diffRowFields (r1 r2 : DbRow.t) : list FieldChange :=
  let changes :=
    fold_left
      (fun changes f =>
         let v1 := trim (snd f r1) in
         let v2 := trim (snd f r2) in
         if differ v1 v2
         then changes ++ [{| field := fst f; old := v1; new := v2 |}]
         else changes)
      textFields [] in
  (* Also check structural changes *)
  let changes :=
    if differ (DbRow.segmentGroup r1) (DbRow.segmentGroup r2)
    then changes ++ [{| field := lit "segmentGroup";
                        old := DbRow.segmentGroup r1;
                        new := DbRow.segmentGroup r2 |}]
    else changes in
  let changes :=
    if differ (DbRow.segmentCode r1) (DbRow.segmentCode r2)
    then changes ++ [{| field := lit "segmentCode";
                        old := DbRow.segmentCode r1;
                        new := DbRow.segmentCode r2 |}]
    else changes in
  changes.

(** The body of [for (let i = 0; i < maxLen; i++)], run for the [n]
    indices from [i] on.  [list[i]] is [undefined] behind the end of a list;
    were both rows undefined, [r2.id] would throw a [TypeError]: [None].
    The set [matched2] is written and never read, it is left out. *)
Fixpoint pairLoop (key : str) (list1 list2 : list DbRow.t) (n i : nat)
    (diffs : list RowDiff) : option (list RowDiff) :=
  match n with
  | O => Some diffs
  | S n' =>
      match nth_error list1 i, nth_error list2 i with
      | Some r1, Some r2 =>
          let fieldChanges := diffRowFields r1 r2 in
          let diffs :=
            if 0 <? length fieldChanges
            then diffs ++ [RowModified key r1 r2 fieldChanges]
            else diffs ++ [RowUnchanged key r1] in
          pairLoop key list1 list2 n' (S i) diffs
      | Some r1, None =>
          pairLoop key list1 list2 n' (S i) (diffs ++ [RowRemoved (Some key) r1])
      | None, Some r2 =>
          pairLoop key list1 list2 n' (S i) (diffs ++ [RowAdded (Some key) r2])
      | None, None => None
      end
  end.

Definition orEmpty (l : option (list DbRow.t)) : list DbRow.t :=
  match l with Some l => l | None => [] end.

Fixpoint compareRowsLoop (map1 map2 : JSMap.t (list DbRow.t))
    (allKeys : list str) (diffs : list RowDiff) : option (list RowDiff) :=
  match allKeys with
  | [] => Some diffs
  | key :: rest =>
      let list1 := orEmpty (JSMap.get key map1) in
      let list2 := orEmpty (JSMap.get key map2) in
      let maxLen := Nat.max (length list1) (length list2) in
      match pairLoop key list1 list2 maxLen 0 diffs with
      | Some diffs => compareRowsLoop map1 map2 rest diffs
      | None => None
      end
  end.

Definition compareRows (rows1 rows2 : list DbRow.t) : option (list RowDiff) :=
  let map1 := buildRowMap rows1 in
  let map2 := buildRowMap rows2 in
  let allKeys := JSSet.of_list (JSMap.keys map1 ++ JSMap.keys map2) in
  compareRowsLoop map1 map2 allKeys [].

(** The body of [for (const key of allKeys)] in [compareDocuments]. *)
Definition compareSection (db : Database) (map1 map2 : JSMap.t DbSection.t)
    (key : str) (acc : Summary * list SectionDiff)
    : option (Summary * list SectionDiff) :=
  let (summary, sectionDiffs) := acc in
  match JSMap.get key map1, JSMap.get key map2 with
  | None, None => None                       (* [s2.id] of [undefined] *)
  | None, Some s2 =>
      Some ({| added := S (added summary); removed := removed summary;
               modified := modified summary; unchanged := unchanged summary |},
            sectionDiffs ++
              [SectionAdded key s2
                 (map (fun r => RowAdded None r) (getRows db (DbSection.id s2)))])
  | Some s1, None =>
      Some ({| added := added summary; removed := S (removed summary);
               modified := modified summary; unchanged := unchanged summary |},
            sectionDiffs ++
              [SectionRemoved key s1
                 (map (fun r => RowRemoved None r) (getRows db (DbSection.id s1)))])
  | Some s1, Some s2 =>
      let rows1 := getRows db (DbSection.id s1) in
      let rows2 := getRows db (DbSection.id s2) in
      match compareRows rows1 rows2 with
      | None => None
      | Some rowDiffs =>
          let hasChanges :=
            existsb (fun d => match rowDiffType d with
                              | Unchanged => false | _ => true end) rowDiffs in
          let metaChanged := checkMetaChanges s1 s2 in
          let summary :=
            if hasChanges || metaChanged
            then {| added := added summary; removed := removed summary;
                    modified := S (modified summary);
                    unchanged := unchanged summary |}
            else {| added := added summary; removed := removed summary;
                    modified := modified summary;
                    unchanged := S (unchanged summary) |} in
          Some (summary,
                sectionDiffs ++
                  [SectionMatched
                     (if hasChanges || metaChanged then Modified else Unchanged)
                     key s1 s2
                     (if metaChanged then getMetaChanges s1 s2 else [])
                     rowDiffs])
      end
  end.

Fixpoint compareSections (db : Database) (map1 map2 : JSMap.t DbSection.t)
    (allKeys : list str) (acc : Summary * list SectionDiff)
    : option (Summary * list SectionDiff) :=
  match allKeys with
  | [] => Some acc
  | key :: rest =>
      match compareSection db map1 map2 key acc with
      | Some acc => compareSections db map1 map2 rest acc
      | None => None
      end
  end.

Definition compareDocuments (db : Database) (docId1 docId2 : Z)
    : option ComparisonResult :=
  let sections1 := getSections db docId1 in
  let sections2 := getSections db docId2 in
  let map1 := buildPruefMap sections1 in
  let map2 := buildPruefMap sections2 in
  let allKeys := JSSet.of_list (JSMap.keys map1 ++ JSMap.keys map2) in
  match compareSections db map1 map2 allKeys
          ({| added := 0; removed := 0; modified := 0; unchanged := 0 |}, []) with
  | Some (summary, sectionDiffs) =>
      Some {| summary := summary; sectionDiffs := sort sectionDiffs |}
  | None => None
  end.

End WithNormalization.

(** The comparator of [src/comparator.mjs] compares the strings as they
    are. *)
Definition plain (text : str) : str := text.

End Comparator.

(* ================================================================== *)
(** * The parser: from positioned text to sections *)
(* ================================================================== *)

(** What the parser takes from the JavaScript runtime: the arithmetic of
    IEEE doubles on the coordinates and [String.prototype.toLowerCase]. *)
Record Runtime := {
  num : Type;
  num_of_Z : Z -> num;            (* an integer literal *)
  num_lt : num -> num -> bool;    (* [a < b] *)
  num_sub : num -> num -> num;    (* [a - b] *)
  num_abs : num -> num;           (* [Math.abs(a)] *)
  num_truthy : num -> bool;       (* neither zero nor NaN *)
  toLowerCase : JS.str -> JS.str
}.

Module Item.
Record t (rt : Runtime) := { text : JS.str; x : num rt; y : num rt }.
Arguments text {rt} _.
Arguments x {rt} _.
Arguments y {rt} _.
End Item.

Module Page.
Record t (rt : Runtime) := { pageNum : Z; items : list (Item.t rt) }.
Arguments pageNum {rt} _.
Arguments items {rt} _.
End Page.

(** What [parseRow] returns. *)
Module ParsedRow.
Record t (rt : Runtime) := {
  segmentGroup : JS.str;
  segmentCode : JS.str;
  dataElement : JS.str;
  beschreibung : JS.str;
  statusCol1 : JS.str;
  statusCol2 : JS.str;
  bedingung : JS.str;
  y : num rt
}.
Arguments segmentGroup {rt} _.
Arguments segmentCode {rt} _.
Arguments dataElement {rt} _.
Arguments beschreibung {rt} _.
Arguments statusCol1 {rt} _.
Arguments statusCol2 {rt} _.
Arguments bedingung {rt} _.
Arguments y {rt} _.
End ParsedRow.

(** A row of a section; [isLabel] is absent, hence falsy, on a data row. *)
Module Row.
Record t := {
  segmentGroup : JS.str;
  segmentCode : JS.str;
  dataElement : JS.str;
  beschreibung : JS.str;
  statusCol1 : JS.str;
  statusCol2 : JS.str;
  bedingung : JS.str;
  isLabel : bool
}.
End Row.

Module ParsedSection.
Record t := {
  title : JS.str;
  pruefidentifikator : list JS.str;
  kommunikationVon : list JS.str;
  statusCol1Header : JS.str;
  statusCol2Header : JS.str;
  pageStart : Z;
  rows : list Row.t
}.
End ParsedSection.

Module Parser.
Import JS.

Inductive Column := edifact | beschreibung | status1 | status2 | bedingung.
Inductive EdifactSub := segmentGroup | segmentCode | dataElement.

(** [/^SG\d+$/] *)
Definition SEGMENT_GROUP_RE (s : str) : bool :=
  match s with
  | 83%N :: 71%N :: d :: rest => forallb isdigit (d :: rest)
  | _ => false
  end.

Definition KNOWN_SEGMENTS : list str :=
  [ lit "UNH"; lit "BGM"; lit "DTM"; lit "NAD"; lit "CTA"; lit "COM";
    lit "CNI"; lit "LOC"; lit "STS"; lit "RFF"; lit "FTX"; lit "EQD";
    lit "GID"; lit "UNT"; lit "DOC"; lit "MEA"; lit "QTY"; lit "TDT";
    lit "SEQ"; lit "PCI"; lit "GIN"; lit "IDE"; lit "DGS" ].

(** [/^\d{5}$/], [/^\d{5}\s+\d{5}$/] and [/^\d{4,5}$/] *)
Definition fiveDigits (s : str) : bool :=
  (length s =? 5) && forallb isdigit s.

Definition twoCodes (s : str) : bool :=
  fiveDigits (firstn 5 s)
  && negb (eqb (drop_ws (skipn 5 s)) (skipn 5 s))
  && fiveDigits (drop_ws (skipn 5 s)).

Definition fourOrFiveDigits (s : str) : bool :=
  (4 <=? length s) && (length s <=? 5) && forallb isdigit s.

(** ['prüfidentifikator'] *)
Definition marker : str := lit "pr" ++ [252%N] ++ lit "fidentifikator".

(** The cursors of [buildSections].  [lastRow] refers to a row object held
    in [rows]: it is the index of that row, so that what is appended to
    [lastRow] shows in [rows]. *)
Record Builder := {
  sections : list ParsedSection.t;
  current : option ParsedSection.t;
  rows : list Row.t;
  lastRow : option nat;
  pendingTitle : str
}.

Fixpoint updateAt (i : nat) (f : Row.t -> Row.t) (l : list Row.t) : list Row.t :=
  match l, i with
  | [], _ => []
  | r :: l', O => f r :: l'
  | r :: l', S i' => r :: updateAt i' f l'
  end.

Definition setRows (c : ParsedSection.t) (rows : list Row.t) : ParsedSection.t :=
  {| ParsedSection.title := ParsedSection.title c;
     ParsedSection.pruefidentifikator := ParsedSection.pruefidentifikator c;
     ParsedSection.kommunikationVon := ParsedSection.kommunikationVon c;
     ParsedSection.statusCol1Header := ParsedSection.statusCol1Header c;
     ParsedSection.statusCol2Header := ParsedSection.statusCol2Header c;
     ParsedSection.pageStart := ParsedSection.pageStart c;
     ParsedSection.rows := rows |}.

Definition finalizeSection (st : Builder) : Builder :=
  match current st with
  | Some c =>
      let c := setRows c (rows st) in
      {| sections := sections st ++ [c]; current := Some c; rows := [];
         lastRow := None; pendingTitle := pendingTitle st |}
  | None => st
  end.

Section WithRuntime.
Variable rt : Runtime.

Definition lit_num (z : Z) : num rt := num_of_Z rt z.

Definition COL_EDIFACT_MAX := lit_num 170.
Definition COL_BESCHREIBUNG_MAX := lit_num 305.
Definition COL_STATUS1_MAX := lit_num 370.
Definition COL_STATUS2_MAX := lit_num 435.
Definition EDIFACT_SUB_SEG_GROUP_MAX := lit_num 88.
Definition EDIFACT_SUB_SEG_CODE_MAX := lit_num 118.
Definition ROW_Y_THRESHOLD := lit_num 5.
Definition HEADER_Y_MIN := lit_num 775.
Definition FOOTER_Y_MAX := lit_num 30.

(** ** Row grouping and column classification *)

(** [(a, b) => b.y - a.y || a.x - b.x] *)
Definition compareItems (a b : Item.t rt) : num rt :=
  let d := num_sub rt (Item.y b) (Item.y a) in
  if num_truthy rt d then d else num_sub rt (Item.x a) (Item.x b).

(** [Array.prototype.sort] is stable: an item goes behind the items that
    compare greater and stays in front of all others. *)
Fixpoint insertItem (a : Item.t rt) (l : list (Item.t rt)) : list (Item.t rt) :=
  match l with
  | [] => [a]
  | b :: l' =>
      if num_lt rt (lit_num 0) (compareItems a b)
      then b :: insertItem a l' else a :: l
  end.

Definition sortItems (items : list (Item.t rt)) : list (Item.t rt) :=
  fold_right insertItem [] items.

(** The loop of [groupIntoRows], with [rows], [currentRow] and [currentY]. *)
Fixpoint groupLoop (sorted : list (Item.t rt)) (rows : list (list (Item.t rt)))
    (currentRow : list (Item.t rt)) (currentY : option (num rt))
    : list (list (Item.t rt)) :=
  match sorted with
  | [] => if 0 <? length currentRow then rows ++ [currentRow] else rows
  | item :: rest =>
      let newRow :=
        match currentY with
        | None => true
        | Some cy =>
            num_lt rt ROW_Y_THRESHOLD
              (num_abs rt (num_sub rt (Item.y item) cy))
        end in
      if newRow
      then groupLoop rest
             (if 0 <? length currentRow then rows ++ [currentRow] else rows)
             [item] (Some (Item.y item))
      else groupLoop rest rows (currentRow ++ [item]) currentY
  end.

Definition groupIntoRows (items : list (Item.t rt)) : list (list (Item.t rt)) :=
  groupLoop (sortItems items) [] [] None.

Definition classifyColumn (x : num rt) : Column :=
  if num_lt rt x COL_EDIFACT_MAX then edifact
  else if num_lt rt x COL_BESCHREIBUNG_MAX then beschreibung
  else if num_lt rt x COL_STATUS1_MAX then status1
  else if num_lt rt x COL_STATUS2_MAX then status2
  else bedingung.

Definition classifyEdifactSub (x : num rt) : EdifactSub :=
  if num_lt rt x EDIFACT_SUB_SEG_GROUP_MAX then segmentGroup
  else if num_lt rt x EDIFACT_SUB_SEG_CODE_MAX then segmentCode
  else dataElement.

(** [field ? field + ' ' + text : text] *)
Definition appendText (field text : str) : str :=
  if truthy field then field ++ lit " " ++ text else text.

(** The fields and the [parts] arrays while [parseRow] loops over the
    items. *)
Record RowParts := {
  p_segmentGroup : str;
  p_segmentCode : str;
  p_dataElement : str;
  p_beschreibung : list str;
  p_status1 : list str;
  p_status2 : list str;
  p_bedingung : list str
}.

Definition placeItem (p : RowParts) (item : Item.t rt) : RowParts :=
  let text := Item.text item in
  match classifyColumn (Item.x item) with
  | edifact =>
      match classifyEdifactSub (Item.x item) with
      | segmentGroup =>
          {| p_segmentGroup := appendText (p_segmentGroup p) text;
             p_segmentCode := p_segmentCode p; p_dataElement := p_dataElement p;
             p_beschreibung := p_beschreibung p; p_status1 := p_status1 p;
             p_status2 := p_status2 p; p_bedingung := p_bedingung p |}
      | segmentCode =>
          {| p_segmentGroup := p_segmentGroup p;
             p_segmentCode := appendText (p_segmentCode p) text;
             p_dataElement := p_dataElement p;
             p_beschreibung := p_beschreibung p; p_status1 := p_status1 p;
             p_status2 := p_status2 p; p_bedingung := p_bedingung p |}
      | dataElement =>
          {| p_segmentGroup := p_segmentGroup p; p_segmentCode := p_segmentCode p;
             p_dataElement := appendText (p_dataElement p) text;
             p_beschreibung := p_beschreibung p; p_status1 := p_status1 p;
             p_status2 := p_status2 p; p_bedingung := p_bedingung p |}
      end
  | beschreibung =>
      {| p_segmentGroup := p_segmentGroup p; p_segmentCode := p_segmentCode p;
         p_dataElement := p_dataElement p;
         p_beschreibung := p_beschreibung p ++ [text]; p_status1 := p_status1 p;
         p_status2 := p_status2 p; p_bedingung := p_bedingung p |}
  | status1 =>
      {| p_segmentGroup := p_segmentGroup p; p_segmentCode := p_segmentCode p;
         p_dataElement := p_dataElement p;
         p_beschreibung := p_beschreibung p; p_status1 := p_status1 p ++ [text];
         p_status2 := p_status2 p; p_bedingung := p_bedingung p |}
  | status2 =>
      {| p_segmentGroup := p_segmentGroup p; p_segmentCode := p_segmentCode p;
         p_dataElement := p_dataElement p;
         p_beschreibung := p_beschreibung p; p_status1 := p_status1 p;
         p_status2 := p_status2 p ++ [text]; p_bedingung := p_bedingung p |}
  | bedingung =>
      {| p_segmentGroup := p_segmentGroup p; p_segmentCode := p_segmentCode p;
         p_dataElement := p_dataElement p;
         p_beschreibung := p_beschreibung p; p_status1 := p_status1 p;
         p_status2 := p_status2 p; p_bedingung := p_bedingung p ++ [text] |}
  end.

Definition parseRow (items : list (Item.t rt)) : ParsedRow.t rt :=
  let p :=
    fold_left placeItem items
      {| p_segmentGroup := []; p_segmentCode := []; p_dataElement := [];
         p_beschreibung := []; p_status1 := []; p_status2 := [];
         p_bedingung := [] |} in
  {| ParsedRow.segmentGroup := p_segmentGroup p;
     ParsedRow.segmentCode := p_segmentCode p;
     ParsedRow.dataElement := p_dataElement p;
     ParsedRow.beschreibung := join (lit " ") (p_beschreibung p);
     ParsedRow.statusCol1 := join (lit " ") (p_status1 p);
     ParsedRow.statusCol2 := join (lit " ") (p_status2 p);
     ParsedRow.bedingung := join (lit " ") (p_bedingung p);
     ParsedRow.y :=
       match items with
       | item :: _ =>
           if num_truthy rt (Item.y item) then Item.y item else lit_num 0
       | [] => lit_num 0
       end |}.

(** ** Section detection *)

Definition isTableHeader (row : ParsedRow.t rt) : bool :=
  let combined :=
    toLowerCase rt (ParsedRow.segmentGroup row ++ lit " " ++ ParsedRow.beschreibung row) in
  includes combined (lit "edifact") && includes combined (lit "struktur").

Definition isPruefidentifikatorHeader (row : ParsedRow.t rt) : bool :=
  if negb (includes (toLowerCase rt (ParsedRow.beschreibung row)) marker)
  then false
  else
    let hasNumericId :=
      fiveDigits (trim (ParsedRow.statusCol1 row))
      || fiveDigits (trim (ParsedRow.statusCol2 row))
      || twoCodes (trim (ParsedRow.statusCol1 row))
      || twoCodes (trim (ParsedRow.statusCol2 row)) in
    hasNumericId.

Definition isKommunikationVon (row : ParsedRow.t rt) : bool :=
  includes (toLowerCase rt (ParsedRow.beschreibung row)) (lit "kommunikation von").

Definition isStatusColumnHeader (row : ParsedRow.t rt) : bool :=
  let s1 := toLowerCase rt (ParsedRow.statusCol1 row) in
  let noEdifact :=
    negb (truthy (ParsedRow.segmentGroup row))
    && negb (truthy (ParsedRow.segmentCode row)) in
  noEdifact &&
  (includes s1 (lit "meldung") || includes s1 (lit "status")
   || includes s1 (lit "antwort") || includes s1 (lit "bestellung")
   || includes s1 (lit "mitteilung") || includes s1 (lit "information")
   || includes s1 (lit "konfiguration") || includes s1 (lit "meldung")
   || includes s1 ([252%N] ++ lit "bermittlung")).

Definition hasEdifactContent (row : ParsedRow.t rt) : bool :=
  SEGMENT_GROUP_RE (ParsedRow.segmentGroup row)
  || existsb (eqb (ParsedRow.segmentCode row)) KNOWN_SEGMENTS
  || fourOrFiveDigits (trim (ParsedRow.dataElement row)).

Definition isDataRow (row : ParsedRow.t rt) : bool :=
  hasEdifactContent row
  || (truthy (ParsedRow.segmentGroup row) && truthy (ParsedRow.segmentCode row)).

Definition isContinuationRow (row : ParsedRow.t rt) : bool :=
  negb (truthy (ParsedRow.segmentGroup row))
  && negb (truthy (ParsedRow.segmentCode row))
  && negb (truthy (ParsedRow.dataElement row))
  && (truthy (ParsedRow.beschreibung row) || truthy (ParsedRow.statusCol1 row)
      || truthy (ParsedRow.statusCol2 row) || truthy (ParsedRow.bedingung row)).

Definition isSectionLabel (row : ParsedRow.t rt) : bool :=
  negb (truthy (ParsedRow.segmentGroup row))
  && negb (truthy (ParsedRow.segmentCode row))
  && negb (truthy (ParsedRow.dataElement row))
  && truthy (ParsedRow.beschreibung row)
  && negb (truthy (ParsedRow.statusCol1 row))
  && negb (truthy (ParsedRow.statusCol2 row)).

(** ** Section building *)

(** [[parsed.statusCol1, parsed.statusCol2].filter(Boolean).map(s => s.trim())] *)
Definition statusValues (parsed : ParsedRow.t rt) : list str :=
  map trim (filter truthy [ParsedRow.statusCol1 parsed; ParsedRow.statusCol2 parsed]).

Definition dataRowOf (parsed : ParsedRow.t rt) : Row.t :=
  {| Row.segmentGroup := trim (ParsedRow.segmentGroup parsed);
     Row.segmentCode := trim (ParsedRow.segmentCode parsed);
     Row.dataElement := trim (ParsedRow.dataElement parsed);
     Row.beschreibung := trim (ParsedRow.beschreibung parsed);
     Row.statusCol1 := trim (ParsedRow.statusCol1 parsed);
     Row.statusCol2 := trim (ParsedRow.statusCol2 parsed);
     Row.bedingung := trim (ParsedRow.bedingung parsed);
     Row.isLabel := false |}.

Definition labelRowOf (parsed : ParsedRow.t rt) : Row.t :=
  {| Row.segmentGroup := []; Row.segmentCode := []; Row.dataElement := [];
     Row.beschreibung := trim (ParsedRow.beschreibung parsed);
     Row.statusCol1 := []; Row.statusCol2 := []; Row.bedingung := [];
     Row.isLabel := true |}.

(** [if (text) field += ' ' + text.trim()] *)
Definition extend (field text : str) : str :=
  if truthy text then field ++ lit " " ++ trim text else field.

Definition continueRow (parsed : ParsedRow.t rt) (r : Row.t) : Row.t :=
  {| Row.segmentGroup := Row.segmentGroup r;
     Row.segmentCode := Row.segmentCode r;
     Row.dataElement := Row.dataElement r;
     Row.beschreibung := extend (Row.beschreibung r) (ParsedRow.beschreibung parsed);
     Row.statusCol1 := extend (Row.statusCol1 r) (ParsedRow.statusCol1 parsed);
     Row.statusCol2 := extend (Row.statusCol2 r) (ParsedRow.statusCol2 parsed);
     Row.bedingung := extend (Row.bedingung r) (ParsedRow.bedingung parsed);
     Row.isLabel := Row.isLabel r |}.

Definition withCurrent (st : Builder) (c : ParsedSection.t) : Builder :=
  {| sections := sections st; current := Some c; rows := rows st;
     lastRow := lastRow st; pendingTitle := pendingTitle st |}.

Definition withPendingTitle (st : Builder) (title : str) : Builder :=
  {| sections := sections st; current := current st; rows := rows st;
     lastRow := lastRow st; pendingTitle := title |}.

Definition pushRow (st : Builder) (r : Row.t) : Builder :=
  {| sections := sections st; current := current st; rows := rows st ++ [r];
     lastRow := Some (length (rows st)); pendingTitle := pendingTitle st |}.

(** The body of [for (const rowItems of pageRows)] behind [parseRow]: a
    chain of guards, each ending in [continue]. *)
Definition classifyRow (pageNum : Z) (st : Builder) (parsed : ParsedRow.t rt)
    : Builder :=
  (* Skip repeated table headers *)
  if isTableHeader parsed then st
  (* Detect Pruefidentifikator: new section or repeated page header *)
  else if isPruefidentifikatorHeader parsed then
    let newPruef := statusValues parsed in
    let newPruefKey := join (lit ",") newPruef in
    let currentPruefKey :=
      match current st with
      | Some c => join (lit ",") (ParsedSection.pruefidentifikator c)
      | None => []
      end in
    match current st with
    | Some _ =>
        if eqb newPruefKey currentPruefKey then st
        else
          let st := finalizeSection st in
          {| sections := sections st;
             current :=
               Some {| ParsedSection.title := trim (pendingTitle st);
                       ParsedSection.pruefidentifikator := newPruef;
                       ParsedSection.kommunikationVon := [];
                       ParsedSection.statusCol1Header := [];
                       ParsedSection.statusCol2Header := [];
                       ParsedSection.pageStart := pageNum;
                       ParsedSection.rows := [] |};
             rows := rows st; lastRow := None; pendingTitle := [] |}
    | None =>
        let st := finalizeSection st in
        {| sections := sections st;
           current :=
             Some {| ParsedSection.title := trim (pendingTitle st);
                     ParsedSection.pruefidentifikator := newPruef;
                     ParsedSection.kommunikationVon := [];
                     ParsedSection.statusCol1Header := [];
                     ParsedSection.statusCol2Header := [];
                     ParsedSection.pageStart := pageNum;
                     ParsedSection.rows := [] |};
           rows := rows st; lastRow := None; pendingTitle := [] |}
    end
  else
    match current st with
    | Some c =>
        (* Kommunikation von row: section metadata (set once, skip repeats) *)
        if isKommunikationVon parsed then
          if length (ParsedSection.kommunikationVon c) =? 0
          then withCurrent st
                 {| ParsedSection.title := ParsedSection.title c;
                    ParsedSection.pruefidentifikator := ParsedSection.pruefidentifikator c;
                    ParsedSection.kommunikationVon := statusValues parsed;
                    ParsedSection.statusCol1Header := ParsedSection.statusCol1Header c;
                    ParsedSection.statusCol2Header := ParsedSection.statusCol2Header c;
                    ParsedSection.pageStart := ParsedSection.pageStart c;
                    ParsedSection.rows := ParsedSection.rows c |}
          else st
        (* Status column header row *)
        else if isStatusColumnHeader parsed then
          if negb (truthy (ParsedSection.statusCol1Header c))
          then withCurrent st
                 {| ParsedSection.title := ParsedSection.title c;
                    ParsedSection.pruefidentifikator := ParsedSection.pruefidentifikator c;
                    ParsedSection.kommunikationVon := ParsedSection.kommunikationVon c;
                    ParsedSection.statusCol1Header := trim (ParsedRow.statusCol1 parsed);
                    ParsedSection.statusCol2Header := trim (ParsedRow.statusCol2 parsed);
                    ParsedSection.pageStart := ParsedSection.pageStart c;
                    ParsedSection.rows := ParsedSection.rows c |}
          else st
        (* Data row with EDIFACT content *)
        else if isDataRow parsed then pushRow st (dataRowOf parsed)
        else
          match lastRow st with
          | Some i =>
              (* Continuation of previous row (multi-line cell content) *)
              if isContinuationRow parsed
              then {| sections := sections st; current := current st;
                      rows := updateAt i (continueRow parsed) (rows st);
                      lastRow := lastRow st; pendingTitle := pendingTitle st |}
              else if isSectionLabel parsed
              then withPendingTitle (pushRow st (labelRowOf parsed))
                     (ParsedRow.beschreibung parsed)
              else st
          | None =>
              (* Sub-section label *)
              if isSectionLabel parsed
              then withPendingTitle (pushRow st (labelRowOf parsed))
                     (ParsedRow.beschreibung parsed)
              else st
          end
    | None =>
        (* Before first section: capture text as potential section title *)
        if truthy (ParsedRow.beschreibung parsed)
           && negb (truthy (ParsedRow.segmentGroup parsed))
        then withPendingTitle st (ParsedRow.beschreibung parsed)
        else st
    end.

(** The body of [for (const { pageNum, items } of allPages)]. *)
Definition buildPage (st : Builder) (page : Page.t rt) : Builder :=
  let contentItems :=
    filter (fun item => num_lt rt (Item.y item) HEADER_Y_MIN
                        && num_lt rt FOOTER_Y_MAX (Item.y item))
      (Page.items page) in
  if length contentItems =? 0 then st
  else
    let pageRows := groupIntoRows contentItems in
    fold_left (fun st rowItems => classifyRow (Page.pageNum page) st (parseRow rowItems))
      pageRows st.

Definition buildSections (allPages : list (Page.t rt)) : list ParsedSection.t :=
  let st :=
    fold_left buildPage allPages
      {| sections := []; current := None; rows := []; lastRow := None;
         pendingTitle := [] |} in
  (* Finalize last section *)
  sections (finalizeSection st).

End WithRuntime.

End Parser.

(* ================================================================== *)
(** * Sample data *)
(* ================================================================== *)

Module Sample.
Import JS.

Definition row (id rowOrder : Z) (sg sc de beschr s1 s2 bed : string)
    (isLabel : bool) : DbRow.t :=
  {| DbRow.id := id; DbRow.rowOrder := rowOrder;
     DbRow.segmentGroup := lit sg; DbRow.segmentCode := lit sc;
     DbRow.dataElement := lit de; DbRow.beschreibung := lit beschr;
     DbRow.statusCol1 := lit s1; DbRow.statusCol2 := lit s2;
     DbRow.bedingung := lit bed; DbRow.isLabel := isLabel |}.

Definition section (id sectionOrder : Z) (title pruef : string) : DbSection.t :=
  {| DbSection.id := id; DbSection.sectionOrder := sectionOrder;
     DbSection.title := lit title; DbSection.pruefidentifikator := lit pruef;
     DbSection.kommunikationVon := lit "LF an NB";
     DbSection.statusCol1Header := lit "Statusmeldung";
     DbSection.statusCol2Header := lit "Statusmeldung";
     DbSection.pageStart := 5 |}.

(** Two old and three new rows with the key [SG2|CTA|3139|IC]. *)
Definition old1 := row 1 0 "SG2" "CTA" "3139" "IC Informationskontakt" "X" "X" "" false.
Definition old2 := row 2 1 "SG2" "CTA" "3139" "IC Informationskontakt" "Muss" "" "" false.
Definition new1 := row 11 0 "SG2" "CTA" "3139" "IC  Informationskontakt" "X" "X" "" false.
Definition new2 := row 12 1 "SG2" "CTA" "3139" "IC Informationskontakt" "X" "" "" false.
Definition new3 := row 13 2 "SG2" "CTA" "3139" "IC Informationskontakt" "Kann" "" "" false.

Definition keyIC : str := lit "SG2|CTA|3139|IC".

(** The rows of the two scenarios of the specification, and a label whose
    text was extracted with spaces around its hyphen. *)
Definition contactOld := row 31 0 "SG2" "CTA" "3139" "" "Muss" "" "" false.
Definition contactNew := row 41 0 "SG2" "CTA" "3139" "" "X" "" "" false.
Definition labelOld := row 32 1 "" "" "" "Sendungsdaten" "" "" "" true.
Definition labelSpaced := row 33 2 "" "" "" "EBD - Cluster" "" "" "" true.

(** A section whose code set lost one code between the versions, next to a
    section that kept its codes.  Document 1 is the old one, document 2 the
    new one. *)
Definition oldWide := section 1 0 "Statusmeldung" "21025,21026,21027".
Definition oldKept := section 2 1 "Bestellung" "21000".
Definition newNarrow := section 3 0 "Statusmeldung" "21025,21027".
Definition newKept := section 4 1 "Bestellung" "21000".

Definition overlapDb : Database :=
  {| getSections := fun docId =>
       if Z.eqb docId 1 then [oldWide; oldKept]
       else if Z.eqb docId 2 then [newNarrow; newKept] else [];
     getRows := fun sectionId =>
       if Z.eqb sectionId 1 then [old1; old2]
       else if Z.eqb sectionId 2 then [old1]
       else if Z.eqb sectionId 3 then [new1; new2; new3]
       else if Z.eqb sectionId 4 then [new1] else [] |}.

(** A runtime to run the parser with: whole-number coordinates, and
    [toLowerCase] on the letters A-Z and on the capital umlauts. *)
Definition lowerChar (c : char) : char :=
  if isupper c || N.eqb c 196 || N.eqb c 214 || N.eqb c 220
  then (c + 32)%N else c.

Definition runtime : Runtime :=
  {| num := Z; num_of_Z := fun z => z; num_lt := Z.ltb; num_sub := Z.sub;
     num_abs := Z.abs; num_truthy := fun z => negb (Z.eqb z 0);
     toLowerCase := map lowerChar |}.

Definition item (text : str) (x y : Z) : Item.t runtime :=
  Item.Build_t runtime text x y.

(** ['Prüfidentifikator'] *)
Definition Pruefidentifikator : str := lit "Pr" ++ [252%N] ++ lit "fidentifikator".

(** A page with a title line, a section header, a data row and a second
    line of its condition text, given out of order. *)
Definition page1 : Page.t runtime :=
  Page.Build_t runtime 1
       [ item (lit "[911] Format:") 440 660;
         item (lit "21000") 310 680;
         item (lit "SG2") 50 660;
         item (lit "Statusmeldung") 200 700;
         item (lit "CTA") 90 660;
         item Pruefidentifikator 200 680;
         item (lit "3139") 120 660;
         item (lit "Moegliche Werte") 440 648;
         item (lit "IC Informationskontakt") 200 661;
         item (lit "X") 310 660;
         item (lit "Seite 1") 500 20 ].

(** A section header, and a data row that names the marker word as a field
    label. *)
Definition headerRow : ParsedRow.t runtime :=
  ParsedRow.Build_t runtime [] [] [] Pruefidentifikator
    (lit " 21000 ") (lit "21001  21002") [] 680%Z.

Definition fieldRow : ParsedRow.t runtime :=
  ParsedRow.Build_t runtime (lit "SG4") (lit "RFF") (lit "1153")
    (lit "Z13 " ++ Pruefidentifikator) (lit "X") (lit "Muss") [] 500%Z.

(** A row with status text only. *)
Definition statusOnly : ParsedRow.t runtime :=
  ParsedRow.Build_t runtime [] [] [] [] (lit "[911]") [] [] 590%Z.

(** A row with a description only, and the state right behind a section
    header: a section is open and has no row yet. *)
Definition descriptionOnly : ParsedRow.t runtime :=
  ParsedRow.Build_t runtime [] [] [] (lit "Sendungsdaten") [] [] [] 600%Z.

Definition sectionOpened : Parser.Builder :=
  {| Parser.sections := [];
     Parser.current :=
       Some {| ParsedSection.title := lit "Statusmeldung";
               ParsedSection.pruefidentifikator := [lit "21000"];
               ParsedSection.kommunikationVon := [];
               ParsedSection.statusCol1Header := [];
               ParsedSection.statusCol2Header := [];
               ParsedSection.pageStart := 1;
               ParsedSection.rows := [] |};
     Parser.rows := []; Parser.lastRow := None; Parser.pendingTitle := [] |}.

(** A document in which the section of code 21000 is opened a second time
    behind the section of code 21001, and a copy of it. *)
Definition repeatedDb : Database :=
  {| getSections := fun docId =>
       if Z.eqb docId 1
       then [section 1 0 "A" "21000"; section 2 1 "B" "21001";
             section 3 2 "A" "21000"]
       else if Z.eqb docId 2
       then [section 4 0 "A" "21000"; section 5 1 "B" "21001";
             section 6 2 "A" "21000"]
       else [];
     getRows := fun sectionId =>
       if Z.eqb sectionId 1 then [old1; old2]
       else if Z.eqb sectionId 4
       then [row 21 0 "SG2" "CTA" "3139" "IC Informationskontakt" "X" "X" "" false;
             row 22 1 "SG2" "CTA" "3139" "IC Informationskontakt" "Muss" "" "" false]
       else [] |}.

End Sample.

(* ================================================================== *)
(** * Auxiliary notions for the statements and proofs *)
(* ================================================================== *)

Module Aux.
Import JS.

(** [wsrem s s']: [s'] is [s] with some white-space code units deleted. *)
Inductive wsrem : str -> str -> Prop :=
| wsrem_nil : wsrem [] []
| wsrem_keep c s s' : wsrem s s' -> wsrem (c :: s) (c :: s')
| wsrem_drop c s s' : isws c = true -> wsrem s s' -> wsrem (c :: s) s'.

(** A matcher always consumes something. *)
Definition shrinks (m : matcher) : Prop :=
  forall s r rest, m s = Some (r, rest) -> length rest < length s.

(** A class that accepts no white space. *)
Definition ws_free (p : char -> bool) : Prop :=
  forall c, p c = true -> isws c = false.

Definition good (P : pattern) : Prop :=
  Forall ws_free (classes P) /\ classes P <> [].

(** Dropping white space at the end. *)
Definition drop_ws_end (s : str) : str := rev (drop_ws (rev s)).

Definition nonws (c : char) : Prop := isws c = false.

(** A replacement that puts back the code units its pattern kept. *)
Definition squeeze (P : pattern) : str -> str := gsub (rx P (fun k => k)).

(** [s.replace(/ {2,}/g, ' ')] *)
Definition collapse : str -> str := gsub (Normalize.spaces2 [Normalize.space]).

(** [normalizeForComparison] behind its guard, every pattern putting back
    what it kept. *)
Definition pipeline (s : str) : str :=
  trim (collapse
    (squeeze Normalize.lone_slash (squeeze Normalize.slash_hyphen
      (squeeze Normalize.hyphen_slash (squeeze Normalize.word_hyphen_word
        (gsub (one_of Normalize.dash_variant [Normalize.hyphen])
          (gsub (one_of Normalize.space_variant [Normalize.space])
            (gsub (one_of Normalize.control [])
               (gsub (one_of Normalize.zero_width []) s))))))))).

(** The loop bodies of [buildRowMap] and [buildPruefMap]. *)
Definition rowMapStep (norm : str -> str) (map : JSMap.t (list DbRow.t))
    (row : DbRow.t) : JSMap.t (list DbRow.t) :=
  let key := Comparator.rowKey norm row in
  let map := if negb (JSMap.has key map) then JSMap.set key [] map else map in
  match JSMap.get key map with
  | Some l => JSMap.set key (l ++ [row]) map
  | None => map
  end.

Definition pruefMapStep (map : JSMap.t DbSection.t) (section : DbSection.t)
    : JSMap.t DbSection.t :=
  let key := DbSection.pruefidentifikator section in
  if negb (JSMap.has key map) then JSMap.set key section map else map.

(** A code unit none of the first four replacements of
    [normalizeForComparison] touches. *)
Definition clean_char (c : char) : Prop :=
  Normalize.zero_width c = false /\ Normalize.control c = false /\
  Normalize.space_variant c = false /\ Normalize.dash_variant c = false.

(** The first code unit is not a plain space. *)
Definition no_space_head (s : str) : Prop :=
  match s with c :: _ => c <> 32%N | [] => True end.

(** No two adjacent plain spaces. *)
Definition nodouble (s : str) : Prop :=
  forall pre post, s <> pre ++ 32%N :: 32%N :: post.

(** ** The row matching seen as slots

    One pass of the inner loop of [compareRows] looks at the rows at one
    index of the two lists that share a key: a slot. *)
Inductive Slot :=
| Both (r1 r2 : DbRow.t)
| OldOnly (r1 : DbRow.t)
| NewOnly (r2 : DbRow.t).

Definition slotOld (sl : Slot) : list DbRow.t :=
  match sl with Both r1 _ | OldOnly r1 => [r1] | NewOnly _ => [] end.

Definition slotNew (sl : Slot) : list DbRow.t :=
  match sl with Both _ r2 | NewOnly r2 => [r2] | OldOnly _ => [] end.

(** Index [i] of the one list with index [i] of the other. *)
Fixpoint zipSlots (list1 list2 : list DbRow.t) : list Slot :=
  match list1 with
  | [] => map NewOnly list2
  | r1 :: list1' =>
      match list2 with
      | [] => OldOnly r1 :: zipSlots list1' []
      | r2 :: list2' => Both r1 r2 :: zipSlots list1' list2'
      end
  end.

(** The slot at an index, from the two array reads of the loop body. *)
Definition slotAt (r1 r2 : option DbRow.t) : option Slot :=
  match r1, r2 with
  | Some r1, Some r2 => Some (Both r1 r2)
  | Some r1, None => Some (OldOnly r1)
  | None, Some r2 => Some (NewOnly r2)
  | None, None => None
  end.

(** The old rows a row diff shows. *)
Definition diffOldRows (d : Comparator.RowDiff) : list DbRow.t :=
  match d with
  | Comparator.RowRemoved _ r | Comparator.RowUnchanged _ r => [r]
  | Comparator.RowModified _ r1 _ _ => [r1]
  | Comparator.RowAdded _ _ => []
  end.

Definition rowDiffKey (d : Comparator.RowDiff) : option str :=
  match d with
  | Comparator.RowAdded k _ | Comparator.RowRemoved k _ => k
  | Comparator.RowModified k _ _ _ | Comparator.RowUnchanged k _ => Some k
  end.

Definition hasKey (k : str) (d : Comparator.RowDiff) : bool :=
  match rowDiffKey d with Some k' => eqb k' k | None => false end.

Section WithNormalization.
Variable norm : str -> str.

(** The row diff the loop body pushes for a slot. *)
Definition slotDiff (key : str) (sl : Slot) : Comparator.RowDiff :=
  match sl with
  | Both r1 r2 =>
      match Comparator.diffRowFields norm r1 r2 with
      | [] => Comparator.RowUnchanged key r1
      | changes => Comparator.RowModified key r1 r2 changes
      end
  | OldOnly r1 => Comparator.RowRemoved (Some key) r1
  | NewOnly r2 => Comparator.RowAdded (Some key) r2
  end.

Definition rowsWithKey (key : str) (rows : list DbRow.t) : list DbRow.t :=
  filter (fun r => eqb (Comparator.rowKey norm r) key) rows.

(** The keys [compareRows] iterates over, in its order. *)
Definition rowKeys (rows1 rows2 : list DbRow.t) : list str :=
  JSSet.of_list (JSMap.keys (Comparator.buildRowMap norm rows1)
                 ++ JSMap.keys (Comparator.buildRowMap norm rows2)).

(** All slots of a comparison, each with its key. *)
Definition rowSlots (rows1 rows2 : list DbRow.t) : list (str * Slot) :=
  flat_map
    (fun key => map (pair key)
                  (zipSlots (rowsWithKey key rows1) (rowsWithKey key rows2)))
    (rowKeys rows1 rows2).

(** The six compared fields agree. *)
Definition sameFields (r1 r2 : DbRow.t) : Prop :=
  norm (trim (DbRow.beschreibung r1)) = norm (trim (DbRow.beschreibung r2)) /\
  norm (trim (DbRow.statusCol1 r1)) = norm (trim (DbRow.statusCol1 r2)) /\
  norm (trim (DbRow.statusCol2 r1)) = norm (trim (DbRow.statusCol2 r2)) /\
  norm (trim (DbRow.bedingung r1)) = norm (trim (DbRow.bedingung r2)) /\
  norm (DbRow.segmentGroup r1) = norm (DbRow.segmentGroup r2) /\
  norm (DbRow.segmentCode r1) = norm (DbRow.segmentCode r2).

End WithNormalization.

(** ** Copies of a document

    A copy stored under another document id has other section and row ids
    and the same content. *)
Definition sameRow (r1 r2 : DbRow.t) : Prop :=
  DbRow.rowOrder r1 = DbRow.rowOrder r2 /\
  DbRow.segmentGroup r1 = DbRow.segmentGroup r2 /\
  DbRow.segmentCode r1 = DbRow.segmentCode r2 /\
  DbRow.dataElement r1 = DbRow.dataElement r2 /\
  DbRow.beschreibung r1 = DbRow.beschreibung r2 /\
  DbRow.statusCol1 r1 = DbRow.statusCol1 r2 /\
  DbRow.statusCol2 r1 = DbRow.statusCol2 r2 /\
  DbRow.bedingung r1 = DbRow.bedingung r2 /\
  DbRow.isLabel r1 = DbRow.isLabel r2.

Definition sameSection (db : Database) (s1 s2 : DbSection.t) : Prop :=
  DbSection.title s1 = DbSection.title s2 /\
  DbSection.pruefidentifikator s1 = DbSection.pruefidentifikator s2 /\
  DbSection.kommunikationVon s1 = DbSection.kommunikationVon s2 /\
  DbSection.statusCol1Header s1 = DbSection.statusCol1Header s2 /\
  DbSection.statusCol2Header s1 = DbSection.statusCol2Header s2 /\
  Forall2 sameRow (getRows db (DbSection.id s1)) (getRows db (DbSection.id s2)).

Definition copyOf (db : Database) (docId1 docId2 : Z) : Prop :=
  Forall2 (sameSection db) (getSections db docId1) (getSections db docId2).

Definition sectionKeys (db : Database) (docId : Z) : list str :=
  map DbSection.pruefidentifikator (getSections db docId).

Definition allUnchanged (d : Comparator.SectionDiff) : Prop :=
  Comparator.sectionDiffType d = Comparator.Unchanged /\
  Forall (fun rd => Comparator.rowDiffType rd = Comparator.Unchanged)
    (Comparator.sectionDiffRows d).

(** ** The section matching seen per key *)

Definition findSection (key : str) (sections : list DbSection.t)
    : option DbSection.t :=
  find (fun s => eqb (DbSection.pruefidentifikator s) key) sections.

(** The keys [compareDocuments] iterates over, in its order. *)
Definition docKeys (db : Database) (docId1 docId2 : Z) : list str :=
  JSSet.of_list
    (JSMap.keys (Comparator.buildPruefMap (getSections db docId1))
     ++ JSMap.keys (Comparator.buildPruefMap (getSections db docId2))).

Definition bump (t : Comparator.DiffType) (s : Comparator.Summary)
    : Comparator.Summary :=
  match t with
  | Comparator.Added =>
      {| Comparator.added := S (Comparator.added s);
         Comparator.removed := Comparator.removed s;
         Comparator.modified := Comparator.modified s;
         Comparator.unchanged := Comparator.unchanged s |}
  | Comparator.Removed =>
      {| Comparator.added := Comparator.added s;
         Comparator.removed := S (Comparator.removed s);
         Comparator.modified := Comparator.modified s;
         Comparator.unchanged := Comparator.unchanged s |}
  | Comparator.Modified =>
      {| Comparator.added := Comparator.added s;
         Comparator.removed := Comparator.removed s;
         Comparator.modified := S (Comparator.modified s);
         Comparator.unchanged := Comparator.unchanged s |}
  | Comparator.Unchanged =>
      {| Comparator.added := Comparator.added s;
         Comparator.removed := Comparator.removed s;
         Comparator.modified := Comparator.modified s;
         Comparator.unchanged := S (Comparator.unchanged s) |}
  end.

(** The counters after the given diffs have been pushed. *)
Definition countInto (s : Comparator.Summary) (ds : list Comparator.SectionDiff)
    : Comparator.Summary :=
  fold_left (fun s d => bump (Comparator.sectionDiffType d) s) ds s.

Definition noSummary : Comparator.Summary :=
  {| Comparator.added := 0; Comparator.removed := 0;
     Comparator.modified := 0; Comparator.unchanged := 0 |}.

Definition changed (d : Comparator.RowDiff) : bool :=
  match Comparator.rowDiffType d with
  | Comparator.Unchanged => false
  | _ => true
  end.

(** The section diff the loop body pushes for a key. *)
Definition sectionEntry (norm : str -> str) (db : Database)
    (sections1 sections2 : list DbSection.t) (key : str)
    (d : Comparator.SectionDiff) : Prop :=
  match findSection key sections1, findSection key sections2 with
  | None, None => False
  | None, Some s2 =>
      d = Comparator.SectionAdded key s2
            (map (fun r => Comparator.RowAdded None r)
               (getRows db (DbSection.id s2)))
  | Some s1, None =>
      d = Comparator.SectionRemoved key s1
            (map (fun r => Comparator.RowRemoved None r)
               (getRows db (DbSection.id s1)))
  | Some s1, Some s2 =>
      let rowDiffs :=
        map (fun ks => slotDiff norm (fst ks) (snd ks))
          (rowSlots norm (getRows db (DbSection.id s1))
             (getRows db (DbSection.id s2))) in
      let isChanged :=
        existsb changed rowDiffs || Comparator.checkMetaChanges norm s1 s2 in
      d = Comparator.SectionMatched
            (if isChanged then Comparator.Modified else Comparator.Unchanged)
            key s1 s2
            (if Comparator.checkMetaChanges norm s1 s2
             then Comparator.getMetaChanges norm s1 s2 else [])
            rowDiffs
  end.

(** ** The compound key in the words of the specification *)

(** The code units up to the first white space. *)
Fixpoint upToWs (s : str) : str :=
  match s with
  | c :: t => if isws c then [] else c :: upToWs t
  | [] => []
  end.

(** The first white-space-delimited token. *)
Definition firstToken (s : str) : str := upToWs (drop_ws s).

(** An all-caps, digit or underscore token of length 1 to 10. *)
Definition CodeToken (t : str) : Prop :=
  1 <= length t <= 10 /\
  Forall (fun c => (65 <= c <= 90 \/ 48 <= c <= 57 \/ c = 95)%N) t.

(** The parts with ["|"] between them. *)
Definition barJoined (parts : list str) : str :=
  match parts with
  | [] => []
  | p :: rest => p ++ flat_map (fun q => 124%N :: q) rest
  end.

Definition nonEmpty (values : list str) : list str :=
  filter (fun v => negb (eqb v [])) values.

Inductive KeyOf (normalize : str -> str) (row : DbRow.t) : str -> Prop :=
| key_label :
    DbRow.isLabel row = true ->
    KeyOf normalize row (lit "LABEL:" ++ normalize (DbRow.beschreibung row))
| key_position :
    DbRow.isLabel row = false ->
    normalize (DbRow.segmentGroup row) = [] ->
    normalize (DbRow.segmentCode row) = [] ->
    normalize (DbRow.dataElement row) = [] ->
    KeyOf normalize row (lit "POS:" ++ of_int (DbRow.rowOrder row))
| key_structure_and_code :
    DbRow.isLabel row = false ->
    ~ (normalize (DbRow.segmentGroup row) = [] /\
       normalize (DbRow.segmentCode row) = [] /\
       normalize (DbRow.dataElement row) = []) ->
    normalize (DbRow.dataElement row) <> [] ->
    CodeToken (firstToken (normalize (DbRow.beschreibung row))) ->
    KeyOf normalize row
      (barJoined
         (nonEmpty [normalize (DbRow.segmentGroup row);
                    normalize (DbRow.segmentCode row);
                    normalize (DbRow.dataElement row)]
          ++ [firstToken (normalize (DbRow.beschreibung row))]))
| key_structure :
    DbRow.isLabel row = false ->
    ~ (normalize (DbRow.segmentGroup row) = [] /\
       normalize (DbRow.segmentCode row) = [] /\
       normalize (DbRow.dataElement row) = []) ->
    ~ (normalize (DbRow.dataElement row) <> [] /\
       CodeToken (firstToken (normalize (DbRow.beschreibung row)))) ->
    KeyOf normalize row
      (barJoined
         (nonEmpty [normalize (DbRow.segmentGroup row);
                    normalize (DbRow.segmentCode row);
                    normalize (DbRow.dataElement row)])).

(** ** The shape of the numeric codes of a section header *)

Definition Digit (c : char) : Prop := (48 <= c <= 57)%N.

(** Exactly five digits. *)
Definition FiveDigits (s : str) : Prop := length s = 5 /\ Forall Digit s.

(** Two five-digit codes with white space between them. *)
Definition TwoCodes (s : str) : Prop :=
  exists a w b,
    s = a ++ w ++ b /\ FiveDigits a /\ w <> [] /\
    Forall (fun c => isws c = true) w /\ FiveDigits b.

(** A status field, trimmed, has the shape of a numeric code. *)
Definition NumericCode (field : str) : Prop :=
  FiveDigits (trim field) \/ TwoCodes (trim field).

End Aux.

(* ================================================================== *)
(** * More of the sources: text clean-up of the parser, the command line *)
(* ================================================================== *)

(** [normalizeWhitespace] of [parser.mjs]. *)
Module ParserText.
Import JS.

(** [/\s+/g]: a run of white space. *)
Definition ws_run (r : str) : matcher :=
  fun s => match s with
           | c :: t => if isws c then Some (r, drop_ws t) else None
           | [] => None
           end.

Definition normalizeWhitespace (text : str) : str :=
  trim (gsub (ws_run (lit " ")) text).

End ParserText.

(** [getArg] and the row statistics of [index.mjs]. *)
Module Cli.
Import JS.

(** [Array.prototype.indexOf], counting from [i]. *)
Fixpoint indexOfFrom (x : str) (l : list str) (i : Z) : Z :=
  match l with
  | [] => (-1)%Z
  | a :: rest => if eqb a x then i else indexOfFrom x rest (i + 1)%Z
  end.

Definition indexOf (l : list str) (x : str) : Z := indexOfFrom x l 0%Z.

(** [null] is [None]. *)
Definition getArg (args : list str) (flag : str) : option str :=
  let idx := indexOf args flag in
  if negb (Z.eqb idx (-1)) && Z.ltb (idx + 1) (Z.of_nat (length args))
  then nth_error args (Z.to_nat (idx + 1))
  else None.

(** [getArg(args, '--output') || 'report.html'] and
    [getArg(args, '--db') || 'compare.sqlite'] *)
Definition orDefault (v : option str) (d : str) : str :=
  match v with
  | Some v => if truthy v then v else d
  | None => d
  end.

Definition outputPath (args : list str) : str :=
  orDefault (getArg args (lit "--output")) (lit "report.html").

Definition dbPath (args : list str) : str :=
  orDefault (getArg args (lit "--db")) (lit "compare.sqlite").

(** The row counters of [main]:
    [rowStats[rd.type] = (rowStats[rd.type] || 0) + 1] over all row diffs
    of all section diffs. *)
Definition countRow (stats : Comparator.Summary) (rd : Comparator.RowDiff)
    : Comparator.Summary :=
  match Comparator.rowDiffType rd with
  | Comparator.Added =>
      {| Comparator.added := Comparator.added stats + 1;
         Comparator.removed := Comparator.removed stats;
         Comparator.modified := Comparator.modified stats;
         Comparator.unchanged := Comparator.unchanged stats |}
  | Comparator.Removed =>
      {| Comparator.added := Comparator.added stats;
         Comparator.removed := Comparator.removed stats + 1;
         Comparator.modified := Comparator.modified stats;
         Comparator.unchanged := Comparator.unchanged stats |}
  | Comparator.Modified =>
      {| Comparator.added := Comparator.added stats;
         Comparator.removed := Comparator.removed stats;
         Comparator.modified := Comparator.modified stats + 1;
         Comparator.unchanged := Comparator.unchanged stats |}
  | Comparator.Unchanged =>
      {| Comparator.added := Comparator.added stats;
         Comparator.removed := Comparator.removed stats;
         Comparator.modified := Comparator.modified stats;
         Comparator.unchanged := Comparator.unchanged stats + 1 |}
  end.

Definition rowStats (sectionDiffs : list Comparator.SectionDiff)
    : Comparator.Summary :=
  fold_left
    (fun stats sd => fold_left countRow (Comparator.sectionDiffRows sd) stats)
    sectionDiffs
    {| Comparator.added := 0; Comparator.removed := 0;
       Comparator.modified := 0; Comparator.unchanged := 0 |}.

End Cli.

(* ================================================================== *)
(** * More notions for the statements *)
(* ================================================================== *)

Module Notions.
Import JS Aux.

(** A field change read the other way round. *)
Definition swapChange (c : Comparator.FieldChange) : Comparator.FieldChange :=
  {| Comparator.field := Comparator.field c;
     Comparator.old := Comparator.new c;
     Comparator.new := Comparator.old c |}.

(** The names [diffRowFields] reports, in its order. *)
Definition rowFieldNames : list str :=
  [lit "beschreibung"; lit "statusCol1"; lit "statusCol2"; lit "bedingung";
   lit "segmentGroup"; lit "segmentCode"].

Definition metaFieldNames : list str :=
  [lit "title"; lit "kommunikationVon"; lit "statusCol1Header";
   lit "statusCol2Header"].

(** A row diff names the key of the rows it holds. *)
Definition keyOfItsRows (norm : str -> str) (d : Comparator.RowDiff) : Prop :=
  match d with
  | Comparator.RowAdded k r | Comparator.RowRemoved k r =>
      k = Some (Comparator.rowKey norm r)
  | Comparator.RowModified k r1 r2 _ =>
      Comparator.rowKey norm r1 = k /\ Comparator.rowKey norm r2 = k
  | Comparator.RowUnchanged k r => Comparator.rowKey norm r = k
  end.

Definition typeIs (t : Comparator.DiffType) (d : Comparator.SectionDiff) : bool :=
  match t, Comparator.sectionDiffType d with
  | Comparator.Added, Comparator.Added
  | Comparator.Removed, Comparator.Removed
  | Comparator.Modified, Comparator.Modified
  | Comparator.Unchanged, Comparator.Unchanged => true
  | _, _ => false
  end.

(** Modified before added before removed before unchanged. *)
Definition byRank (a b : Comparator.SectionDiff) : Prop :=
  Comparator.order (Comparator.sectionDiffType a)
  <= Comparator.order (Comparator.sectionDiffType b).

Definition swapSummary (s : Comparator.Summary) : Comparator.Summary :=
  {| Comparator.added := Comparator.removed s;
     Comparator.removed := Comparator.added s;
     Comparator.modified := Comparator.modified s;
     Comparator.unchanged := Comparator.unchanged s |}.

(** The six changes [diffRowFields] can report for two rows: the free-text
    fields with their trimmed values, the structural fields as they are. *)
Definition rowFieldCandidates (r1 r2 : DbRow.t) : list Comparator.FieldChange :=
  [ {| Comparator.field := lit "beschreibung";
       Comparator.old := trim (DbRow.beschreibung r1);
       Comparator.new := trim (DbRow.beschreibung r2) |};
    {| Comparator.field := lit "statusCol1";
       Comparator.old := trim (DbRow.statusCol1 r1);
       Comparator.new := trim (DbRow.statusCol1 r2) |};
    {| Comparator.field := lit "statusCol2";
       Comparator.old := trim (DbRow.statusCol2 r1);
       Comparator.new := trim (DbRow.statusCol2 r2) |};
    {| Comparator.field := lit "bedingung";
       Comparator.old := trim (DbRow.bedingung r1);
       Comparator.new := trim (DbRow.bedingung r2) |};
    {| Comparator.field := lit "segmentGroup";
       Comparator.old := DbRow.segmentGroup r1;
       Comparator.new := DbRow.segmentGroup r2 |};
    {| Comparator.field := lit "segmentCode";
       Comparator.old := DbRow.segmentCode r1;
       Comparator.new := DbRow.segmentCode r2 |} ].

Definition metaFieldCandidates (s1 s2 : DbSection.t) : list Comparator.FieldChange :=
  [ {| Comparator.field := lit "title";
       Comparator.old := DbSection.title s1;
       Comparator.new := DbSection.title s2 |};
    {| Comparator.field := lit "kommunikationVon";
       Comparator.old := DbSection.kommunikationVon s1;
       Comparator.new := DbSection.kommunikationVon s2 |};
    {| Comparator.field := lit "statusCol1Header";
       Comparator.old := DbSection.statusCol1Header s1;
       Comparator.new := DbSection.statusCol1Header s2 |};
    {| Comparator.field := lit "statusCol2Header";
       Comparator.old := DbSection.statusCol2Header s1;
       Comparator.new := DbSection.statusCol2Header s2 |} ].

(** A change of two values that still differ once normalised. *)
Definition realChange (norm : str -> str) (c : Comparator.FieldChange) : Prop :=
  norm (Comparator.old c) <> norm (Comparator.new c).

(** What a section diff of a comparison says about the two documents. *)
Definition soundDiff (norm : str -> str) (db : Database) (docId1 docId2 : Z)
    (d : Comparator.SectionDiff) : Prop :=
  match d with
  | Comparator.SectionAdded k s rows =>
      findSection k (getSections db docId1) = None /\
      findSection k (getSections db docId2) = Some s /\
      rows = map (fun r => Comparator.RowAdded None r) (getRows db (DbSection.id s))
  | Comparator.SectionRemoved k s rows =>
      findSection k (getSections db docId1) = Some s /\
      findSection k (getSections db docId2) = None /\
      rows = map (fun r => Comparator.RowRemoved None r) (getRows db (DbSection.id s))
  | Comparator.SectionMatched t k so sn mc rows =>
      findSection k (getSections db docId1) = Some so /\
      findSection k (getSections db docId2) = Some sn /\
      Comparator.compareRows norm (getRows db (DbSection.id so))
        (getRows db (DbSection.id sn)) = Some rows /\
      mc = Comparator.getMetaChanges norm so sn /\
      ((t = Comparator.Unchanged /\ mc = [] /\
        Forall (fun rd => Comparator.rowDiffType rd = Comparator.Unchanged) rows)
       \/
       (t = Comparator.Modified /\
        (mc <> [] \/
         Exists (fun rd => Comparator.rowDiffType rd <> Comparator.Unchanged) rows)))
  end.

(** The type of the section diff of a key, from the first sections of the
    key in the two section lists. *)
Definition keyType (norm : str -> str) (db : Database)
    (sections1 sections2 : list DbSection.t) (key : str)
    : option Comparator.DiffType :=
  match findSection key sections1, findSection key sections2 with
  | None, None => None
  | None, Some _ => Some Comparator.Added
  | Some _, None => Some Comparator.Removed
  | Some s1, Some s2 =>
      if existsb changed
           (map (fun ks => slotDiff norm (fst ks) (snd ks))
              (rowSlots norm (getRows db (DbSection.id s1))
                 (getRows db (DbSection.id s2))))
         || Comparator.checkMetaChanges norm s1 s2
      then Some Comparator.Modified else Some Comparator.Unchanged
  end.

Definition sameType (a b : Comparator.DiffType) : bool :=
  match a, b with
  | Comparator.Added, Comparator.Added
  | Comparator.Removed, Comparator.Removed
  | Comparator.Modified, Comparator.Modified
  | Comparator.Unchanged, Comparator.Unchanged => true
  | _, _ => false
  end.

Definition hasType (t : Comparator.DiffType) (o : option Comparator.DiffType)
    : bool :=
  match o with Some t' => sameType t t' | None => false end.

Definition swapType (t : Comparator.DiffType) : Comparator.DiffType :=
  match t with
  | Comparator.Added => Comparator.Removed
  | Comparator.Removed => Comparator.Added
  | t => t
  end.

(** A slot seen from the other side. *)
Definition mirror (sl : Slot) : Slot :=
  match sl with
  | Both r1 r2 => Both r2 r1
  | OldOnly r => NewOnly r
  | NewOnly r => OldOnly r
  end.

(** Some row of the key is not reported 'unchanged'. *)
Definition keyChanged (norm : str -> str) (rows1 rows2 : list DbRow.t)
    (k : str) : bool :=
  existsb changed
    (map (slotDiff norm k)
       (zipSlots (rowsWithKey norm k rows1) (rowsWithKey norm k rows2))).

(** ** Text *)

(** The code units [normalizeForComparison] deletes. *)
Definition invisible (c : char) : bool :=
  Normalize.zero_width c || Normalize.control c.

(** The space variants as a plain space, then the dash variants as a
    hyphen. *)
Definition unify (c : char) : char :=
  let c := if Normalize.space_variant c then Normalize.space else c in
  if Normalize.dash_variant c then Normalize.hyphen else c.

(** What is to be seen of a text: no invisible code unit, no white space,
    one kind of dash. *)
Definition visibleText (s : str) : str :=
  filter (fun c => negb (isws c))
    (map unify (filter (fun c => negb (invisible c)) s)).

(** No white space right before or right behind the code unit [x]. *)
Fixpoint tight (x : char) (s : str) : bool :=
  match s with
  | a :: t =>
      match t with
      | b :: _ => negb (isws a && N.eqb b x) && negb (N.eqb a x && isws b)
      | [] => true
      end && tight x t
  | [] => true
  end.

(** White space is a plain space. *)
Definition plainSpaced (c : char) : Prop := isws c = true -> c = 32%N.

(** ** Rows *)

Definition rowTypeIs (t : Comparator.DiffType) (rd : Comparator.RowDiff) : bool :=
  sameType t (Comparator.rowDiffType rd).

(** ** Lines of a page *)

Section WithRuntime.
Variable rt : Runtime.

(** [Math.abs(item.y - y) > ROW_Y_THRESHOLD] *)
Definition farFrom (y : num rt) (item : Item.t rt) : bool :=
  num_lt rt (Parser.ROW_Y_THRESHOLD rt) (num_abs rt (num_sub rt (Item.y item) y)).

(** Groups of items, each within the threshold of the [y] of its first
    item, each first item beyond the threshold of the [y] of the first item
    of the group before; [prev] is that [y] for the first group. *)
Fixpoint lines (prev : option (num rt)) (groups : list (list (Item.t rt))) : Prop :=
  match groups with
  | [] => True
  | g :: rest =>
      match g with
      | [] => False
      | first :: others =>
          match prev with
          | Some y => farFrom y first = true
          | None => True
          end /\
          Forall (fun item => farFrom (Item.y first) item = false) others /\
          lines (Some (Item.y first)) rest
      end
  end.

(** What the loop of [groupIntoRows] keeps true. *)
Definition grouped (rows : list (list (Item.t rt))) (currentRow : list (Item.t rt))
    (currentY : option (num rt)) : Prop :=
  match currentRow with
  | [] => rows = [] /\ currentY = None
  | first :: _ =>
      currentY = Some (Item.y first) /\ lines None (rows ++ [currentRow])
  end.

(** The column an item falls into. *)
Definition inColumn (c : Parser.Column) (item : Item.t rt) : bool :=
  match Parser.classifyColumn rt (Item.x item), c with
  | Parser.edifact, Parser.edifact
  | Parser.beschreibung, Parser.beschreibung
  | Parser.status1, Parser.status1
  | Parser.status2, Parser.status2
  | Parser.bedingung, Parser.bedingung => true
  | _, _ => false
  end.

Definition inEdifactSub (e : Parser.EdifactSub) (item : Item.t rt) : bool :=
  inColumn Parser.edifact item &&
  match Parser.classifyEdifactSub rt (Item.x item), e with
  | Parser.segmentGroup, Parser.segmentGroup
  | Parser.segmentCode, Parser.segmentCode
  | Parser.dataElement, Parser.dataElement => true
  | _, _ => false
  end.

(** The texts of the items a test selects, in their order. *)
Definition textsOf (p : Item.t rt -> bool) (items : list (Item.t rt)) : list str :=
  map Item.text (filter p items).

(** ** The rows of a document *)

(** The rows [buildSections] walks through, page by page, each with the
    number of its page. *)
Definition documentRows (allPages : list (Page.t rt)) : list (Z * ParsedRow.t rt) :=
  flat_map
    (fun page =>
       map (fun rowItems => (Page.pageNum page, Parser.parseRow rt rowItems))
         (Parser.groupIntoRows rt
            (filter (fun item =>
                       num_lt rt (Item.y item) (Parser.HEADER_Y_MIN rt)
                       && num_lt rt (Parser.FOOTER_Y_MAX rt) (Item.y item))
               (Page.items page))))
    allPages.

Definition run (rows : list (Z * ParsedRow.t rt)) (st : Parser.Builder)
    : Parser.Builder :=
  fold_left (fun st nr => Parser.classifyRow rt (fst nr) st (snd nr)) rows st.

(** A row that can open a section. *)
Definition opens (parsed : ParsedRow.t rt) : bool :=
  negb (Parser.isTableHeader rt parsed) && Parser.isPruefidentifikatorHeader rt parsed.

Definition rowOpens (nr : Z * ParsedRow.t rt) : bool := opens (snd nr).

End WithRuntime.

(** The fields and the [parts] arrays of [parseRow] hold the texts of these
    lists. *)
Definition holds (p : Parser.RowParts) (G C D B S1 S2 Bd : list str) : Prop :=
  (Parser.p_segmentGroup p = join (lit " ") G /\ Forall (fun t => t <> []) G) /\
  (Parser.p_segmentCode p = join (lit " ") C /\ Forall (fun t => t <> []) C) /\
  (Parser.p_dataElement p = join (lit " ") D /\ Forall (fun t => t <> []) D) /\
  Parser.p_beschreibung p = B /\ Parser.p_status1 p = S1 /\
  Parser.p_status2 p = S2 /\ Parser.p_bedingung p = Bd.

(** The cursors [buildSections] starts from. *)
Definition start : Parser.Builder :=
  {| Parser.sections := []; Parser.current := None; Parser.rows := [];
     Parser.lastRow := None; Parser.pendingTitle := [] |}.

(** [section.pruefidentifikator.join(',')] *)
Definition sectionKey (s : ParsedSection.t) : str :=
  join (lit ",") (ParsedSection.pruefidentifikator s).

(** The code lists of the sections closed so far and of the open one. *)
Definition openKeys (st : Parser.Builder) : list (list str) :=
  map ParsedSection.pruefidentifikator (Parser.sections (Parser.finalizeSection st)).

(** A row that opens a section in a given state: a header row whose codes
    are not those of the open section. *)
Definition opensAt (rt : Runtime) (st : Parser.Builder) (parsed : ParsedRow.t rt)
    : bool :=
  opens rt parsed &&
  match Parser.current st with
  | Some c =>
      negb (eqb (join (lit ",") (Parser.statusValues rt parsed)) (sectionKey c))
  | None => true
  end.

Fixpoint distinctNeighbours (l : list str) : Prop :=
  match l with
  | a :: t =>
      match t with b :: _ => a <> b | [] => True end /\ distinctNeighbours t
  | [] => True
  end.

(** Five digits, or two five-digit codes with white space between. *)
Definition codeLike (code : str) : bool :=
  Parser.fiveDigits code || Parser.twoCodes code.

(** The EDIFACT fields of a row are trimmed, and empty on a label row. *)
Definition tidy (r : Row.t) : Prop :=
  trim (Row.segmentGroup r) = Row.segmentGroup r /\
  trim (Row.segmentCode r) = Row.segmentCode r /\
  trim (Row.dataElement r) = Row.dataElement r /\
  (Row.isLabel r = true ->
   Row.segmentGroup r = [] /\ Row.segmentCode r = [] /\ Row.dataElement r = []).

(** ** The rows a row diff holds *)

(** The new rows a row diff shows: an 'unchanged' diff holds the old row of
    its pair only. *)
Definition diffNewRows (d : Comparator.RowDiff) : list DbRow.t :=
  match d with
  | Comparator.RowAdded _ r => [r]
  | Comparator.RowModified _ _ r2 _ => [r2]
  | Comparator.RowRemoved _ _ | Comparator.RowUnchanged _ _ => []
  end.

Definition diffRows (d : Comparator.RowDiff) : list DbRow.t :=
  diffOldRows d ++ diffNewRows d.

(** [r2] is a new row an 'unchanged' diff can stand for: its six compared
    fields are those of the old row the diff holds. *)
Definition unchangedPartner (norm : str -> str) (d : Comparator.RowDiff)
    (r2 : DbRow.t) : Prop :=
  match d with
  | Comparator.RowUnchanged _ r1 => sameFields norm r1 r2
  | _ => False
  end.

(** The new row of a slot that its diff does not show. *)
Definition slotHidden (norm : str -> str) (sl : Slot) : list DbRow.t :=
  match sl with
  | Both r1 r2 =>
      match Comparator.diffRowFields norm r1 r2 with
      | [] => [r2]
      | _ => []
      end
  | OldOnly _ | NewOnly _ => []
  end.

(** ** Rows whose first token lies behind white space *)

(** A row that is no label and has a data element, and whose description,
    as the comparator reads it, starts with white space and then has a
    token that looks like a code. *)
Definition tokenBehindSpace (norm : str -> str) (row : DbRow.t) : Prop :=
  DbRow.isLabel row = false /\
  norm (DbRow.dataElement row) <> [] /\
  drop_ws (norm (DbRow.beschreibung row)) <> norm (DbRow.beschreibung row) /\
  CodeToken (firstToken (norm (DbRow.beschreibung row))).

(** A copy of [Sample.old1] under another id, and a row whose description
    was put together by a continuation line behind an empty description:
    [lastRow.beschreibung += ' ' + text]. *)
Definition old1Copy : DbRow.t :=
  Sample.row 51 0 "SG2" "CTA" "3139" "IC Informationskontakt" "X" "X" "" false.

Definition continuedContact : DbRow.t :=
  Sample.row 61 0 "SG2" "CTA" "3139" " IC Informationskontakt" "X" "X" "" false.

End Notions.

(* ================================================================== *)
(** * Properties of the string primitives *)
(* ================================================================== *)

Module JSFacts.
Import JS Aux.

Lemma eqb_spec (a b : str) : reflect (a = b) (eqb a b).
Proof.
  revert b; induction a as [|x a IH]; intros [|y b]; simpl;
    try (constructor; congruence).
  destruct (N.eqb_spec x y) as [->|Hne]; simpl.
  - destruct (IH b) as [->|Hne]; constructor; congruence.
  - constructor; congruence.
Qed.

Lemma eqb_refl (a : str) : eqb a a = true.
Proof. destruct (eqb_spec a a); congruence. Qed.

Lemma eqb_eq (a b : str) : eqb a b = true <-> a = b.
Proof. destruct (eqb_spec a b); split; congruence. Qed.

Lemma eqb_neq (a b : str) : eqb a b = false <-> a <> b.
Proof. destruct (eqb_spec a b); split; congruence. Qed.

(** ** White space at the ends *)

Lemma drop_ws_head c t s : drop_ws s = c :: t -> isws c = false.
Proof.
  induction s as [|x s IH]; simpl; [discriminate|].
  destruct (isws x) eqn:E; [assumption|]. intros [= <- _]. exact E.
Qed.

Lemma drop_ws_fixed c t : isws c = false -> drop_ws (c :: t) = c :: t.
Proof. intros E; simpl; now rewrite E. Qed.

Lemma drop_ws_idem s : drop_ws (drop_ws s) = drop_ws s.
Proof.
  induction s as [|x s IH]; simpl; [reflexivity|].
  destruct (isws x) eqn:E; [assumption|]. simpl; now rewrite E.
Qed.

Lemma drop_ws_split s : exists w, s = w ++ drop_ws s /\ Forall (fun c => isws c = true) w.
Proof.
  induction s as [|x s (w & Hs & Hw)]; simpl.
  - exists []; auto.
  - destruct (isws x) eqn:E.
    + exists (x :: w); split; [simpl; congruence | constructor; auto].
    + exists []; auto.
Qed.

Lemma drop_ws_snoc l c :
  isws c = false -> exists u, drop_ws (l ++ [c]) = u ++ [c].
Proof.
  intros E; induction l as [|x l (u & Hu)]; simpl.
  - rewrite E; exists []; reflexivity.
  - destruct (isws x); [exists u; assumption | exists (x :: l); reflexivity].
Qed.


Lemma trim_eq s : trim s = drop_ws_end (drop_ws s).
Proof. reflexivity. Qed.

Lemma drop_ws_end_idem s : drop_ws_end (drop_ws_end s) = drop_ws_end s.
Proof. unfold drop_ws_end. now rewrite rev_involutive, drop_ws_idem. Qed.

Lemma drop_ws_end_split s :
  exists w, s = drop_ws_end s ++ w /\ Forall (fun c => isws c = true) w.
Proof.
  unfold drop_ws_end. destruct (drop_ws_split (rev s)) as (w & Hs & Hw).
  exists (rev w); split.
  - rewrite <- rev_app_distr, <- Hs. now rewrite rev_involutive.
  - now apply Forall_rev.
Qed.

Lemma drop_ws_end_head s : drop_ws s = s -> drop_ws (drop_ws_end s) = drop_ws_end s.
Proof.
  destruct s as [|c t]; [reflexivity|]. intros H.
  assert (E : isws c = false) by (eapply drop_ws_head; exact H).
  unfold drop_ws_end. change (rev (c :: t)) with (rev t ++ [c]).
  destruct (drop_ws_snoc (rev t) c E) as (u & ->).
  rewrite rev_app_distr. simpl. now rewrite E.
Qed.

Lemma trim_idem s : trim (trim s) = trim s.
Proof.
  rewrite !trim_eq.
  rewrite (drop_ws_end_head (drop_ws s)) by apply drop_ws_idem.
  apply drop_ws_end_idem.
Qed.

Lemma trim_head s : drop_ws (trim s) = trim s.
Proof. rewrite trim_eq. apply drop_ws_end_head, drop_ws_idem. Qed.

Lemma trim_infix s : exists w1 w2, s = w1 ++ trim s ++ w2.
Proof.
  destruct (drop_ws_split s) as (w1 & H1 & _).
  destruct (drop_ws_end_split (drop_ws s)) as (w2 & H2 & _).
  exists w1, w2. rewrite trim_eq, <- H2. exact H1.
Qed.

(** ** Deleting white space *)

Lemma wsrem_refl s : wsrem s s.
Proof. induction s; constructor; auto. Qed.

Lemma wsrem_nil_inv s : wsrem [] s -> s = [].
Proof. now inversion 1. Qed.

Lemma wsrem_trans a b c : wsrem a b -> wsrem b c -> wsrem a c.
Proof.
  intros Hab; revert c; induction Hab; intros d Hbd; auto.
  - inversion Hbd; subst; [apply wsrem_keep | apply wsrem_drop]; auto.
  - apply wsrem_drop; auto.
Qed.

Lemma wsrem_length a b : wsrem a b -> length b <= length a.
Proof. induction 1; simpl; lia. Qed.

Lemma wsrem_cons_inv c t s :
  isws c = false -> wsrem (c :: t) s -> exists t', s = c :: t' /\ wsrem t t'.
Proof. intros E H; inversion H; subst; [eauto | congruence]. Qed.

Lemma wsrem_app_inv k x s :
  Forall (fun c => isws c = false) k -> wsrem (k ++ x) s ->
  exists x', s = k ++ x' /\ wsrem x x'.
Proof.
  intros Hk; revert s; induction Hk as [|c k Hc _ IH]; simpl; intros s H.
  - eauto.
  - destruct (wsrem_cons_inv _ _ _ Hc H) as (t' & -> & Ht).
    destruct (IH _ Ht) as (x' & -> & Hx); eauto.
Qed.

Lemma wsrem_app a a' b b' : wsrem a a' -> wsrem b b' -> wsrem (a ++ b) (a' ++ b').
Proof. induction 1; simpl; intros; try constructor; auto. Qed.

Lemma wsrem_ws_prefix w s : Forall (fun c => isws c = true) w -> wsrem (w ++ s) s.
Proof. induction 1; simpl; [apply wsrem_refl | now apply wsrem_drop]. Qed.

Lemma wsrem_ws_suffix w s : Forall (fun c => isws c = true) w -> wsrem (s ++ w) s.
Proof.
  intros Hw. rewrite <- (app_nil_r s) at 2. apply wsrem_app; [apply wsrem_refl|].
  rewrite <- (app_nil_r w). now apply wsrem_ws_prefix.
Qed.

Lemma wsrem_drop_ws s : wsrem s (drop_ws s).
Proof.
  destruct (drop_ws_split s) as (w & Hs & Hw).
  rewrite Hs at 1. now apply wsrem_ws_prefix.
Qed.

Lemma wsrem_drop_ws_both s s' : wsrem s s' -> wsrem (drop_ws s) (drop_ws s').
Proof.
  induction 1; simpl; auto.
  - constructor.
  - destruct (isws c); [assumption | now apply wsrem_keep].
  - now rewrite H.
Qed.

Lemma wsrem_trim s : wsrem s (trim s).
Proof.
  rewrite trim_eq. eapply wsrem_trans; [apply wsrem_drop_ws|].
  destruct (drop_ws_end_split (drop_ws s)) as (w & Hs & Hw).
  rewrite Hs at 1. now apply wsrem_ws_suffix.
Qed.

Lemma wsrem_head s s' : drop_ws s = s -> wsrem s s' -> drop_ws s' = s'.
Proof.
  destruct s as [|c t]; intros H Hr.
  - now rewrite (wsrem_nil_inv _ Hr).
  - assert (E : isws c = false) by (eapply drop_ws_head; exact H).
    destruct (wsrem_cons_inv _ _ _ E Hr) as (t' & -> & _). now apply drop_ws_fixed.
Qed.

Lemma wsrem_Forall (P : char -> Prop) s s' : wsrem s s' -> Forall P s -> Forall P s'.
Proof.
  induction 1; intros HF; auto; inversion HF; subst; auto.
Qed.

(** ** Global replacement terminates with the fuel it is given *)

Lemma gsub_fuel_enough m : shrinks m ->
  forall n k s, length s <= n -> length s <= k -> gsub_fuel n m s = gsub_fuel k m s.
Proof.
  intros Hm; induction n as [|n IH]; intros k s Hn Hk.
  - destruct s; [|simpl in Hn; lia]. destruct k; reflexivity.
  - destruct k as [|k].
    + destruct s; [reflexivity | simpl in Hk; lia].
    + simpl. destruct s as [|c t]; [reflexivity|].
      destruct (m (c :: t)) as [[r rest]|] eqn:E.
      * apply Hm in E. simpl in *. f_equal. apply IH; lia.
      * f_equal. simpl in *. apply IH; lia.
Qed.

Lemma gsub_nil m : gsub m [] = [].
Proof. reflexivity. Qed.

Lemma gsub_hit m c t r rest : shrinks m ->
  m (c :: t) = Some (r, rest) -> gsub m (c :: t) = r ++ gsub m rest.
Proof.
  intros Hm E. unfold gsub. simpl. rewrite E. f_equal.
  apply Hm in E. simpl in E. apply gsub_fuel_enough; auto; lia.
Qed.

Lemma gsub_miss m c t : m (c :: t) = None -> gsub m (c :: t) = c :: gsub m t.
Proof. intros E. unfold gsub. simpl. now rewrite E. Qed.

Lemma gsub_ext m1 m2 : (forall s, m1 s = m2 s) -> forall s, gsub m1 s = gsub m2 s.
Proof.
  intros H s. unfold gsub. generalize (length s) as n. intros n; revert s.
  induction n as [|n IH]; intros s; simpl; [reflexivity|].
  destruct s as [|c t]; [reflexivity|]. rewrite H.
  destruct (m2 (c :: t)) as [[r rest]|]; now rewrite IH.
Qed.

(** Induction along the scan of a global replacement. *)
Lemma str_scan_ind (P : str -> Prop) :
  (forall s, (forall t, length t < length s -> P t) -> P s) -> forall s, P s.
Proof.
  intros H s. remember (length s) as n eqn:Hn. revert s Hn.
  induction n as [n IH] using lt_wf_ind. intros s ->.
  apply H. intros t Ht. exact (IH _ Ht t eq_refl).
Qed.

(** Replacing a character class is a filter or a map. *)
Lemma one_of_shrinks p r : shrinks (one_of p r).
Proof.
  intros [|c t] r' rest; simpl; [discriminate|].
  destruct (p c); [|discriminate]. intros [= _ <-]. lia.
Qed.

Lemma gsub_delete p s : gsub (one_of p []) s = filter (fun c => negb (p c)) s.
Proof.
  induction s as [|c t IH]; [reflexivity|]. simpl filter.
  destruct (p c) eqn:E; simpl.
  - rewrite (gsub_hit _ _ _ [] t (one_of_shrinks p [])); [exact IH|].
    simpl; now rewrite E.
  - rewrite gsub_miss; [now rewrite IH | simpl; now rewrite E].
Qed.

Lemma gsub_subst p x s :
  gsub (one_of p [x]) s = map (fun c => if p c then x else c) s.
Proof.
  induction s as [|c t IH]; [reflexivity|]. simpl map.
  destruct (p c) eqn:E.
  - rewrite (gsub_hit _ _ _ [x] t (one_of_shrinks p [x])); [simpl; now rewrite IH|].
    simpl; now rewrite E.
  - rewrite gsub_miss; [now rewrite IH | simpl; now rewrite E].
Qed.

End JSFacts.

(* ================================================================== *)
(** * Properties of the white-space patterns *)
(* ================================================================== *)

Module PatternFacts.
Import JS Aux JSFacts.


Lemma match_seq_some cs : Forall ws_free cs ->
  forall s k r, match_seq cs s = Some (k, r) ->
    Forall nonws k /\ length k = length cs /\ wsrem s (k ++ r).
Proof.
  induction 1 as [|p cs Hp _ IH]; simpl; intros s k r E.
  - injection E as <- <-. repeat split; [constructor | apply wsrem_refl].
  - destruct (drop_ws s) as [|c t] eqn:Ed; [discriminate|].
    destruct (p c) eqn:Ep; [|discriminate].
    destruct (match_seq cs t) as [[k' r']|] eqn:Em; [|discriminate].
    injection E as <- <-. destruct (IH _ _ _ Em) as (Hk & Hl & Hr).
    repeat split.
    + constructor; [apply Hp, Ep | exact Hk].
    + simpl; now rewrite Hl.
    + eapply wsrem_trans; [apply wsrem_drop_ws|]. rewrite Ed.
      simpl. now apply wsrem_keep.
Qed.

(** What a pattern matches depends on the white space only through its
    presence. *)
Lemma match_seq_wsrem cs : forall s s', wsrem s s' ->
  match match_seq cs s with
  | Some (k, r) => exists r', match_seq cs s' = Some (k, r') /\ wsrem r r'
  | None => match_seq cs s' = None
  end.
Proof.
  induction cs as [|p cs IH]; simpl; intros s s' H; [eauto|].
  apply wsrem_drop_ws_both in H.
  destruct (drop_ws s) as [|c t] eqn:Ed.
  - now rewrite (wsrem_nil_inv _ H).
  - apply drop_ws_head in Ed.
    destruct (wsrem_cons_inv _ _ _ Ed H) as (t' & -> & Ht).
    destruct (p c); [|reflexivity].
    specialize (IH _ _ Ht).
    destruct (match_seq cs t) as [[k r]|].
    + destruct IH as (r' & -> & Hr). eauto.
    + now rewrite IH.
Qed.

Lemma match_seq_self cs : forall s k r x,
  match_seq cs s = Some (k, r) -> match_seq cs (k ++ x) = Some (k, x).
Proof.
  induction cs as [|p cs IH]; simpl; intros s k r x E.
  - now injection E as <- <-.
  - destruct (drop_ws s) as [|c t] eqn:Ed; [discriminate|].
    destruct (p c) eqn:Ep; [|discriminate].
    destruct (match_seq cs t) as [[k' r']|] eqn:Em; [|discriminate].
    injection E as <- <-. apply drop_ws_head in Ed.
    simpl. rewrite Ed, Ep. now rewrite (IH _ _ _ x Em).
Qed.

Section Pattern.
Variable P : pattern.
Hypothesis HP : good P.

Local Abbreviation squeeze := (Aux.squeeze P).

Lemma match_pattern_some s k r : match_pattern P s = Some (k, r) ->
  Forall nonws k /\ k <> [] /\ wsrem s (k ++ r) /\
  (trail P = true -> drop_ws r = r).
Proof.
  destruct HP as (Hws & Hne). unfold match_pattern.
  destruct (lead P).
  - destruct (match_seq (classes P) s) as [[k0 r0]|] eqn:E; [|discriminate].
    intros [= <- <-]. destruct (match_seq_some _ Hws _ _ _ E) as (Hk & Hl & Hr).
    repeat split; auto.
    + intros ->. destruct (classes P); [congruence | discriminate].
    + eapply wsrem_trans; [exact Hr|]. apply wsrem_app; [apply wsrem_refl|].
      destruct (trail P); [apply wsrem_drop_ws | apply wsrem_refl].
    + intros ->. apply drop_ws_idem.
  - destruct (classes P) as [|p cs]; [discriminate|].
    destruct s as [|c t]; [discriminate|].
    destruct (p c) eqn:Ep; [|discriminate].
    destruct (match_seq cs t) as [[k0 r0]|] eqn:E; [|discriminate].
    intros [= <- <-]. inversion Hws as [|? ? Hp Hcs]; subst.
    destruct (match_seq_some _ Hcs _ _ _ E) as (Hk & Hl & Hr).
    repeat split.
    + constructor; [apply Hp, Ep | exact Hk].
    + discriminate.
    + simpl. apply wsrem_keep. eapply wsrem_trans; [exact Hr|].
      apply wsrem_app; [apply wsrem_refl|].
      destruct (trail P); [apply wsrem_drop_ws | apply wsrem_refl].
    + intros ->. apply drop_ws_idem.
Qed.

Lemma rx_id_shrinks : shrinks (rx P (fun k => k)).
Proof.
  intros s r rest. unfold rx.
  destruct (match_pattern P s) as [[k r0]|] eqn:E; [|discriminate].
  intros [= <- <-]. destruct (match_pattern_some _ _ _ E) as (_ & Hne & Hr & _).
  apply wsrem_length in Hr. rewrite length_app in Hr.
  destruct k; [congruence | simpl in Hr; lia].
Qed.

Lemma match_pattern_wsrem c t t' : wsrem t t' ->
  match match_pattern P (c :: t) with
  | Some (k, r) => exists r', match_pattern P (c :: t') = Some (k, r') /\ wsrem r r'
  | None => match_pattern P (c :: t') = None
  end.
Proof.
  intros H. unfold match_pattern. destruct (lead P).
  - pose proof (match_seq_wsrem (classes P) _ _ (wsrem_keep c _ _ H)) as Hm.
    destruct (match_seq (classes P) (c :: t)) as [[k r]|].
    + destruct Hm as (r' & -> & Hr). eexists; split; [reflexivity|].
      destruct (trail P); [now apply wsrem_drop_ws_both | assumption].
    + now rewrite Hm.
  - destruct (classes P) as [|p cs]; [reflexivity|].
    destruct (p c); [|reflexivity].
    pose proof (match_seq_wsrem cs _ _ H) as Hm.
    destruct (match_seq cs t) as [[k r]|].
    + destruct Hm as (r' & -> & Hr). eexists; split; [reflexivity|].
      destruct (trail P); [now apply wsrem_drop_ws_both | assumption].
    + now rewrite Hm.
Qed.

Lemma match_pattern_self s k r x : match_pattern P s = Some (k, r) ->
  (trail P = true -> drop_ws x = x) -> match_pattern P (k ++ x) = Some (k, x).
Proof.
  unfold match_pattern. intros E Hx. destruct (lead P).
  - destruct (match_seq (classes P) s) as [[k0 r0]|] eqn:Em; [|discriminate].
    injection E as <- _. rewrite (match_seq_self _ _ _ _ x Em).
    destruct (trail P); [now rewrite Hx | reflexivity].
  - destruct (classes P) as [|p cs]; [discriminate|].
    destruct s as [|c t]; [discriminate|].
    destruct (p c) eqn:Ep; [|discriminate].
    destruct (match_seq cs t) as [[k0 r0]|] eqn:Em; [|discriminate].
    injection E as <- _. simpl. rewrite Ep, (match_seq_self _ _ _ _ x Em).
    destruct (trail P); [now rewrite Hx | reflexivity].
Qed.


Lemma squeeze_hit c t k r : match_pattern P (c :: t) = Some (k, r) ->
  squeeze (c :: t) = k ++ squeeze r.
Proof.
  intros E. apply (gsub_hit _ _ _ _ _ rx_id_shrinks). unfold rx. now rewrite E.
Qed.

Lemma squeeze_miss c t : match_pattern P (c :: t) = None ->
  squeeze (c :: t) = c :: squeeze t.
Proof. intros E. apply gsub_miss. unfold rx. now rewrite E. Qed.

(** A replacement only deletes white space. *)
Lemma squeeze_wsrem s : wsrem s (squeeze s).
Proof.
  induction s as [s IH] using str_scan_ind. destruct s as [|c t]; [constructor|].
  destruct (match_pattern P (c :: t)) as [[k r]|] eqn:E.
  - rewrite (squeeze_hit _ _ _ _ E).
    destruct (match_pattern_some _ _ _ E) as (_ & Hne & Hr & _).
    eapply wsrem_trans; [exact Hr|]. apply wsrem_app; [apply wsrem_refl|].
    apply IH. apply wsrem_length in Hr. rewrite length_app in Hr.
    destruct k; [congruence | simpl in *; lia].
  - rewrite (squeeze_miss _ _ E). apply wsrem_keep, IH. simpl; lia.
Qed.

Lemma squeeze_head s : drop_ws s = s -> drop_ws (squeeze s) = squeeze s.
Proof.
  destruct s as [|c t]; [reflexivity|]. intros H.
  destruct (match_pattern P (c :: t)) as [[k r]|] eqn:E.
  - rewrite (squeeze_hit _ _ _ _ E).
    destruct (match_pattern_some _ _ _ E) as (Hk & Hne & _).
    destruct Hk as [|c0 k0 Hc0 _]; [congruence|]. simpl. now rewrite Hc0.
  - rewrite (squeeze_miss _ _ E). apply drop_ws_fixed. eapply drop_ws_head; exact H.
Qed.

(** Once a replacement has been applied, it has nothing left to do, also
    after more white space has been deleted. *)
Lemma squeeze_stable s : forall s', wsrem (squeeze s) s' -> squeeze s' = s'.
Proof.
  induction s as [s IH] using str_scan_ind. destruct s as [|c t]; intros s' H.
  - now rewrite (wsrem_nil_inv _ H).
  - destruct (match_pattern P (c :: t)) as [[k r]|] eqn:E.
    + rewrite (squeeze_hit _ _ _ _ E) in H.
      destruct (match_pattern_some _ _ _ E) as (Hk & Hne & Hr & Htr).
      destruct (wsrem_app_inv _ _ _ Hk H) as (x' & -> & Hx).
      assert (Hlen : length r < length (c :: t)).
      { apply wsrem_length in Hr. rewrite length_app in Hr.
        destruct k; [congruence | simpl in *; lia]. }
      assert (Hself : match_pattern P (k ++ x') = Some (k, x')).
      { apply (match_pattern_self _ _ _ x' E). intros Ht.
        eapply wsrem_head; [|exact Hx]. apply squeeze_head, Htr, Ht. }
      destruct k as [|c0 k0]; [congruence|].
      change ((c0 :: k0) ++ x') with (c0 :: (k0 ++ x')) in Hself |- *.
      rewrite (squeeze_hit _ _ _ _ Hself).
      change ((c0 :: k0) ++ squeeze x') with (c0 :: (k0 ++ squeeze x')).
      do 2 f_equal. apply (IH r); [exact Hlen | exact Hx].
    + rewrite (squeeze_miss _ _ E) in H. inversion H as [|? ? s'' Hs|? ? ? Hc Hs]; subst.
      * assert (Ht : wsrem t s'').
        { eapply wsrem_trans; [apply squeeze_wsrem | exact Hs]. }
        pose proof (match_pattern_wsrem c _ _ Ht) as Hm. rewrite E in Hm.
        rewrite (squeeze_miss _ _ Hm). f_equal. apply (IH t); [simpl; lia | exact Hs].
      * apply (IH t); [simpl; lia | exact Hs].
Qed.

End Pattern.

End PatternFacts.

(* ================================================================== *)
(** * Properties of the text normalisation *)
(* ================================================================== *)

Module NormalizeFacts.
Import JS Aux JSFacts PatternFacts Normalize.

Ltac unfold_classes :=
  unfold clean_char, zero_width, control, space_variant, dash_variant,
    isword, iscode, isupper, islower, isdigit, isws, chr, between,
    space, hyphen, slash in *.

Ltac bool_lia :=
  repeat match goal with
         | H : _ && _ = true |- _ => apply andb_true_iff in H; destruct H
         | H : _ || _ = true |- _ => apply orb_true_iff in H; destruct H
         | H : _ || _ = false |- _ => apply orb_false_iff in H; destruct H
         | H : N.leb _ _ = true |- _ => apply N.leb_le in H
         | H : N.leb _ _ = false |- _ => apply N.leb_gt in H
         | H : N.eqb _ _ = true |- _ => apply N.eqb_eq in H
         | H : N.eqb _ _ = false |- _ => apply N.eqb_neq in H
         | H : _ && _ = false |- _ => apply andb_false_iff in H; destruct H
         end; try lia.

Lemma isword_ws_free : ws_free isword.
Proof.
  intros c H. destruct (isws c) eqn:E; [exfalso|reflexivity].
  unfold_classes. bool_lia.
Qed.

Lemma chr_ws_free x : isws x = false -> ws_free (chr x).
Proof. intros Hx c H. apply N.eqb_eq in H. now subst. Qed.

Lemma good_word_hyphen_word : good word_hyphen_word.
Proof.
  split; [|discriminate]. repeat constructor;
    (apply isword_ws_free || (apply chr_ws_free; reflexivity)).
Qed.

Lemma good_hyphen_slash : good hyphen_slash.
Proof. split; [|discriminate]. repeat constructor; apply chr_ws_free; reflexivity. Qed.

Lemma good_slash_hyphen : good slash_hyphen.
Proof. split; [|discriminate]. repeat constructor; apply chr_ws_free; reflexivity. Qed.

Lemma good_lone_slash : good lone_slash.
Proof. split; [|discriminate]. repeat constructor; apply chr_ws_free; reflexivity. Qed.

(** The code units a pattern keeps belong to its classes, in order. *)
Lemma match_seq_classes cs : forall s k r, match_seq cs s = Some (k, r) ->
  Forall2 (fun p c => p c = true) cs k.
Proof.
  induction cs as [|p cs IH]; simpl; intros s k r E.
  - injection E as <- _. constructor.
  - destruct (drop_ws s) as [|c t]; [discriminate|].
    destruct (p c) eqn:Ep; [|discriminate].
    destruct (match_seq cs t) as [[k' r']|] eqn:Em; [|discriminate].
    injection E as <- _. constructor; eauto.
Qed.

Lemma match_pattern_classes P s k r : match_pattern P s = Some (k, r) ->
  Forall2 (fun p c => p c = true) (classes P) k.
Proof.
  unfold match_pattern. destruct (lead P).
  - destruct (match_seq (classes P) s) as [[k0 r0]|] eqn:E; [|discriminate].
    intros [= <- _]. eapply match_seq_classes; eauto.
  - destruct (classes P) as [|p cs]; [discriminate|].
    destruct s as [|c t]; [discriminate|].
    destruct (p c) eqn:Ep; [|discriminate].
    destruct (match_seq cs t) as [[k0 r0]|] eqn:E; [|discriminate].
    intros [= <- _]. constructor; [exact Ep | eapply match_seq_classes; eauto].
Qed.

(** Each replacement text puts back exactly the code units that were kept. *)
Lemma rx_keeps P repl :
  (forall k, Forall2 (fun p c => p c = true) (classes P) k -> repl k = k) ->
  forall s, gsub (rx P repl) s = squeeze P s.
Proof.
  intros H. apply gsub_ext. intros s. unfold rx.
  destruct (match_pattern P s) as [[k r]|] eqn:E; [|reflexivity].
  now rewrite (H k (match_pattern_classes _ _ _ _ E)).
Qed.

Ltac invert_classes H :=
  repeat match type of H with
         | Forall2 _ (_ :: _) _ =>
             let c := fresh "c" in let k := fresh "k" in
             let Hc := fresh "Hc" in let Hk := fresh "Hk" in
             inversion H as [|? c ? k Hc Hk]; subst; clear H; rename Hk into H
         | Forall2 _ [] _ => inversion H; subst; clear H
         end.

Lemma step5_squeeze s :
  gsub (rx word_hyphen_word group1_hyphen_group2) s = squeeze word_hyphen_word s.
Proof.
  apply rx_keeps. intros k H. simpl in H. invert_classes H.
  unfold chr in *. bool_lia. now subst.
Qed.

Lemma step6_squeeze s :
  gsub (rx hyphen_slash (fun _ => lit "-/")) s = squeeze hyphen_slash s.
Proof.
  apply rx_keeps. intros k H. simpl in H. invert_classes H.
  unfold chr in *. bool_lia. now subst.
Qed.

Lemma step7_squeeze s :
  gsub (rx slash_hyphen (fun _ => lit "/-")) s = squeeze slash_hyphen s.
Proof.
  apply rx_keeps. intros k H. simpl in H. invert_classes H.
  unfold chr in *. bool_lia. now subst.
Qed.

Lemma step8_squeeze s :
  gsub (rx lone_slash (fun _ => lit "/")) s = squeeze lone_slash s.
Proof.
  apply rx_keeps. intros k H. simpl in H. invert_classes H.
  unfold chr in *. bool_lia. now subst.
Qed.

(** ** Collapsing plain spaces *)


Lemma drop_spaces_length t : length (drop_spaces t) <= length t.
Proof.
  induction t as [|c t IH]; simpl; [lia|]. destruct (N.eqb c space); simpl; lia.
Qed.

Lemma drop_spaces_wsrem t : wsrem t (drop_spaces t).
Proof.
  induction t as [|c t IH]; simpl; [constructor|].
  destruct (N.eqb_spec c space) as [->|_]; [now apply wsrem_drop | apply wsrem_refl].
Qed.

Lemma drop_spaces_head t : no_space_head (drop_spaces t).
Proof.
  induction t as [|c t IH]; simpl; [exact I|].
  destruct (N.eqb_spec c space) as [->|Hne]; [exact IH | exact Hne].
Qed.

Lemma spaces2_inv r s r' rest : spaces2 r s = Some (r', rest) ->
  exists t, s = space :: space :: t /\ r' = r /\ rest = drop_spaces t.
Proof.
  destruct s as [|a [|b t]]; simpl; try discriminate.
  destruct (N.eqb_spec a space) as [->|_]; [|discriminate].
  destruct (N.eqb_spec b space) as [->|_]; [|discriminate].
  intros [= <- <-]. eauto.
Qed.

Lemma spaces2_none r c t : spaces2 r (c :: t) = None ->
  c = space -> no_space_head t.
Proof.
  destruct t as [|b t]; simpl; [intros; exact I|]. intros H ->.
  rewrite N.eqb_refl in H. simpl in H.
  destruct (N.eqb_spec b space); [discriminate | assumption].
Qed.

Lemma spaces2_shrinks r : shrinks (spaces2 r).
Proof.
  intros s r' rest H. apply spaces2_inv in H. destruct H as (t & -> & _ & ->).
  pose proof (drop_spaces_length t). simpl; lia.
Qed.

Lemma collapse_hit t : collapse (space :: space :: t) = space :: collapse (drop_spaces t).
Proof.
  unfold collapse. now rewrite (gsub_hit _ _ _ [space] (drop_spaces t) (spaces2_shrinks _)).
Qed.

Lemma collapse_wsrem s : wsrem s (collapse s).
Proof.
  induction s as [s IH] using str_scan_ind. destruct s as [|c t]; [constructor|].
  destruct (spaces2 [space] (c :: t)) as [[r rest]|] eqn:E.
  - apply spaces2_inv in E. destruct E as (t' & [= -> ->] & _ & _).
    rewrite collapse_hit. apply wsrem_keep, wsrem_drop; [reflexivity|].
    eapply wsrem_trans; [apply drop_spaces_wsrem|]. apply IH.
    pose proof (drop_spaces_length t'). simpl; lia.
  - unfold collapse. rewrite (gsub_miss _ _ _ E). apply wsrem_keep, IH. simpl; lia.
Qed.

Lemma collapse_head s : no_space_head s -> no_space_head (collapse s).
Proof.
  destruct s as [|c t]; [auto|]. simpl. intros Hc.
  unfold collapse. rewrite gsub_miss; [exact Hc|].
  destruct t as [|b t]; [reflexivity|]. simpl.
  destruct (N.eqb_spec c space); [contradiction | reflexivity].
Qed.

Lemma nodouble_nil : nodouble [].
Proof. intros [|? ?] post; discriminate. Qed.

Lemma nodouble_cons c s :
  nodouble s -> (c = space -> no_space_head s) -> nodouble (c :: s).
Proof.
  intros Hs Hc [|x pre] post E.
  - injection E as -> ->. specialize (Hc eq_refl). simpl in Hc. now apply Hc.
  - injection E as _ E. exact (Hs _ _ E).
Qed.

Lemma nodouble_tail c s : nodouble (c :: s) -> nodouble s.
Proof. intros H pre post E. apply (H (c :: pre) post). simpl. now rewrite E. Qed.

Lemma nodouble_infix w1 s w2 : nodouble (w1 ++ s ++ w2) -> nodouble s.
Proof.
  intros H pre post E. apply (H (w1 ++ pre) (post ++ w2)).
  rewrite E. rewrite <- !app_assoc. reflexivity.
Qed.

Lemma collapse_nodouble s : nodouble (collapse s).
Proof.
  induction s as [s IH] using str_scan_ind. destruct s as [|c t]; [apply nodouble_nil|].
  destruct (spaces2 [space] (c :: t)) as [[r rest]|] eqn:E.
  - apply spaces2_inv in E. destruct E as (t' & [= -> ->] & _ & _).
    rewrite collapse_hit. pose proof (drop_spaces_length t').
    apply nodouble_cons; [apply IH; simpl; lia|].
    intros _. apply collapse_head, drop_spaces_head.
  - unfold collapse. rewrite (gsub_miss _ _ _ E).
    apply nodouble_cons; [apply IH; simpl; lia|].
    intros Hc. apply collapse_head. eapply spaces2_none; eauto.
Qed.

Lemma collapse_fixed s : nodouble s -> collapse s = s.
Proof.
  induction s as [|c t IH]; [reflexivity|]. intros H.
  unfold collapse. rewrite gsub_miss.
  - f_equal. apply IH. eapply nodouble_tail; eauto.
  - destruct t as [|b t]; [reflexivity|]. simpl.
    destruct (N.eqb_spec c space) as [->|_]; [|reflexivity].
    destruct (N.eqb_spec b space) as [->|_]; [|reflexivity].
    exfalso. apply (H [] t). reflexivity.
Qed.

Lemma trim_nodouble s : nodouble s -> nodouble (trim s).
Proof.
  intros H. destruct (trim_infix s) as (w1 & w2 & E). rewrite E in H.
  eapply nodouble_infix; eauto.
Qed.

(** ** The four character-class replacements *)

Lemma clean_class_steps s :
  Forall clean_char
    (gsub (one_of dash_variant [hyphen])
       (gsub (one_of space_variant [space])
          (gsub (one_of control []) (gsub (one_of zero_width []) s)))).
Proof.
  rewrite !gsub_subst, !gsub_delete.
  induction s as [|c t IH]; [constructor|]. simpl.
  destruct (zero_width c) eqn:H1; simpl; [exact IH|].
  destruct (control c) eqn:H2; simpl; [exact IH|].
  constructor; [|exact IH].
  destruct (space_variant c) eqn:H3.
  - repeat split; reflexivity.
  - destruct (dash_variant c) eqn:H4; repeat split; auto.
Qed.

Lemma class_steps_fixed s : Forall clean_char s ->
  gsub (one_of dash_variant [hyphen])
    (gsub (one_of space_variant [space])
       (gsub (one_of control []) (gsub (one_of zero_width []) s))) = s.
Proof.
  intros H. rewrite !gsub_subst, !gsub_delete.
  induction H as [|c t (H1 & H2 & H3 & H4) _ IH]; [reflexivity|].
  simpl. rewrite H1. simpl. rewrite H2. simpl. rewrite H3, H4. now rewrite IH.
Qed.

(** ** The whole pipeline *)


Lemma normalize_pipeline s :
  normalizeForComparison s = if truthy s then pipeline s else [].
Proof.
  unfold normalizeForComparison, pipeline. destruct (truthy s); simpl; [|reflexivity].
  now rewrite step5_squeeze, step6_squeeze, step7_squeeze, step8_squeeze.
Qed.

Lemma normalize_pipeline_all s : normalizeForComparison s = pipeline s.
Proof. rewrite normalize_pipeline. destruct s; reflexivity. Qed.

Lemma pipeline_fixed s : pipeline (pipeline s) = pipeline s.
Proof.
  set (y := pipeline s).
  set (a4 := gsub (one_of dash_variant [hyphen])
          (gsub (one_of space_variant [space])
            (gsub (one_of control []) (gsub (one_of zero_width []) s)))).
  set (a5 := squeeze word_hyphen_word a4).
  set (a6 := squeeze hyphen_slash a5).
  set (a7 := squeeze slash_hyphen a6).
  set (a8 := squeeze lone_slash a7).
  assert (Hy : y = trim (collapse a8)) by reflexivity.
  assert (H8 : wsrem a8 y).
  { rewrite Hy. eapply wsrem_trans; [apply collapse_wsrem | apply wsrem_trim]. }
  assert (H7 : wsrem a7 y).
  { eapply wsrem_trans; [apply (squeeze_wsrem _ good_lone_slash) | exact H8]. }
  assert (H6 : wsrem a6 y).
  { eapply wsrem_trans; [apply (squeeze_wsrem _ good_slash_hyphen) | exact H7]. }
  assert (H5 : wsrem a5 y).
  { eapply wsrem_trans; [apply (squeeze_wsrem _ good_hyphen_slash) | exact H6]. }
  assert (H4 : wsrem a4 y).
  { eapply wsrem_trans; [apply (squeeze_wsrem _ good_word_hyphen_word) | exact H5]. }
  assert (Hclean : Forall clean_char y).
  { eapply wsrem_Forall; [exact H4 | apply clean_class_steps]. }
  unfold pipeline at 1. fold y.
  rewrite (class_steps_fixed _ Hclean).
  rewrite (squeeze_stable _ good_word_hyphen_word a4 y H5).
  rewrite (squeeze_stable _ good_hyphen_slash a5 y H6).
  rewrite (squeeze_stable _ good_slash_hyphen a6 y H7).
  rewrite (squeeze_stable _ good_lone_slash a7 y H8).
  rewrite collapse_fixed.
  - rewrite Hy. apply trim_idem.
  - rewrite Hy. apply trim_nodouble, collapse_nodouble.
Qed.

Lemma normalize_trimmed s : drop_ws (normalizeForComparison s) = normalizeForComparison s.
Proof. rewrite normalize_pipeline_all. apply trim_head. Qed.

(** C4.  Text normalisation is idempotent:
    [normalize (normalize s) = normalize s] for every string [s]. *)
Theorem normalizeForComparison_idempotent (s : str) :
  normalizeForComparison (normalizeForComparison s) = normalizeForComparison s.
Proof. rewrite !normalize_pipeline_all. apply pipeline_fixed. Qed.

End NormalizeFacts.

(* ================================================================== *)
(** * Properties of [Map] and [Set] *)
(* ================================================================== *)

Module MapFacts.
Import JS JSFacts.

Lemma get_set_same {V} k (v : V) m : JSMap.get k (JSMap.set k v m) = Some v.
Proof.
  induction m as [|[k0 v0] m IH]; simpl.
  - now rewrite eqb_refl.
  - destruct (eqb k0 k) eqn:E; simpl; now rewrite E.
Qed.

Lemma get_set_other {V} k k' (v : V) m :
  k <> k' -> JSMap.get k' (JSMap.set k v m) = JSMap.get k' m.
Proof.
  intros Hne. induction m as [|[k0 v0] m IH]; simpl.
  - apply eqb_neq in Hne. now rewrite Hne.
  - destruct (eqb_spec k0 k) as [->|Hk]; simpl.
    + apply eqb_neq in Hne. now rewrite Hne.
    + now rewrite IH.
Qed.

Lemma get_some_keys {V} k (v : V) m : JSMap.get k m = Some v -> In k (JSMap.keys m).
Proof.
  induction m as [|[k0 v0] m IH]; simpl; [discriminate|].
  destruct (eqb_spec k0 k) as [->|_]; auto.
Qed.

Lemma get_none_keys {V} k (m : JSMap.t V) : ~ In k (JSMap.keys m) -> JSMap.get k m = None.
Proof.
  induction m as [|[k0 v0] m IH]; simpl; [reflexivity|]. intros H.
  destruct (eqb_spec k0 k) as [->|_]; [tauto | apply IH; tauto].
Qed.

Lemma keys_get_some {V} k (m : JSMap.t V) :
  In k (JSMap.keys m) -> exists v, JSMap.get k m = Some v.
Proof.
  induction m as [|[k0 v0] m IH]; simpl; [tauto|]. intros [->|H].
  - rewrite eqb_refl. eauto.
  - destruct (eqb k0 k); eauto.
Qed.

Lemma has_true {V} k (m : JSMap.t V) :
  JSMap.has k m = true <-> exists v, JSMap.get k m = Some v.
Proof.
  unfold JSMap.has. destruct (JSMap.get k m); split; eauto; try discriminate.
  intros (v & H); discriminate.
Qed.

Lemma set_has k s : JSSet.has k s = true <-> In k s.
Proof.
  unfold JSSet.has. rewrite existsb_exists. split.
  - intros (x & Hx & E). apply eqb_eq in E. now subst.
  - intros H. exists k. split; [assumption | apply eqb_refl].
Qed.

Lemma set_add_in k x s : In x (JSSet.add k s) <-> In x s \/ x = k.
Proof.
  unfold JSSet.add. destruct (JSSet.has k s) eqn:E.
  - apply set_has in E. split; [tauto|]. intros [H| ->]; assumption.
  - rewrite in_app_iff. simpl. split; intros [H|H]; auto.
    destruct H as [<-|[]]; auto.
Qed.

Lemma set_add_nodup k s : NoDup s -> NoDup (JSSet.add k s).
Proof.
  intros H. unfold JSSet.add. destruct (JSSet.has k s) eqn:E; [assumption|].
  assert (Hk : ~ In k s).
  { intros Hin. apply set_has in Hin. congruence. }
  clear E. induction H as [|x s Hx Hs IH]; simpl.
  - constructor; [tauto | constructor].
  - constructor.
    + rewrite in_app_iff. simpl in *. intros [H|[H|[]]]; [tauto | subst; tauto].
    + apply IH. simpl in Hk. tauto.
Qed.

Lemma set_fold_in l : forall s x,
  In x (fold_left (fun s key => JSSet.add key s) l s) <-> In x s \/ In x l.
Proof.
  induction l as [|k l IH]; simpl; intros s x; [tauto|].
  rewrite IH, set_add_in. intuition (subst; auto).
Qed.

Lemma set_fold_nodup l : forall s,
  NoDup s -> NoDup (fold_left (fun s key => JSSet.add key s) l s).
Proof.
  induction l as [|k l IH]; simpl; intros s H; [assumption|].
  apply IH, set_add_nodup, H.
Qed.

Lemma of_list_in l x : In x (JSSet.of_list l) <-> In x l.
Proof. unfold JSSet.of_list. rewrite set_fold_in. simpl. tauto. Qed.

Lemma of_list_nodup l : NoDup (JSSet.of_list l).
Proof. apply set_fold_nodup. constructor. Qed.

End MapFacts.

(* ================================================================== *)
(** * Properties of the row matching *)
(* ================================================================== *)

Module RowFacts.
Import JS Aux JSFacts MapFacts Comparator.

Lemma nth_error_skipn {A} i : forall l : list A,
  nth_error l i = hd_error (skipn i l).
Proof. induction i as [|i IH]; intros [|x l]; simpl; auto. Qed.

Lemma skipn_S_tl {A} i : forall l : list A, skipn (S i) l = tl (skipn i l).
Proof.
  induction i as [|i IH]; intros [|x l]; try reflexivity.
  change (skipn (S (S i)) (x :: l)) with (skipn (S i) l).
  change (skipn (S i) (x :: l)) with (skipn i l). apply IH.
Qed.

Section WithNormalization.
Variable norm : str -> str.

(** ** The inner loop walks the slots *)

Lemma slotDiff_both key r1 r2 diffs :
  (if 0 <? length (diffRowFields norm r1 r2)
   then diffs ++ [RowModified key r1 r2 (diffRowFields norm r1 r2)]
   else diffs ++ [RowUnchanged key r1])
  = diffs ++ [slotDiff norm key (Both r1 r2)].
Proof. simpl. destruct (diffRowFields norm r1 r2); reflexivity. Qed.

Lemma pairLoop_slots key full1 full2 : forall l1 l2 i diffs,
  skipn i full1 = l1 -> skipn i full2 = l2 ->
  pairLoop norm key full1 full2 (Nat.max (length l1) (length l2)) i diffs
  = Some (diffs ++ map (slotDiff norm key) (zipSlots l1 l2)).
Proof.
  induction l1 as [|r1 l1 IH1].
  - induction l2 as [|r2 l2 IH2]; intros i diffs H1 H2.
    + simpl. now rewrite app_nil_r.
    + assert (E1 : skipn (S i) full1 = []) by now rewrite skipn_S_tl, H1.
      assert (E2 : skipn (S i) full2 = l2) by now rewrite skipn_S_tl, H2.
      pose proof (IH2 (S i) (diffs ++ [RowAdded (Some key) r2]) E1 E2) as IH.
      simpl in IH |- *. rewrite !nth_error_skipn, H1, H2. simpl.
      rewrite IH. now rewrite <- app_assoc.
  - intros [|r2 l2] i diffs H1 H2.
    + assert (E1 : skipn (S i) full1 = l1) by now rewrite skipn_S_tl, H1.
      assert (E2 : skipn (S i) full2 = []) by now rewrite skipn_S_tl, H2.
      pose proof (IH1 [] (S i) (diffs ++ [RowRemoved (Some key) r1]) E1 E2) as IH.
      rewrite Nat.max_0_r in IH.
      simpl Nat.max. cbn [pairLoop]. rewrite !nth_error_skipn, H1, H2. simpl hd_error. cbv beta iota.
      rewrite IH. simpl. now rewrite <- app_assoc.
    + assert (E1 : skipn (S i) full1 = l1) by now rewrite skipn_S_tl, H1.
      assert (E2 : skipn (S i) full2 = l2) by now rewrite skipn_S_tl, H2.
      simpl Nat.max. cbn [pairLoop]. rewrite !nth_error_skipn, H1, H2. simpl hd_error.
      cbv beta iota. rewrite slotDiff_both.
      rewrite (IH1 l2 (S i) _ E1 E2). simpl. now rewrite <- app_assoc.
Qed.

Lemma compareRowsLoop_slots map1 map2 : forall allKeys diffs,
  compareRowsLoop norm map1 map2 allKeys diffs
  = Some (diffs ++
      flat_map (fun key =>
                  map (slotDiff norm key)
                    (zipSlots (orEmpty (JSMap.get key map1))
                              (orEmpty (JSMap.get key map2)))) allKeys).
Proof.
  induction allKeys as [|key rest IH]; intros diffs.
  - simpl. now rewrite app_nil_r.
  - cbn [compareRowsLoop flat_map].
    pose proof (pairLoop_slots key (orEmpty (JSMap.get key map1))
                  (orEmpty (JSMap.get key map2)) _ _ 0 diffs eq_refl eq_refl) as H.
    cbn [skipn] in H. rewrite H, IH. now rewrite <- app_assoc.
Qed.

(** ** The row map groups the rows by key, in their order *)

Local Abbreviation rowMapStep := (Aux.rowMapStep norm).


Lemma rowMapStep_get map row k :
  orEmpty (JSMap.get k (rowMapStep map row))
  = orEmpty (JSMap.get k map) ++ (if eqb (rowKey norm row) k then [row] else []).
Proof.
  unfold rowMapStep. set (key := rowKey norm row).
  unfold JSMap.has. destruct (JSMap.get key map) as [l|] eqn:E; simpl.
  - rewrite E. destruct (eqb_spec key k) as [<-|Hne].
    + now rewrite get_set_same, E.
    + rewrite get_set_other by assumption. now rewrite app_nil_r.
  - rewrite get_set_same. destruct (eqb_spec key k) as [<-|Hne].
    + now rewrite get_set_same, E.
    + rewrite !get_set_other by assumption. now rewrite app_nil_r.
Qed.

Lemma buildRowMap_fold rows : forall map k,
  orEmpty (JSMap.get k (fold_left rowMapStep rows map))
  = orEmpty (JSMap.get k map) ++ rowsWithKey norm k rows.
Proof.
  induction rows as [|row rows IH]; intros map k; simpl.
  - now rewrite app_nil_r.
  - rewrite IH, rowMapStep_get, <- app_assoc. f_equal.
    destruct (eqb (rowKey norm row) k); reflexivity.
Qed.

Lemma buildRowMap_get rows k :
  orEmpty (JSMap.get k (buildRowMap norm rows)) = rowsWithKey norm k rows.
Proof. exact (buildRowMap_fold rows [] k). Qed.

Lemma buildRowMap_keys rows r :
  In r rows -> In (rowKey norm r) (JSMap.keys (buildRowMap norm rows)).
Proof.
  intros Hr. pose proof (buildRowMap_get rows (rowKey norm r)) as H.
  destruct (JSMap.get (rowKey norm r) (buildRowMap norm rows)) as [l|] eqn:E.
  - eapply get_some_keys; eauto.
  - exfalso. simpl in H.
    assert (Hin : In r (rowsWithKey norm (rowKey norm r) rows)).
    { apply filter_In. split; [assumption | apply eqb_refl]. }
    rewrite <- H in Hin. exact Hin.
Qed.

(** ** What [compareRows] computes *)

Lemma compareRows_slots rows1 rows2 :
  compareRows norm rows1 rows2
  = Some (map (fun ks => slotDiff norm (fst ks) (snd ks)) (rowSlots norm rows1 rows2)).
Proof.
  unfold compareRows. rewrite compareRowsLoop_slots. simpl. f_equal.
  unfold rowSlots, rowKeys.
  induction (JSSet.of_list
               (JSMap.keys (buildRowMap norm rows1) ++ JSMap.keys (buildRowMap norm rows2)))
    as [|key keys IH]; simpl; [reflexivity|].
  rewrite map_app, <- IH, !buildRowMap_get, map_map. reflexivity.
Qed.

Lemma rowKeys_nodup rows1 rows2 : NoDup (rowKeys norm rows1 rows2).
Proof. apply of_list_nodup. Qed.

Lemma rowKeys_old rows1 rows2 r :
  In r rows1 -> In (rowKey norm r) (rowKeys norm rows1 rows2).
Proof.
  intros H. apply of_list_in, in_or_app. left. now apply buildRowMap_keys.
Qed.

Lemma rowKeys_new rows1 rows2 r :
  In r rows2 -> In (rowKey norm r) (rowKeys norm rows1 rows2).
Proof.
  intros H. apply of_list_in, in_or_app. right. now apply buildRowMap_keys.
Qed.

Lemma rowsWithKey_absent rows1 rows2 k :
  ~ In k (rowKeys norm rows1 rows2) ->
  rowsWithKey norm k rows1 = [] /\ rowsWithKey norm k rows2 = [].
Proof.
  intros H. split.
  - destruct (rowsWithKey norm k rows1) as [|r l] eqn:E; [reflexivity|]. exfalso.
    assert (Hr : In r (rowsWithKey norm k rows1)) by (rewrite E; now left).
    apply filter_In in Hr. destruct Hr as (Hr & Hk). apply eqb_eq in Hk. subst k.
    now apply H, rowKeys_old.
  - destruct (rowsWithKey norm k rows2) as [|r l] eqn:E; [reflexivity|]. exfalso.
    assert (Hr : In r (rowsWithKey norm k rows2)) by (rewrite E; now left).
    apply filter_In in Hr. destruct Hr as (Hr & Hk). apply eqb_eq in Hk. subst k.
    now apply H, rowKeys_new.
Qed.

(** ** Slots hold every row once *)

Lemma zipSlots_old l1 : forall l2, flat_map slotOld (zipSlots l1 l2) = l1.
Proof.
  induction l1 as [|r1 l1 IH]; intros l2; simpl.
  - induction l2; simpl; auto.
  - destruct l2; simpl; now rewrite IH.
Qed.

Lemma zipSlots_new l1 : forall l2, flat_map slotNew (zipSlots l1 l2) = l2.
Proof.
  induction l1 as [|r1 l1 IH]; intros l2; simpl.
  - induction l2; simpl; congruence.
  - destruct l2; simpl; [apply (IH []) | now rewrite IH].
Qed.

Lemma nth_error_zipSlots l1 : forall l2 i,
  nth_error (zipSlots l1 l2) i = slotAt (nth_error l1 i) (nth_error l2 i).
Proof.
  induction l1 as [|r1 l1 IH]; intros l2 i.
  - simpl zipSlots. rewrite nth_error_map.
    replace (nth_error (@nil DbRow.t) i) with (@None DbRow.t) by now destruct i.
    now destruct (nth_error l2 i).
  - destruct l2 as [|r2 l2]; destruct i as [|i]; simpl; try reflexivity.
    + rewrite IH. now destruct i.
    + apply IH.
Qed.

Lemma filter_none {A} (p : A -> bool) l :
  (forall x, In x l -> p x = false) -> filter p l = [].
Proof.
  induction l as [|x l IH]; simpl; intros H; [reflexivity|].
  rewrite (H x) by auto. apply IH. auto.
Qed.

Lemma filter_all {A} (p : A -> bool) l :
  (forall x, In x l -> p x = true) -> filter p l = l.
Proof.
  induction l as [|x l IH]; simpl; intros H; [reflexivity|].
  rewrite (H x) by auto. f_equal. apply IH. auto.
Qed.

Lemma filter_split_perm {A} (p q : A -> bool) l :
  (forall x, p x = true -> q x = true -> False) ->
  Permutation (filter p l ++ filter q l) (filter (fun x => p x || q x) l).
Proof.
  intros H. induction l as [|x l IH]; simpl; [constructor|].
  destruct (p x) eqn:Ep; destruct (q x) eqn:Eq; simpl.
  - exfalso; eauto.
  - now apply perm_skip.
  - apply Permutation_sym, Permutation_cons_app, Permutation_sym, IH.
  - exact IH.
Qed.

(** Grouping a list by key and joining the groups gives the list back, up
    to order. *)
Lemma group_perm {A} (key : A -> str) (l : list A) : forall ks,
  NoDup ks ->
  Permutation (flat_map (fun k => filter (fun x => eqb (key x) k) l) ks)
              (filter (fun x => existsb (eqb (key x)) ks) l).
Proof.
  induction 1 as [|k ks Hk Hks IH]; simpl.
  - rewrite filter_none; auto.
  - eapply Permutation_trans; [apply Permutation_app_head, IH|].
    apply filter_split_perm. intros x H1 H2. apply eqb_eq in H1. subst k.
    apply existsb_exists in H2. destruct H2 as (k' & Hin & E).
    apply eqb_eq in E. subst k'. contradiction.
Qed.

Lemma group_all {A} (key : A -> str) (l : list A) ks :
  NoDup ks -> (forall x, In x l -> In (key x) ks) ->
  Permutation (flat_map (fun k => filter (fun x => eqb (key x) k) l) ks) l.
Proof.
  intros Hnd Hall. eapply Permutation_trans; [apply group_perm, Hnd|].
  rewrite filter_all; [apply Permutation_refl|].
  intros x Hx. apply existsb_exists. exists (key x). split; [auto | apply eqb_refl].
Qed.

Lemma rowSlots_old rows1 rows2 :
  flat_map slotOld (map snd (rowSlots norm rows1 rows2))
  = flat_map (fun k => rowsWithKey norm k rows1) (rowKeys norm rows1 rows2).
Proof.
  unfold rowSlots. induction (rowKeys norm rows1 rows2) as [|k ks IH]; simpl; [reflexivity|].
  rewrite map_app, flat_map_app, IH, map_map. simpl. rewrite map_id.
  now rewrite zipSlots_old.
Qed.

Lemma rowSlots_new rows1 rows2 :
  flat_map slotNew (map snd (rowSlots norm rows1 rows2))
  = flat_map (fun k => rowsWithKey norm k rows2) (rowKeys norm rows1 rows2).
Proof.
  unfold rowSlots. induction (rowKeys norm rows1 rows2) as [|k ks IH]; simpl; [reflexivity|].
  rewrite map_app, flat_map_app, IH, map_map. simpl. rewrite map_id.
  now rewrite zipSlots_new.
Qed.

Lemma diffOldRows_slot key sl : diffOldRows (slotDiff norm key sl) = slotOld sl.
Proof.
  destruct sl as [r1 r2| |]; simpl; try reflexivity.
  destruct (diffRowFields norm r1 r2); reflexivity.
Qed.

Lemma hasKey_slot key k sl : hasKey key (slotDiff norm k sl) = eqb k key.
Proof.
  destruct sl as [r1 r2| |]; simpl; try reflexivity.
  destruct (diffRowFields norm r1 r2); reflexivity.
Qed.

(** The diffs of one key are the slots of that key. *)
Lemma compareRows_key_slots rows1 rows2 key :
  filter (hasKey key)
    (map (fun ks => slotDiff norm (fst ks) (snd ks)) (rowSlots norm rows1 rows2))
  = map (slotDiff norm key)
      (zipSlots (rowsWithKey norm key rows1) (rowsWithKey norm key rows2)).
Proof.
  unfold rowSlots.
  pose proof (rowKeys_nodup rows1 rows2) as Hnd.
  destruct (in_dec (list_eq_dec N.eq_dec) key (rowKeys norm rows1 rows2)) as [Hin|Hout].
  - induction Hnd as [|k ks Hk Hks IH]; [contradiction|]. simpl.
    rewrite map_app, filter_app, map_map. simpl.
    destruct Hin as [->|Hin].
    + rewrite filter_all.
      * rewrite filter_none; [now rewrite app_nil_r|].
        intros d Hd. apply in_map_iff in Hd. destruct Hd as ([k' sl] & <- & Hd).
        apply in_flat_map in Hd. destruct Hd as (k'' & Hk'' & Hd).
        apply in_map_iff in Hd. destruct Hd as (sl' & [= <- <-] & _).
        simpl. rewrite hasKey_slot. apply eqb_neq. intros ->. contradiction.
      * intros d Hd. apply in_map_iff in Hd. destruct Hd as (sl & <- & _).
        rewrite hasKey_slot. apply eqb_refl.
    + rewrite filter_none.
      * simpl. apply IH, Hin.
      * intros d Hd. apply in_map_iff in Hd. destruct Hd as (sl & <- & _).
        rewrite hasKey_slot. apply eqb_neq. intros ->. contradiction.
  - destruct (rowsWithKey_absent rows1 rows2 key Hout) as (-> & ->). simpl.
    apply filter_none. intros d Hd. apply in_map_iff in Hd.
    destruct Hd as ([k sl] & <- & Hd). apply in_flat_map in Hd.
    destruct Hd as (k' & Hk' & Hd). apply in_map_iff in Hd.
    destruct Hd as (sl' & [= <- <-] & _). simpl. rewrite hasKey_slot.
    apply eqb_neq. intros ->. contradiction.
Qed.

(** ** Field changes *)

Lemma differ_false a b : differ norm a b = false <-> norm a = norm b.
Proof.
  unfold differ. rewrite negb_false_iff. apply eqb_eq.
Qed.

Lemma sameFields_no_changes r1 r2 :
  sameFields norm r1 r2 -> diffRowFields norm r1 r2 = [].
Proof.
  intros (H1 & H2 & H3 & H4 & H5 & H6).
  apply differ_false in H1, H2, H3, H4, H5, H6.
  unfold diffRowFields, textFields. simpl.
  now rewrite H1, H2, H3, H4, H5, H6.
Qed.

Lemma no_changes_sameFields r1 r2 :
  diffRowFields norm r1 r2 = [] -> sameFields norm r1 r2.
Proof.
  unfold diffRowFields, textFields, sameFields. simpl.
  rewrite <- !differ_false.
  destruct (differ norm (trim (DbRow.beschreibung r1)) (trim (DbRow.beschreibung r2)));
  destruct (differ norm (trim (DbRow.statusCol1 r1)) (trim (DbRow.statusCol1 r2)));
  destruct (differ norm (trim (DbRow.statusCol2 r1)) (trim (DbRow.statusCol2 r2)));
  destruct (differ norm (trim (DbRow.bedingung r1)) (trim (DbRow.bedingung r2)));
  destruct (differ norm (DbRow.segmentGroup r1) (DbRow.segmentGroup r2));
  destruct (differ norm (DbRow.segmentCode r1) (DbRow.segmentCode r2));
  simpl; intros H; try discriminate H; repeat split; reflexivity.
Qed.

Lemma slotDiff_both_type key r1 r2 :
  (diffRowFields norm r1 r2 = [] /\
   slotDiff norm key (Both r1 r2) = RowUnchanged key r1) \/
  (diffRowFields norm r1 r2 <> [] /\
   slotDiff norm key (Both r1 r2)
   = RowModified key r1 r2 (diffRowFields norm r1 r2)).
Proof.
  simpl. destruct (diffRowFields norm r1 r2); [left | right]; split;
    auto; discriminate.
Qed.

End WithNormalization.

End RowFacts.

(* ================================================================== *)
(** * Row matching: conservation, positional pairing, changes *)
(* ================================================================== *)

Module RowMatching.
Import JS Aux JSFacts MapFacts Comparator RowFacts.

Lemma compareRows_two_three norm key a1 a2 b1 b2 b3 :
  Forall (fun r => rowKey norm r = key) [a1; a2; b1; b2; b3] ->
  compareRows norm [a1; a2] [b1; b2; b3]
  = Some [slotDiff norm key (Both a1 b1); slotDiff norm key (Both a2 b2);
          RowAdded (Some key) b3].
Proof.
  intros H. rewrite compareRows_slots. f_equal.
  repeat match goal with
         | H : Forall _ (_ :: _) |- _ => inversion H; subst; clear H
         | H : Forall _ [] |- _ => clear H
         end.
  unfold rowSlots, rowKeys, rowsWithKey, buildRowMap. simpl.
  repeat match goal with H : rowKey norm _ = rowKey norm _ |- _ => rewrite H end.
  unfold JSMap.has, JSSet.of_list, JSSet.add, JSSet.has.
  repeat first [rewrite eqb_refl | progress cbn].
  reflexivity.
Qed.

(** The scenarios of the specification. *)
Example changed_status_is_modified :
  compareRows Normalize.normalizeForComparison [Sample.contactOld] [Sample.contactNew]
  = Some [RowModified (lit "SG2|CTA|3139") Sample.contactOld Sample.contactNew
            [{| field := lit "statusCol1"; old := lit "Muss"; new := lit "X" |}]].
Proof. reflexivity. Qed.

Example missing_label_is_removed :
  compareRows Normalize.normalizeForComparison
    [Sample.contactOld; Sample.labelOld] [Sample.contactOld]
  = Some [RowUnchanged (lit "SG2|CTA|3139") Sample.contactOld;
          RowRemoved (Some (lit "LABEL:Sendungsdaten")) Sample.labelOld].
Proof. reflexivity. Qed.

Lemma slot_new_rows norm key sl :
  Notions.diffNewRows (slotDiff norm key sl) ++ Notions.slotHidden norm sl
  = slotNew sl.
Proof.
  destruct sl as [r1 r2| |]; simpl; try reflexivity.
  destruct (diffRowFields norm r1 r2); reflexivity.
Qed.

Lemma slots_new_rows norm (slots : list (str * Slot)) :
  Permutation
    (flat_map Notions.diffNewRows
       (map (fun ks => slotDiff norm (fst ks) (snd ks)) slots)
     ++ flat_map (fun ks => Notions.slotHidden norm (snd ks)) slots)
    (flat_map slotNew (map snd slots)).
Proof.
  induction slots as [|[k sl] slots IH]; [constructor|]. cbn [map flat_map fst snd].
  rewrite <- (slot_new_rows norm k sl), <- IH, <- !app_assoc.
  apply Permutation_app_head. rewrite !app_assoc.
  apply Permutation_app_tail, Permutation_app_comm.
Qed.

Lemma slots_partners norm (slots : list (str * Slot)) :
  Forall2 (Notions.unchangedPartner norm)
    (filter (Notions.rowTypeIs Unchanged)
       (map (fun ks => slotDiff norm (fst ks) (snd ks)) slots))
    (flat_map (fun ks => Notions.slotHidden norm (snd ks)) slots).
Proof.
  induction slots as [|[k sl] slots IH]; [constructor|]. cbn [map flat_map fst snd].
  destruct sl as [r1 r2| |]; cbn [slotDiff Notions.slotHidden]; try exact IH.
  destruct (diffRowFields norm r1 r2) eqn:E; [|exact IH].
  cbn. constructor; [|exact IH]. now apply no_changes_sameFields.
Qed.

(** C3, as the code has it.  The row-matching pass conserves rows: every
    row of the old section is the old row of exactly one row diff, and every
    row of the new section is either the new row of exactly one row diff, an
    'added' or a 'modified' one, or the new row of exactly one 'unchanged'
    pair, whose diff holds the old row of the pair only; the six compared
    fields of the two agree.  No row is dropped, none is used twice. *)
Theorem compareRows_conserves_rows (norm : str -> str) (rows1 rows2 : list DbRow.t) :
  exists (diffs : list RowDiff) (partners : list DbRow.t),
    compareRows norm rows1 rows2 = Some diffs /\
    Permutation (flat_map diffOldRows diffs) rows1 /\
    Permutation (flat_map Notions.diffNewRows diffs ++ partners) rows2 /\
    Forall2 (Notions.unchangedPartner norm)
      (filter (Notions.rowTypeIs Unchanged) diffs) partners.
Proof.
  eexists.
  exists (flat_map (fun ks => Notions.slotHidden norm (snd ks))
            (rowSlots norm rows1 rows2)).
  split; [apply compareRows_slots|]. split; [|split].
  - rewrite flat_map_concat_map, map_map.
    rewrite (map_ext _ (fun ks => slotOld (snd ks))) by (intros; apply diffOldRows_slot).
    rewrite <- map_map, <- flat_map_concat_map, rowSlots_old.
    apply group_all; [apply rowKeys_nodup|]. intros r. apply rowKeys_old.
  - rewrite slots_new_rows, rowSlots_new.
    apply group_all; [apply rowKeys_nodup|]. intros r. apply rowKeys_new.
  - apply slots_partners.
Qed.

(** C3 as it is stated fails: of two rows that agree, the 'unchanged' diff
    holds the old one, and the new one is in no row diff. *)
Lemma compareRows_conserves_rows_counterexample :
  compareRows plain [Sample.old1] [Notions.old1Copy]
  = Some [RowUnchanged Sample.keyIC Sample.old1] /\
  compareRows Normalize.normalizeForComparison [Sample.old1] [Sample.new1]
  = Some [RowUnchanged Sample.keyIC Sample.old1] /\
  ~ In Notions.old1Copy
      (flat_map Notions.diffRows [RowUnchanged Sample.keyIC Sample.old1]) /\
  ~ In Sample.new1
      (flat_map Notions.diffRows [RowUnchanged Sample.keyIC Sample.old1]).
Proof.
  split; [reflexivity|]. split; [reflexivity|].
  split; simpl; intros [H|[]]; apply (f_equal DbRow.id) in H; discriminate H.
Qed.

(** C6.  For every key, the old and the new rows with that key are paired by
    position: the [i]-th diff of the key comes from the [i]-th old row and
    the [i]-th new row; where only one of them exists, it gives a 'removed'
    or an 'added' diff of its own.  Two old and three new rows with one key
    give two paired diffs and one 'added' diff for the third new row. *)
Theorem compareRows_pairs_by_position (norm : str -> str)
    (rows1 rows2 : list DbRow.t) (key : str) :
  exists diffs,
    compareRows norm rows1 rows2 = Some diffs /\
    (forall i,
       nth_error (filter (hasKey key) diffs) i
       = option_map (slotDiff norm key)
           (slotAt (nth_error (rowsWithKey norm key rows1) i)
                   (nth_error (rowsWithKey norm key rows2) i))) /\
    (forall a1 a2 b1 b2 b3,
       rows1 = [a1; a2] -> rows2 = [b1; b2; b3] ->
       Forall (fun r => rowKey norm r = key) (rows1 ++ rows2) ->
       diffs = [slotDiff norm key (Both a1 b1); slotDiff norm key (Both a2 b2);
                RowAdded (Some key) b3] /\
       Forall (fun d => rowDiffType d = Modified \/ rowDiffType d = Unchanged)
         [slotDiff norm key (Both a1 b1); slotDiff norm key (Both a2 b2)]).
Proof.
  eexists. split; [apply compareRows_slots|]. split.
  - intros i. rewrite compareRows_key_slots, nth_error_map, nth_error_zipSlots.
    reflexivity.
  - intros a1 a2 b1 b2 b3 -> -> H. split.
    + pose proof (compareRows_two_three norm key a1 a2 b1 b2 b3 H) as E.
      rewrite compareRows_slots in E. now injection E.
    + constructor; [|constructor; [|constructor]];
        match goal with
        | |- context [slotDiff norm key (Both ?a ?b)] =>
            destruct (slotDiff_both_type norm key a b) as [(_ & ->)|(_ & ->)];
              simpl; auto
        end.
Qed.

Lemma compareRows_pairs_by_position_witness :
  compareRows Normalize.normalizeForComparison
    [Sample.old1; Sample.old2] [Sample.new1; Sample.new2; Sample.new3]
  = Some [RowUnchanged Sample.keyIC Sample.old1;
          RowModified Sample.keyIC Sample.old2 Sample.new2
            [{| field := lit "statusCol1"; old := lit "Muss"; new := lit "X" |}];
          RowAdded (Some Sample.keyIC) Sample.new3].
Proof.
  destruct (compareRows_pairs_by_position Normalize.normalizeForComparison
              [Sample.old1; Sample.old2] [Sample.new1; Sample.new2; Sample.new3]
              Sample.keyIC) as (diffs & -> & _ & H).
  destruct (H _ _ _ _ _ eq_refl eq_refl) as (-> & _).
  - repeat constructor.
  - reflexivity.
Defined.

(** C10.  A 'modified' row diff always carries the non-empty list of field
    changes of its two rows, and a pair of rows at the same position whose
    compared fields all agree gives an 'unchanged' row diff. *)
Theorem compareRows_modified_has_changes (norm : str -> str)
    (rows1 rows2 : list DbRow.t) :
  exists diffs,
    compareRows norm rows1 rows2 = Some diffs /\
    Forall (fun d => forall key r1 r2 changes,
              d = RowModified key r1 r2 changes ->
              changes <> [] /\ changes = diffRowFields norm r1 r2 /\
              ~ sameFields norm r1 r2) diffs /\
    (forall key i r1 r2,
       nth_error (rowsWithKey norm key rows1) i = Some r1 ->
       nth_error (rowsWithKey norm key rows2) i = Some r2 ->
       sameFields norm r1 r2 ->
       nth_error (filter (hasKey key) diffs) i = Some (RowUnchanged key r1)).
Proof.
  eexists. split; [apply compareRows_slots|]. split.
  - apply Forall_forall. intros d Hd. apply in_map_iff in Hd.
    destruct Hd as ([k sl] & <- & _). simpl.
    intros key r1 r2 changes E. destruct sl as [a b| |]; try discriminate E.
    destruct (slotDiff_both_type norm k a b) as [(_ & E')|(Hne & E')];
      rewrite E' in E; [discriminate|]. injection E as <- <- <- <-.
    repeat split; auto. intros Hs. apply Hne. now apply sameFields_no_changes.
  - intros key i r1 r2 H1 H2 Hs.
    rewrite compareRows_key_slots, nth_error_map, nth_error_zipSlots, H1, H2.
    simpl. now rewrite (sameFields_no_changes norm r1 r2 Hs).
Qed.

Lemma compareRows_modified_has_changes_witness :
  exists diffs,
    compareRows Normalize.normalizeForComparison
      [Sample.old1; Sample.old2] [Sample.new1; Sample.new2] = Some diffs /\
    nth_error (filter (hasKey Sample.keyIC) diffs) 0
    = Some (RowUnchanged Sample.keyIC Sample.old1).
Proof.
  destruct (compareRows_modified_has_changes Normalize.normalizeForComparison
              [Sample.old1; Sample.old2] [Sample.new1; Sample.new2])
    as (diffs & E & _ & H).
  exists diffs. split; [exact E|].
  apply (H Sample.keyIC 0%nat Sample.old1 Sample.new1).
  - reflexivity.
  - reflexivity.
  - repeat split; reflexivity.
Defined.

End RowMatching.

(* ================================================================== *)
(** * Properties of the section matching *)
(* ================================================================== *)

Module SectionFacts.
Import JS Aux JSFacts MapFacts Comparator RowFacts.

(** ** The stable sort permutes *)

Lemma insert_perm d l : Permutation (insert d l) (d :: l).
Proof.
  induction l as [|e l IH]; simpl; [apply Permutation_refl|].
  destruct (order (sectionDiffType d) <=? order (sectionDiffType e)).
  - apply Permutation_refl.
  - eapply Permutation_trans; [apply perm_skip, IH | apply perm_swap].
Qed.

Lemma sort_perm l : Permutation (sort l) l.
Proof.
  induction l as [|d l IH]; simpl; [constructor|].
  eapply Permutation_trans; [apply insert_perm | now apply perm_skip].
Qed.

Lemma filter_perm {A} (p : A -> bool) l l' :
  Permutation l l' -> Permutation (filter p l) (filter p l').
Proof.
  induction 1; simpl.
  - constructor.
  - destruct (p x); [now apply perm_skip | assumption].
  - destruct (p x); destruct (p y); try apply Permutation_refl. apply perm_swap.
  - eapply Permutation_trans; eauto.
Qed.

Lemma filter_sort_singleton p l d : filter p l = [d] -> filter p (sort l) = [d].
Proof.
  intros H. apply Permutation_length_1_inv.
  rewrite <- H. apply Permutation_sym, filter_perm, sort_perm.
Qed.

Lemma Forall2_in_right {A B} (R : A -> B -> Prop) l1 l2 y :
  Forall2 R l1 l2 -> In y l2 -> exists x, In x l1 /\ R x y.
Proof.
  induction 1 as [|a b l1 l2 Hab _ IH]; simpl; [contradiction|].
  intros [<-|Hy]; [exists a; auto|].
  destruct (IH Hy) as (x & Hx & HR). exists x; auto.
Qed.

(** ** The section map keeps the first section of every key *)


Lemma pruefMapStep_get map section k :
  JSMap.get k (pruefMapStep map section)
  = match JSMap.get k map with
    | Some s => Some s
    | None => if eqb (DbSection.pruefidentifikator section) k
              then Some section else None
    end.
Proof.
  unfold pruefMapStep, JSMap.has.
  destruct (eqb_spec (DbSection.pruefidentifikator section) k) as [<-|Hne].
  - destruct (JSMap.get _ map) eqn:E; simpl; [now rewrite E|].
    apply get_set_same.
  - destruct (JSMap.get (DbSection.pruefidentifikator section) map) eqn:E; simpl.
    + now destruct (JSMap.get k map).
    + rewrite get_set_other by assumption. now destruct (JSMap.get k map).
Qed.

Lemma buildPruefMap_fold sections : forall map k,
  JSMap.get k (fold_left pruefMapStep sections map)
  = match JSMap.get k map with
    | Some s => Some s
    | None => findSection k sections
    end.
Proof.
  induction sections as [|s sections IH]; intros map k; simpl.
  - now destruct (JSMap.get k map).
  - rewrite IH, pruefMapStep_get. destruct (JSMap.get k map); [reflexivity|].
    now destruct (eqb (DbSection.pruefidentifikator s) k).
Qed.

Lemma buildPruefMap_get sections k :
  JSMap.get k (buildPruefMap sections) = findSection k sections.
Proof. exact (buildPruefMap_fold sections [] k). Qed.

Lemma findSection_some key sections s :
  findSection key sections = Some s ->
  In s sections /\ DbSection.pruefidentifikator s = key.
Proof.
  intros H. apply find_some in H. destruct H as (Hin & E).
  apply eqb_eq in E. auto.
Qed.

Lemma findSection_in key sections :
  In key (map DbSection.pruefidentifikator sections) ->
  exists s, findSection key sections = Some s.
Proof.
  intros H. apply in_map_iff in H. destruct H as (s & E & Hin).
  destruct (findSection key sections) as [s'|] eqn:F; [eauto|].
  exfalso. apply (find_none _ _ F) in Hin. rewrite E, eqb_refl in Hin. discriminate.
Qed.

Lemma findSection_notin key sections :
  ~ In key (map DbSection.pruefidentifikator sections) ->
  findSection key sections = None.
Proof.
  intros H. destruct (findSection key sections) as [s|] eqn:F; [|reflexivity].
  exfalso. apply findSection_some in F. destruct F as (Hin & <-).
  apply H, in_map, Hin.
Qed.

Lemma buildPruefMap_keys sections k :
  In k (JSMap.keys (buildPruefMap sections))
  <-> In k (map DbSection.pruefidentifikator sections).
Proof.
  split.
  - intros H. apply keys_get_some in H. destruct H as (s & H).
    rewrite buildPruefMap_get in H. apply findSection_some in H.
    destruct H as (Hin & <-). now apply in_map.
  - intros H. apply findSection_in in H. destruct H as (s & H).
    rewrite <- buildPruefMap_get in H. eapply get_some_keys; eauto.
Qed.

Lemma docKeys_in db docId1 docId2 k :
  In k (docKeys db docId1 docId2)
  <-> In k (sectionKeys db docId1) \/ In k (sectionKeys db docId2).
Proof.
  unfold docKeys. rewrite of_list_in, in_app_iff, !buildPruefMap_keys. reflexivity.
Qed.

Lemma docKeys_nodup db docId1 docId2 : NoDup (docKeys db docId1 docId2).
Proof. apply of_list_nodup. Qed.

Section WithNormalization.
Variable norm : str -> str.
Variable db : Database.

(** ** The loop pushes one section diff per key *)

Lemma compareSection_entry sections1 sections2 key sum ds :
  (exists s, findSection key sections1 = Some s) \/
  (exists s, findSection key sections2 = Some s) ->
  exists d,
    sectionEntry norm db sections1 sections2 key d /\
    compareSection norm db (buildPruefMap sections1) (buildPruefMap sections2)
      key (sum, ds)
    = Some (bump (sectionDiffType d) sum, ds ++ [d]).
Proof.
  intros H. unfold compareSection, sectionEntry. rewrite !buildPruefMap_get.
  destruct (findSection key sections1) as [s1|];
    destruct (findSection key sections2) as [s2|].
  - rewrite compareRows_slots. eexists. split; [reflexivity|].
    simpl. fold changed.
    destruct (existsb changed _ || checkMetaChanges norm s1 s2); reflexivity.
  - eexists. split; reflexivity.
  - eexists. split; reflexivity.
  - destruct H as [(s & H)|(s & H)]; discriminate.
Qed.

Lemma compareSections_entries sections1 sections2 : forall keys sum ds,
  (forall k, In k keys ->
     (exists s, findSection k sections1 = Some s) \/
     (exists s, findSection k sections2 = Some s)) ->
  exists ds',
    Forall2 (sectionEntry norm db sections1 sections2) keys ds' /\
    compareSections norm db (buildPruefMap sections1) (buildPruefMap sections2)
      keys (sum, ds)
    = Some (countInto sum ds', ds ++ ds').
Proof.
  induction keys as [|k keys IH]; intros sum ds H.
  - exists []. split; [constructor|]. simpl. now rewrite app_nil_r.
  - destruct (compareSection_entry sections1 sections2 k sum ds) as (d & Hd & E).
    { apply H. now left. }
    destruct (IH (bump (sectionDiffType d) sum) (ds ++ [d])) as (ds' & Hds & E').
    { intros k' Hk'. apply H. now right. }
    exists (d :: ds'). split; [now constructor|].
    cbn [compareSections]. rewrite E, E'. simpl. now rewrite <- app_assoc.
Qed.

(** ** What [compareDocuments] computes *)

Lemma compareDocuments_entries docId1 docId2 :
  exists ds,
    Forall2 (sectionEntry norm db (getSections db docId1) (getSections db docId2))
      (docKeys db docId1 docId2) ds /\
    compareDocuments norm db docId1 docId2
    = Some {| summary := countInto noSummary ds; sectionDiffs := sort ds |}.
Proof.
  destruct (compareSections_entries (getSections db docId1) (getSections db docId2)
              (docKeys db docId1 docId2) noSummary []) as (ds & Hds & E).
  { intros k Hk. apply docKeys_in in Hk.
    destruct Hk as [Hk|Hk]; [left | right]; now apply findSection_in. }
  exists ds. split; [exact Hds|].
  unfold compareDocuments. fold (docKeys db docId1 docId2).
  fold noSummary. rewrite E. reflexivity.
Qed.

Lemma sectionEntry_key sections1 sections2 key d :
  sectionEntry norm db sections1 sections2 key d -> sectionDiffKey d = key.
Proof.
  unfold sectionEntry.
  destruct (findSection key sections1); destruct (findSection key sections2);
    intros H; subst; try reflexivity; contradiction.
Qed.

Lemma entries_filter sections1 sections2 key : forall keys ds,
  Forall2 (sectionEntry norm db sections1 sections2) keys ds ->
  NoDup keys -> In key keys ->
  exists d, sectionEntry norm db sections1 sections2 key d /\
            filter (fun d => eqb (sectionDiffKey d) key) ds = [d].
Proof.
  induction 1 as [|k d keys ds Hd Hds IH]; intros Hnd Hin; [contradiction|].
  inversion Hnd as [|? ? Hk Hnd']; subst. simpl.
  rewrite (sectionEntry_key _ _ _ _ Hd).
  destruct Hin as [->|Hin].
  - rewrite eqb_refl. exists d. split; [assumption|]. f_equal.
    apply filter_none. intros d' Hd'.
    destruct (Forall2_in_right _ _ _ _ Hds Hd') as (k' & Hk' & He).
    rewrite (sectionEntry_key _ _ _ _ He). apply eqb_neq. intros ->. contradiction.
  - destruct (eqb_spec k key) as [->|_]; [contradiction|]. now apply IH.
Qed.

End WithNormalization.

End SectionFacts.

(* ================================================================== *)
(** * Section matching: changed code sets, identical copies *)
(* ================================================================== *)

Module SectionMatching.
Import JS Aux JSFacts MapFacts Comparator RowFacts SectionFacts.

(** ** Copies *)

Lemma sameRow_key norm r1 r2 : sameRow r1 r2 -> rowKey norm r1 = rowKey norm r2.
Proof.
  intros (H1 & H2 & H3 & H4 & H5 & H6 & H7 & H8 & H9).
  unfold rowKey. now rewrite H1, H2, H3, H4, H5, H9.
Qed.

Lemma sameRow_fields norm r1 r2 : sameRow r1 r2 -> sameFields norm r1 r2.
Proof.
  intros (H1 & H2 & H3 & H4 & H5 & H6 & H7 & H8 & H9).
  unfold sameFields. now rewrite H2, H3, H5, H6, H7, H8.
Qed.

Lemma sameRows_with_key norm k l1 l2 :
  Forall2 sameRow l1 l2 ->
  Forall2 sameRow (rowsWithKey norm k l1) (rowsWithKey norm k l2).
Proof.
  induction 1 as [|r1 r2 l1 l2 Hr _ IH]; simpl; [constructor|].
  rewrite (sameRow_key norm r1 r2 Hr).
  destruct (eqb (rowKey norm r2) k); [now constructor | assumption].
Qed.

Lemma sameRows_zip norm k l1 l2 :
  Forall2 sameRow l1 l2 ->
  Forall (fun d => rowDiffType d = Unchanged)
    (map (slotDiff norm k) (zipSlots l1 l2)).
Proof.
  induction 1 as [|r1 r2 l1 l2 Hr _ IH]; simpl; [constructor|].
  constructor; [|exact IH].
  now rewrite (sameFields_no_changes norm r1 r2 (sameRow_fields norm r1 r2 Hr)).
Qed.

Lemma sameRows_unchanged norm rows1 rows2 :
  Forall2 sameRow rows1 rows2 ->
  Forall (fun d => rowDiffType d = Unchanged)
    (map (fun ks => slotDiff norm (fst ks) (snd ks)) (rowSlots norm rows1 rows2)).
Proof.
  intros H. apply Forall_forall. intros d Hd.
  apply in_map_iff in Hd. destruct Hd as ([k sl] & <- & Hd).
  apply in_flat_map in Hd. destruct Hd as (k' & _ & Hd).
  apply in_map_iff in Hd. destruct Hd as (sl' & [= <- <-] & Hsl).
  pose proof (sameRows_zip norm k' _ _ (sameRows_with_key norm k' _ _ H)) as HF.
  rewrite Forall_forall in HF. apply HF. now apply in_map.
Qed.

Lemma unchanged_not_changed ds :
  Forall (fun d => rowDiffType d = Unchanged) ds -> existsb changed ds = false.
Proof.
  induction 1 as [|d ds Hd _ IH]; simpl; [reflexivity|].
  unfold changed at 1. now rewrite Hd.
Qed.

Lemma copy_find db l1 l2 k :
  Forall2 (sameSection db) l1 l2 ->
  match findSection k l1, findSection k l2 with
  | Some s1, Some s2 => sameSection db s1 s2
  | None, None => True
  | _, _ => False
  end.
Proof.
  unfold findSection. induction 1 as [|s1 s2 l1 l2 Hs _ IH]; simpl; [exact I|].
  destruct Hs as (H1 & H2 & H3 & H4 & H5 & H6). rewrite H2.
  destruct (eqb (DbSection.pruefidentifikator s2) k); [|exact IH].
  repeat split; assumption.
Qed.

Lemma sameSection_meta norm db s1 s2 :
  sameSection db s1 s2 -> checkMetaChanges norm s1 s2 = false.
Proof.
  intros (H1 & H2 & H3 & H4 & H5 & H6). unfold checkMetaChanges, differ.
  now rewrite H1, H3, H4, H5, !eqb_refl.
Qed.

Lemma copy_entry norm db docId1 docId2 k d :
  copyOf db docId1 docId2 ->
  sectionEntry norm db (getSections db docId1) (getSections db docId2) k d ->
  allUnchanged d.
Proof.
  intros Hc Hd. pose proof (copy_find db _ _ k Hc) as Hf. unfold sectionEntry in Hd.
  destruct (findSection k (getSections db docId1)) as [s1|];
    destruct (findSection k (getSections db docId2)) as [s2|]; try contradiction.
  pose proof Hf as (_ & _ & _ & _ & _ & Hrows).
  pose proof (sameRows_unchanged norm _ _ Hrows) as Hu.
  simpl in Hd. rewrite (sameSection_meta norm db s1 s2 Hf) in Hd.
  rewrite (unchanged_not_changed _ Hu) in Hd. simpl in Hd. subst d.
  split; [reflexivity | exact Hu].
Qed.

Lemma countInto_unchanged ds : forall s,
  Forall (fun d => sectionDiffType d = Unchanged) ds ->
  countInto s ds
  = {| added := added s; removed := removed s; modified := modified s;
       unchanged := unchanged s + length ds |}.
Proof.
  induction ds as [|d ds IH]; intros s H; simpl.
  - rewrite Nat.add_0_r. now destruct s.
  - inversion H as [|? ? Hd Hds]; subst. unfold countInto in *. simpl.
    rewrite IH by assumption. rewrite Hd. simpl. f_equal. lia.
Qed.

(** ** The keys of the section map are the distinct keys, in order *)

Lemma has_keys {V} k (m : JSMap.t V) : JSMap.has k m = JSSet.has k (JSMap.keys m).
Proof.
  apply eq_true_iff_eq. rewrite has_true, set_has. split.
  - intros (v & H). eapply get_some_keys; eauto.
  - apply keys_get_some.
Qed.

Lemma keys_set_new {V} k (v : V) m :
  JSMap.get k m = None -> JSMap.keys (JSMap.set k v m) = JSMap.keys m ++ [k].
Proof.
  induction m as [|[k0 v0] m IH]; simpl; [reflexivity|].
  destruct (eqb k0 k); [discriminate|]. intros H. simpl. now rewrite IH.
Qed.

Lemma pruefMapStep_keys map section :
  JSMap.keys (pruefMapStep map section)
  = JSSet.add (DbSection.pruefidentifikator section) (JSMap.keys map).
Proof.
  unfold pruefMapStep, JSSet.add. rewrite <- has_keys. unfold JSMap.has.
  destruct (JSMap.get _ map) eqn:E; simpl; [reflexivity|].
  now apply keys_set_new.
Qed.

Lemma buildPruefMap_keys_fold sections : forall m,
  JSMap.keys (fold_left pruefMapStep sections m)
  = fold_left (fun s key => JSSet.add key s)
      (map DbSection.pruefidentifikator sections) (JSMap.keys m).
Proof.
  induction sections as [|s sections IH]; intros m; simpl; [reflexivity|].
  now rewrite IH, pruefMapStep_keys.
Qed.

Lemma buildPruefMap_keys_list sections :
  JSMap.keys (buildPruefMap sections)
  = JSSet.of_list (map DbSection.pruefidentifikator sections).
Proof. exact (buildPruefMap_keys_fold sections []). Qed.

Lemma fold_add_present l : forall acc,
  (forall k, In k l -> In k acc) ->
  fold_left (fun s key => JSSet.add key s) l acc = acc.
Proof.
  induction l as [|k l IH]; intros acc H; simpl; [reflexivity|].
  unfold JSSet.add at 2.
  assert (Hk : JSSet.has k acc = true) by (apply set_has, H; now left).
  rewrite Hk. apply IH. intros k' Hk'. apply H. now right.
Qed.

Lemma fold_add_fresh l : forall acc,
  NoDup (acc ++ l) -> fold_left (fun s key => JSSet.add key s) l acc = acc ++ l.
Proof.
  induction l as [|k l IH]; intros acc H; simpl; [now rewrite app_nil_r|].
  assert (Hk : JSSet.has k acc = false).
  { destruct (JSSet.has k acc) eqn:E; [|reflexivity]. apply set_has in E.
    apply NoDup_remove_2 in H. exfalso. apply H, in_or_app. now left. }
  unfold JSSet.add at 2. rewrite Hk. rewrite IH.
  - now rewrite <- app_assoc.
  - now rewrite <- app_assoc.
Qed.

Lemma of_list_twice l :
  JSSet.of_list (JSSet.of_list l ++ JSSet.of_list l) = JSSet.of_list l.
Proof.
  unfold JSSet.of_list at 1. rewrite fold_left_app.
  rewrite (fold_add_fresh (JSSet.of_list l) []) by apply of_list_nodup.
  apply fold_add_present. auto.
Qed.

Lemma of_list_nodup_id l : NoDup l -> JSSet.of_list l = l.
Proof. intros H. exact (fold_add_fresh l [] H). Qed.

Lemma copy_keys db docId1 docId2 :
  copyOf db docId1 docId2 -> sectionKeys db docId2 = sectionKeys db docId1.
Proof.
  unfold copyOf, sectionKeys.
  induction 1 as [|s1 s2 l1 l2 (_ & H & _) _ IH]; simpl; [reflexivity|].
  now rewrite IH, H.
Qed.

Lemma copy_docKeys db docId1 docId2 :
  copyOf db docId1 docId2 ->
  docKeys db docId1 docId2 = JSSet.of_list (sectionKeys db docId1).
Proof.
  intros H. unfold docKeys. rewrite !buildPruefMap_keys_list.
  fold (sectionKeys db docId1). fold (sectionKeys db docId2).
  rewrite (copy_keys db docId1 docId2 H). apply of_list_twice.
Qed.

(** ** Matched sections have one key *)

Lemma entry_matched_keys norm db sections1 sections2 key d :
  sectionEntry norm db sections1 sections2 key d ->
  forall t k so sn mc rows, d = SectionMatched t k so sn mc rows ->
    k = key /\ DbSection.pruefidentifikator so = k /\
    DbSection.pruefidentifikator sn = k.
Proof.
  unfold sectionEntry. intros H t k so sn mc rows E.
  destruct (findSection key sections1) as [s1|] eqn:F1;
    destruct (findSection key sections2) as [s2|] eqn:F2;
    try contradiction; rewrite E in H; try discriminate H.
  injection H as _ -> -> -> _ _.
  apply findSection_some in F1, F2. destruct F1 as (_ & ->). destruct F2 as (_ & E2).
  auto.
Qed.

(** C1.  Section matching goes by the whole key string, not by overlap of
    the code sets.  A section diff that matches two sections always matches
    sections with one and the same key string.  A key that only the old
    document has, such as "21025,21026,21027" when the new document has
    "21025,21027" instead, gets exactly one section diff, which is
    'removed'; a key that only the new document has gets exactly one, which
    is 'added'. *)
Theorem changed_code_set_is_removed_plus_added (norm : str -> str)
    (db : Database) (docId1 docId2 : Z) :
  exists result,
    compareDocuments norm db docId1 docId2 = Some result /\
    Forall (fun d => forall t k so sn mc rows,
              d = SectionMatched t k so sn mc rows ->
              DbSection.pruefidentifikator so = k /\
              DbSection.pruefidentifikator sn = k)
      (sectionDiffs result) /\
    (forall key1,
       In key1 (sectionKeys db docId1) -> ~ In key1 (sectionKeys db docId2) ->
       exists s1,
         findSection key1 (getSections db docId1) = Some s1 /\
         filter (fun d => eqb (sectionDiffKey d) key1) (sectionDiffs result)
         = [SectionRemoved key1 s1
              (map (fun r => RowRemoved None r) (getRows db (DbSection.id s1)))]) /\
    (forall key2,
       In key2 (sectionKeys db docId2) -> ~ In key2 (sectionKeys db docId1) ->
       exists s2,
         findSection key2 (getSections db docId2) = Some s2 /\
         filter (fun d => eqb (sectionDiffKey d) key2) (sectionDiffs result)
         = [SectionAdded key2 s2
              (map (fun r => RowAdded None r) (getRows db (DbSection.id s2)))]).
Proof.
  destruct (compareDocuments_entries norm db docId1 docId2) as (ds & Hds & E).
  eexists. split; [exact E|]. simpl. split; [|split].
  - apply Forall_forall. intros d Hd.
    apply (Permutation_in _ (sort_perm ds)) in Hd.
    destruct (Forall2_in_right _ _ _ _ Hds Hd) as (k & _ & He).
    intros t k' so sn mc rows Ed.
    destruct (entry_matched_keys norm db _ _ k d He _ _ _ _ _ _ Ed) as (_ & Ho & Hn).
    auto.
  - intros key1 H1 H1'.
    destruct (findSection_in key1 _ H1) as (s1 & F1).
    pose proof (findSection_notin key1 _ H1') as F1'.
    exists s1. split; [exact F1|]. apply filter_sort_singleton.
    destruct (entries_filter norm db _ _ key1 _ _ Hds (docKeys_nodup _ _ _))
      as (d & Hd & Hf).
    { apply docKeys_in. now left. }
    unfold sectionEntry in Hd. rewrite F1, F1' in Hd. now subst d.
  - intros key2 H2 H2'.
    destruct (findSection_in key2 _ H2) as (s2 & F2).
    pose proof (findSection_notin key2 _ H2') as F2'.
    exists s2. split; [exact F2|]. apply filter_sort_singleton.
    destruct (entries_filter norm db _ _ key2 _ _ Hds (docKeys_nodup _ _ _))
      as (d & Hd & Hf).
    { apply docKeys_in. now right. }
    unfold sectionEntry in Hd. rewrite F2, F2' in Hd. now subst d.
Qed.

Lemma changed_code_set_is_removed_plus_added_witness :
  exists result,
    compareDocuments Normalize.normalizeForComparison Sample.overlapDb 1 2
    = Some result /\
    filter (fun d => eqb (sectionDiffKey d) (lit "21025,21026,21027"))
      (sectionDiffs result)
    = [SectionRemoved (lit "21025,21026,21027") Sample.oldWide
         [RowRemoved None Sample.old1; RowRemoved None Sample.old2]] /\
    filter (fun d => eqb (sectionDiffKey d) (lit "21025,21027"))
      (sectionDiffs result)
    = [SectionAdded (lit "21025,21027") Sample.newNarrow
         [RowAdded None Sample.new1; RowAdded None Sample.new2;
          RowAdded None Sample.new3]].
Proof.
  destruct (changed_code_set_is_removed_plus_added
              Normalize.normalizeForComparison Sample.overlapDb 1 2)
    as (result & E & _ & R & A).
  exists result. split; [exact E|]. split.
  - destruct (R (lit "21025,21026,21027")) as (s1 & F1 & H).
    + simpl. left. reflexivity.
    + simpl. intros [H|[H|[]]]; discriminate H.
    + injection F1 as <-. exact H.
  - destruct (A (lit "21025,21027")) as (s2 & F2 & H).
    + simpl. left. reflexivity.
    + simpl. intros [H|[H|[]]]; discriminate H.
    + injection F2 as <-. exact H.
Defined.

(** C2, as the code has it.  Comparing a document with an identical copy of
    itself gives the summary {added:0, removed:0, modified:0, unchanged:N}
    where N is the number of distinct section keys of the document, which is
    its section count when no key occurs twice; every section diff and every
    row diff in it is 'unchanged'. *)
Theorem identical_copy_all_unchanged (norm : str -> str) (db : Database)
    (docId1 docId2 : Z) :
  copyOf db docId1 docId2 ->
  exists result,
    compareDocuments norm db docId1 docId2 = Some result /\
    summary result
    = {| added := 0; removed := 0; modified := 0;
         unchanged := length (JSSet.of_list (sectionKeys db docId1)) |} /\
    (NoDup (sectionKeys db docId1) ->
     unchanged (summary result) = length (getSections db docId1)) /\
    Forall allUnchanged (sectionDiffs result).
Proof.
  intros Hc.
  destruct (compareDocuments_entries norm db docId1 docId2) as (ds & Hds & E).
  assert (Hall : Forall allUnchanged ds).
  { apply Forall_forall. intros d Hd.
    destruct (Forall2_in_right _ _ _ _ Hds Hd) as (k & _ & He).
    eapply copy_entry; eauto. }
  assert (Hsum : countInto noSummary ds
                 = {| added := 0; removed := 0; modified := 0;
                      unchanged := length (JSSet.of_list (sectionKeys db docId1)) |}).
  { rewrite countInto_unchanged.
    - simpl. f_equal. rewrite <- (Forall2_length Hds).
      now rewrite (copy_docKeys db docId1 docId2 Hc).
    - eapply Forall_impl; [|exact Hall]. now intros d (Hd & _). }
  eexists. split; [exact E|]. simpl. split; [exact Hsum|]. split.
  - intros Hnd. rewrite Hsum. simpl. rewrite (of_list_nodup_id _ Hnd).
    unfold sectionKeys. apply length_map.
  - apply Forall_forall. intros d Hd.
    apply (Permutation_in _ (sort_perm ds)) in Hd.
    rewrite Forall_forall in Hall. now apply Hall.
Qed.

Lemma repeatedDb_copy : copyOf Sample.repeatedDb 1 2.
Proof.
  unfold copyOf, sameSection. simpl.
  repeat (constructor; [repeat split; try reflexivity;
                        repeat (constructor; [repeat split; reflexivity|]);
                        constructor|]).
  constructor.
Qed.

Lemma identical_copy_all_unchanged_witness :
  exists result,
    compareDocuments Normalize.normalizeForComparison Sample.repeatedDb 1 2
    = Some result /\
    summary result = {| added := 0; removed := 0; modified := 0; unchanged := 2 |} /\
    Forall allUnchanged (sectionDiffs result).
Proof.
  destruct (identical_copy_all_unchanged Normalize.normalizeForComparison
              Sample.repeatedDb 1 2 repeatedDb_copy) as (result & E & S & _ & U).
  exists result. split; [exact E|]. split; [exact S | exact U].
Defined.

(** C2 as it is stated fails: the document of [Sample.repeatedDb] has three
    sections, and comparing it with its copy counts two unchanged sections. *)
Lemma identical_copy_counterexample :
  ~ (forall (norm : str -> str) (db : Database) (docId1 docId2 : Z),
       copyOf db docId1 docId2 ->
       exists result,
         compareDocuments norm db docId1 docId2 = Some result /\
         summary result
         = {| added := 0; removed := 0; modified := 0;
              unchanged := length (getSections db docId1) |}).
Proof.
  intros H.
  destruct (H Normalize.normalizeForComparison Sample.repeatedDb 1%Z 2%Z repeatedDb_copy)
    as (result & E & S).
  vm_compute in E. injection E as <-. vm_compute in S. discriminate S.
Qed.

End SectionMatching.

(* ================================================================== *)
(** * The compound row key *)
(* ================================================================== *)

Module RowKey.
Import JS Aux Notions JSFacts Comparator NormalizeFacts.

Lemma split_ws_from_first s : forall cur,
  nth 0 (split_ws_from cur false s) [] = cur ++ upToWs s.
Proof.
  induction s as [|c t IH]; intros cur; simpl.
  - now rewrite app_nil_r.
  - destruct (isws c); simpl; [now rewrite app_nil_r|].
    rewrite IH, <- app_assoc. reflexivity.
Qed.

Lemma split_ws_first s : nth 0 (split_ws s) [] = upToWs s.
Proof. exact (split_ws_from_first s []). Qed.

Lemma join_bar parts : join (lit "|") parts = barJoined parts.
Proof.
  destruct parts as [|p rest]; [reflexivity|]. simpl barJoined.
  revert p. induction rest as [|q rest IH]; intros p; simpl.
  - now rewrite app_nil_r.
  - f_equal. f_equal. exact (IH q).
Qed.

Lemma truthy_nonEmpty values : filter truthy values = nonEmpty values.
Proof.
  unfold nonEmpty. apply filter_ext. intros [|c t]; reflexivity.
Qed.

Lemma truthy_true s : truthy s = true <-> s <> [].
Proof. destruct s; simpl; split; congruence. Qed.

Lemma iscode_spec c :
  iscode c = true <-> (65 <= c <= 90 \/ 48 <= c <= 57 \/ c = 95)%N.
Proof.
  unfold iscode, isupper, isdigit, between.
  rewrite !orb_true_iff, !andb_true_iff, !N.leb_le, N.eqb_eq. tauto.
Qed.

Lemma looksLikeCode_spec w : looksLikeCode w = true <-> CodeToken w.
Proof.
  unfold looksLikeCode, CodeToken.
  rewrite !andb_true_iff, !Nat.leb_le, forallb_forall, Forall_forall.
  split.
  - intros ((H1 & H2) & H3). repeat split; auto.
    intros c Hc. apply iscode_spec, H3, Hc.
  - intros ((H1 & H2) & H3). repeat split; auto.
    intros c Hc. apply iscode_spec, H3, Hc.
Qed.

Lemma no_parts a b c :
  (length (filter truthy [a; b; c]) =? 0) = true <-> a = [] /\ b = [] /\ c = [].
Proof.
  destruct a, b, c; simpl; split; intros H; try discriminate H; auto;
    destruct H as (? & ? & ?); discriminate.
Qed.

Lemma some_parts a b c :
  (length (filter truthy [a; b; c]) =? 0) = false <-> ~ (a = [] /\ b = [] /\ c = []).
Proof.
  rewrite <- no_parts. split.
  - intros H; rewrite H; discriminate.
  - intros H. now apply not_true_is_false.
Qed.

(** Where the description starts with no white space, the first piece of
    [split(/\s+/)] is the first token, and the key is the specified one. *)
Lemma rowKey_refines (norm : str -> str) (row : DbRow.t) (key : str) :
  drop_ws (norm (DbRow.beschreibung row)) = norm (DbRow.beschreibung row) ->
  (KeyOf norm row key <-> key = rowKey norm row).
Proof.
  intros Htrim.
  assert (Hword : nth 0 (split_ws (norm (DbRow.beschreibung row))) []
                  = firstToken (norm (DbRow.beschreibung row))).
  { rewrite split_ws_first. unfold firstToken. now rewrite Htrim. }
  split.
  - intros H. unfold rowKey.
    destruct H as [Hl | Hl H1 H2 H3 | Hl Hne Hde Htok | Hl Hne Hno]; rewrite Hl.
    + reflexivity.
    + rewrite (proj2 (no_parts _ _ _) (conj H1 (conj H2 H3))). reflexivity.
    + rewrite (proj2 (some_parts _ _ _) Hne), Hword.
      rewrite (proj2 (looksLikeCode_spec _) Htok).
      rewrite (proj2 (truthy_true _) Hde). simpl andb. cbv iota.
      now rewrite join_bar, truthy_nonEmpty.
    + rewrite (proj2 (some_parts _ _ _) Hne), Hword.
      destruct (looksLikeCode (firstToken (norm (DbRow.beschreibung row)))
                && truthy (norm (DbRow.dataElement row))) eqn:E.
      * exfalso. apply Hno. apply andb_true_iff in E. destruct E as (E1 & E2).
        split; [now apply truthy_true | now apply looksLikeCode_spec].
      * now rewrite join_bar, truthy_nonEmpty.
  - intros ->. unfold rowKey.
    destruct (DbRow.isLabel row) eqn:Hl; [now apply key_label|].
    destruct (length (filter truthy _) =? 0) eqn:Hp.
    + apply no_parts in Hp. destruct Hp as (H1 & H2 & H3). now apply key_position.
    + apply some_parts in Hp. rewrite Hword.
      destruct (looksLikeCode (firstToken (norm (DbRow.beschreibung row)))
                && truthy (norm (DbRow.dataElement row))) eqn:E.
      * apply andb_true_iff in E. destruct E as (E1 & E2).
        rewrite join_bar, truthy_nonEmpty.
        apply key_structure_and_code; auto;
          [now apply truthy_true | now apply looksLikeCode_spec].
      * rewrite join_bar, truthy_nonEmpty. apply key_structure; auto.
        intros (Hde & Htok). apply truthy_true in Hde.
        apply looksLikeCode_spec in Htok. rewrite Hde, Htok in E. discriminate.
Qed.

(** Where the first piece of [split(/\s+/)] is empty and the first token is
    not one to append, the key is the specified one as well. *)
Lemma rowKey_refines_no_code (norm : str -> str) (row : DbRow.t) (key : str) :
  DbRow.isLabel row = true \/
  (nth 0 (split_ws (norm (DbRow.beschreibung row))) [] = [] /\
   ~ (norm (DbRow.dataElement row) <> [] /\
      CodeToken (firstToken (norm (DbRow.beschreibung row))))) ->
  (KeyOf norm row key <-> key = rowKey norm row).
Proof.
  assert (Hempty : looksLikeCode [] = false) by reflexivity.
  intros [Hlabel|(Hword & Hno)].
  - unfold rowKey. rewrite Hlabel. split.
    + intros H. destruct H as [Hl | Hl _ _ _ | Hl _ _ _ | Hl _ _]; congruence.
    + intros ->. now apply key_label.
  - split.
    + intros H. unfold rowKey.
      destruct H as [Hl | Hl H1 H2 H3 | Hl Hne Hde Htok | Hl Hne Hno']; rewrite Hl.
      * reflexivity.
      * rewrite (proj2 (no_parts _ _ _) (conj H1 (conj H2 H3))). reflexivity.
      * exfalso. apply Hno. now split.
      * rewrite (proj2 (some_parts _ _ _) Hne), Hword, Hempty.
        simpl andb. cbv iota. now rewrite join_bar, truthy_nonEmpty.
    + intros ->. unfold rowKey.
      destruct (DbRow.isLabel row) eqn:Hl; [now apply key_label|].
      destruct (length (filter truthy _) =? 0) eqn:Hp.
      * apply no_parts in Hp. destruct Hp as (H1 & H2 & H3). now apply key_position.
      * apply some_parts in Hp. rewrite Hword, Hempty.
        simpl andb. cbv iota.
        rewrite join_bar, truthy_nonEmpty. now apply key_structure.
Qed.

Lemma upToWs_behind_space s : drop_ws s <> s -> upToWs s = [].
Proof.
  destruct s as [|c t]; simpl; [congruence|].
  destruct (isws c); [reflexivity | congruence].
Qed.

Lemma rowKey_refines_but (norm : str -> str) (row : DbRow.t) (key : str) :
  ~ tokenBehindSpace norm row ->
  (KeyOf norm row key <-> key = rowKey norm row).
Proof.
  intros Hno.
  destruct (list_eq_dec N.eq_dec (drop_ws (norm (DbRow.beschreibung row)))
              (norm (DbRow.beschreibung row))) as [E|E];
    [now apply rowKey_refines|].
  apply rowKey_refines_no_code.
  destruct (DbRow.isLabel row) eqn:Hl; [now left|]. right. split.
  - rewrite split_ws_first. now apply upToWs_behind_space.
  - intros (Hde & Htok). apply Hno.
    split; [exact Hl|]. split; [exact Hde|]. split; [exact E | exact Htok].
Qed.

(** C5, as the code has it.  In the comparator that normalises, the
    compound key of a row is the one the specification describes: "LABEL:"
    and the normalised description for a label row; otherwise the non-empty
    normalised values of segmentGroup, segmentCode and dataElement joined
    with "|", or "POS:" and the row order when all three are empty; and
    when the data element is non-empty and the first token of the
    description consists of 1 to 10 capitals, digits or underscores, that
    token as one more part.  The comparator of [src/comparator.mjs] takes
    the stored values in place of the normalised ones, and builds this key
    for every row but those whose code-like first token lies behind white
    space. *)
Theorem rowKey_as_specified (row : DbRow.t) (key : str) :
  (KeyOf Normalize.normalizeForComparison row key
   <-> key = rowKey Normalize.normalizeForComparison row) /\
  (~ tokenBehindSpace plain row ->
   (KeyOf plain row key <-> key = rowKey plain row)).
Proof.
  split.
  - apply rowKey_refines, normalize_trimmed.
  - apply rowKey_refines_but.
Qed.

Lemma rowKey_as_specified_witness :
  KeyOf plain Sample.old1 Sample.keyIC.
Proof.
  apply (proj2 (rowKey_as_specified Sample.old1 Sample.keyIC)).
  - intros (_ & _ & H & _). apply H. reflexivity.
  - reflexivity.
Defined.

(** C5 as it is stated fails for the comparator of [src/comparator.mjs]:
    it keys a label by its stored text, and where a continuation line has
    left white space in front of the description, the first piece of
    [split(/\s+/)] is empty and the code is not appended. *)
Lemma rowKey_as_specified_counterexample :
  (KeyOf Normalize.normalizeForComparison Sample.labelSpaced (lit "LABEL:EBD-Cluster") /\
   rowKey plain Sample.labelSpaced = lit "LABEL:EBD - Cluster") /\
  (KeyOf plain continuedContact Sample.keyIC /\
   rowKey plain continuedContact = lit "SG2|CTA|3139" /\
   ~ (forall row key, KeyOf plain row key <-> key = rowKey plain row)).
Proof.
  assert (Hkey : KeyOf plain continuedContact Sample.keyIC).
  { apply (key_structure_and_code plain continuedContact).
    - reflexivity.
    - intros (H & _). discriminate H.
    - discriminate.
    - apply looksLikeCode_spec. reflexivity. }
  split; [split; [|reflexivity]|split; [exact Hkey|split; [reflexivity|]]].
  - apply (key_label Normalize.normalizeForComparison Sample.labelSpaced).
    reflexivity.
  - intros H. apply H in Hkey. discriminate Hkey.
Qed.

(** The two copies of the comparator on a label whose hyphen was extracted
    with spaces around it. *)
Example rowKey_of_spaced_label :
  rowKey Normalize.normalizeForComparison Sample.labelSpaced = lit "LABEL:EBD-Cluster" /\
  rowKey plain Sample.labelSpaced = lit "LABEL:EBD - Cluster".
Proof. split; reflexivity. Qed.

End RowKey.

(* ================================================================== *)
(** * The structuring pass *)
(* ================================================================== *)

Module Structuring.
Import JS Aux JSFacts NormalizeFacts Parser.

Lemma isdigit_spec c : isdigit c = true <-> Digit c.
Proof.
  unfold isdigit, between, Digit. rewrite andb_true_iff, !N.leb_le. tauto.
Qed.

Lemma digit_not_ws c : Digit c -> isws c = false.
Proof.
  unfold Digit. intros H. destruct (isws c) eqn:E; [exfalso|reflexivity].
  unfold_classes. bool_lia.
Qed.

Lemma fiveDigits_spec s : fiveDigits s = true <-> FiveDigits s.
Proof.
  unfold fiveDigits, FiveDigits.
  rewrite andb_true_iff, Nat.eqb_eq, forallb_forall, Forall_forall.
  split; intros (H1 & H2); split; auto; intros c Hc; apply isdigit_spec, H2, Hc.
Qed.

Lemma drop_ws_app_ws w b :
  Forall (fun c => isws c = true) w -> drop_ws (w ++ b) = drop_ws b.
Proof. induction 1 as [|c w Hc _ IH]; simpl; [reflexivity | now rewrite Hc]. Qed.

Lemma fiveDigits_head b : FiveDigits b -> drop_ws b = b.
Proof.
  intros (Hl & Hd). destruct b as [|c b]; [discriminate|].
  inversion Hd; subst. apply drop_ws_fixed. now apply digit_not_ws.
Qed.

Lemma twoCodes_spec s : twoCodes s = true <-> TwoCodes s.
Proof.
  unfold twoCodes. rewrite !andb_true_iff, negb_true_iff, !fiveDigits_spec, eqb_neq.
  split.
  - intros ((Ha & Hw) & Hb).
    destruct (drop_ws_split (skipn 5 s)) as (w & Hs & Hws).
    exists (firstn 5 s), w, (drop_ws (skipn 5 s)). repeat split; auto.
    + rewrite <- Hs. symmetry. apply firstn_skipn.
    + apply Ha.
    + apply Ha.
    + intros ->. apply Hw. now rewrite Hs at 2.
    + apply Hb.
    + apply Hb.
  - intros (a & w & b & -> & Ha & Hw & Hws & Hb).
    pose proof Ha as (Hl & _).
    assert (E1 : firstn 5 (a ++ w ++ b) = a).
    { rewrite <- Hl. rewrite firstn_app, Nat.sub_diag, firstn_all. simpl.
      now rewrite app_nil_r. }
    assert (E2 : skipn 5 (a ++ w ++ b) = w ++ b).
    { rewrite <- Hl. rewrite skipn_app, Nat.sub_diag, skipn_all. reflexivity. }
    rewrite E1, E2, (drop_ws_app_ws w b Hws), (fiveDigits_head b Hb).
    split; [split|]; [exact Ha| |exact Hb].
    intros E. apply (f_equal (@length N)) in E. rewrite length_app in E.
    destruct w; [congruence | simpl in E; lia].
Qed.

Lemma numericCode_spec field :
  fiveDigits (trim field) || twoCodes (trim field) = true <-> NumericCode field.
Proof.
  unfold NumericCode. now rewrite orb_true_iff, fiveDigits_spec, twoCodes_spec.
Qed.

(** A row that is no section header leaves the list of sections and the
    codes of the open section as they are. *)
Lemma not_header_keeps_sections rt pageNum st parsed :
  isPruefidentifikatorHeader rt parsed = false ->
  sections (classifyRow rt pageNum st parsed) = sections st /\
  option_map ParsedSection.pruefidentifikator
    (current (classifyRow rt pageNum st parsed))
  = option_map ParsedSection.pruefidentifikator (current st).
Proof.
  intros H. unfold classifyRow. rewrite H.
  destruct (isTableHeader rt parsed); [auto|].
  destruct (current st) as [c|] eqn:Ec.
  - destruct (isKommunikationVon rt parsed).
    { destruct (length _ =? 0); simpl; rewrite ?Ec; auto. }
    destruct (isStatusColumnHeader rt parsed).
    { destruct (negb _); simpl; rewrite ?Ec; auto. }
    destruct (isDataRow rt parsed); [simpl; rewrite ?Ec; auto|].
    destruct (lastRow st);
      [destruct (isContinuationRow rt parsed); [simpl; rewrite ?Ec; auto|]|];
      destruct (isSectionLabel rt parsed); simpl; rewrite ?Ec; auto.
  - destruct (_ && _); simpl; rewrite ?Ec; auto.
Qed.

(** C7.  A row is a section-header row exactly when its description
    contains the marker word and one of its two status fields, trimmed, is
    five digits or two five-digit codes with white space between; a row that
    has the marker word and no such status field is no section header, and
    no section is opened for it. *)
Theorem section_header_needs_marker_and_code (rt : Runtime)
    (row : ParsedRow.t rt) :
  (isPruefidentifikatorHeader rt row = true <->
   includes (toLowerCase rt (ParsedRow.beschreibung row)) marker = true /\
   (NumericCode (ParsedRow.statusCol1 row) \/ NumericCode (ParsedRow.statusCol2 row)))
  /\
  (forall pageNum st,
     ~ (NumericCode (ParsedRow.statusCol1 row) \/ NumericCode (ParsedRow.statusCol2 row)) ->
     isPruefidentifikatorHeader rt row = false /\
     sections (classifyRow rt pageNum st row) = sections st /\
     option_map ParsedSection.pruefidentifikator
       (current (classifyRow rt pageNum st row))
     = option_map ParsedSection.pruefidentifikator (current st)).
Proof.
  assert (Hiff : isPruefidentifikatorHeader rt row = true <->
     includes (toLowerCase rt (ParsedRow.beschreibung row)) marker = true /\
     (NumericCode (ParsedRow.statusCol1 row) \/ NumericCode (ParsedRow.statusCol2 row))).
  { unfold isPruefidentifikatorHeader.
    rewrite <- !numericCode_spec.
    destruct (includes (toLowerCase rt (ParsedRow.beschreibung row)) marker); simpl.
    - rewrite !orb_true_iff. tauto.
    - split; [discriminate | intros (H & _); discriminate]. }
  split; [exact Hiff|].
  intros pageNum st Hno.
  assert (Hf : isPruefidentifikatorHeader rt row = false).
  { destruct (isPruefidentifikatorHeader rt row) eqn:E; [|reflexivity].
    exfalso. apply Hno. now apply Hiff. }
  split; [exact Hf|]. now apply not_header_keeps_sections.
Qed.

Lemma section_header_needs_marker_and_code_witness :
  isPruefidentifikatorHeader Sample.runtime Sample.headerRow = true /\
  isPruefidentifikatorHeader Sample.runtime Sample.fieldRow = false.
Proof.
  split.
  - apply (proj1 (section_header_needs_marker_and_code Sample.runtime Sample.headerRow)).
    split; [reflexivity|]. left. apply numericCode_spec. reflexivity.
  - apply (proj2 (section_header_needs_marker_and_code Sample.runtime Sample.fieldRow)
             1%Z Sample.sectionOpened).
    intros [H|H]; apply numericCode_spec in H; discriminate H.
Defined.

(** ** Continuation rows *)

Lemma continuation_no_data rt parsed :
  isContinuationRow rt parsed = true -> isDataRow rt parsed = false.
Proof.
  unfold isContinuationRow, isDataRow, hasEdifactContent.
  destruct (ParsedRow.segmentGroup parsed); [|discriminate].
  destruct (ParsedRow.segmentCode parsed); [|discriminate].
  destruct (ParsedRow.dataElement parsed); [|discriminate].
  reflexivity.
Qed.

(** C8, as the code has it.  A continuation row met when there is no row to
    continue, and which is neither a header nor a metadata row, extends no
    row and fails nowhere.  With a section open it is dropped, the state
    stays as it is, unless it has a description and no status text: then it
    is appended as a label row of its own.  Before the first section it
    creates no row. *)
Theorem continuation_without_prior_row (rt : Runtime) (pageNum : Z)
    (st : Builder) (parsed : ParsedRow.t rt) :
  lastRow st = None ->
  isContinuationRow rt parsed = true ->
  isTableHeader rt parsed = false ->
  isPruefidentifikatorHeader rt parsed = false ->
  (current st = None \/
   (isKommunikationVon rt parsed = false /\ isStatusColumnHeader rt parsed = false)) ->
  sections (classifyRow rt pageNum st parsed) = sections st /\
  current (classifyRow rt pageNum st parsed) = current st /\
  rows (classifyRow rt pageNum st parsed)
  = rows st ++ (match current st with
                | Some _ => if isSectionLabel rt parsed
                            then [labelRowOf rt parsed] else []
                | None => []
                end) /\
  (current st <> None -> isSectionLabel rt parsed = false ->
   classifyRow rt pageNum st parsed = st).
Proof.
  intros Hlast Hcont Htab Hhead Hmeta. unfold classifyRow.
  rewrite Htab, Hhead, Hlast, (continuation_no_data rt parsed Hcont).
  destruct (current st) as [c|] eqn:Ec.
  - destruct Hmeta as [Hn|(Hk & Hs)]; [discriminate|]. rewrite Hk, Hs.
    destruct (isSectionLabel rt parsed); simpl; rewrite ?Ec, ?app_nil_r;
      repeat split; auto. discriminate.
  - destruct (_ && _); simpl; rewrite ?Ec, ?app_nil_r; repeat split; auto;
      intros H; now contradiction H.
Qed.

Lemma continuation_without_prior_row_witness :
  classifyRow Sample.runtime 1 Sample.sectionOpened Sample.statusOnly
  = Sample.sectionOpened.
Proof.
  apply (continuation_without_prior_row Sample.runtime 1 Sample.sectionOpened
           Sample.statusOnly); try reflexivity.
  - right. split; reflexivity.
  - discriminate.
Defined.

(** C8 as it is stated fails: behind a section header, a row with nothing
    but a description is a continuation row with no row to continue, and it
    becomes a label row. *)
Lemma continuation_without_prior_row_counterexample :
  lastRow Sample.sectionOpened = None /\
  isContinuationRow Sample.runtime Sample.descriptionOnly = true /\
  rows Sample.sectionOpened = [] /\
  rows (classifyRow Sample.runtime 1 Sample.sectionOpened Sample.descriptionOnly)
  = [labelRowOf Sample.runtime Sample.descriptionOnly] /\
  classifyRow Sample.runtime 1 Sample.sectionOpened Sample.descriptionOnly
  <> Sample.sectionOpened.
Proof. repeat split; try reflexivity. discriminate. Qed.

End Structuring.

(* ================================================================== *)
(** * More on the row matching *)
(* ================================================================== *)

Module RowMatchingMore.
Import JS Aux Notions JSFacts MapFacts Comparator RowFacts.

Lemma zipSlots_in l1 : forall l2 sl, In sl (zipSlots l1 l2) ->
  (forall r, In r (slotOld sl) -> In r l1) /\
  (forall r, In r (slotNew sl) -> In r l2).
Proof.
  induction l1 as [|r1 l1 IH]; intros l2 sl H; simpl in H.
  - apply in_map_iff in H. destruct H as (r2 & <- & Hr2). simpl.
    split; [contradiction|]. intros r [<-|[]]. exact Hr2.
  - destruct l2 as [|r2 l2]; destruct H as [<-|H]; simpl.
    + split; [intros r [<-|[]]; now left | contradiction].
    + destruct (IH [] sl H) as (Ho & Hn). split; [intros r Hr; right; auto | exact Hn].
    + split; intros r [<-|[]]; now left.
    + destruct (IH l2 sl H) as (Ho & Hn). split; intros r Hr; right; auto.
Qed.

Lemma slots_count (sls : list Slot) :
  length (flat_map slotOld sls) <= length sls /\
  length (flat_map slotNew sls) <= length sls /\
  length sls <= length (flat_map slotOld sls) + length (flat_map slotNew sls).
Proof.
  induction sls as [|sl sls (H1 & H2 & H3)]; simpl; [lia|].
  rewrite !length_app. destruct sl; simpl; lia.
Qed.

Lemma rowSlots_in norm rows1 rows2 k sl :
  In (k, sl) (rowSlots norm rows1 rows2) ->
  (forall r, In r (slotOld sl) -> In r rows1 /\ rowKey norm r = k) /\
  (forall r, In r (slotNew sl) -> In r rows2 /\ rowKey norm r = k).
Proof.
  unfold rowSlots. intros H. apply in_flat_map in H. destruct H as (k' & _ & H).
  apply in_map_iff in H. destruct H as (sl' & [= <- <-] & H).
  destruct (zipSlots_in _ _ _ H) as (Ho & Hn).
  split; intros r Hr; [apply Ho in Hr | apply Hn in Hr];
    apply filter_In in Hr; destruct Hr as (Hr & E); apply eqb_eq in E; auto.
Qed.

(** X1.  On rows and sections whose columns hold strings, as
    [insertDocument] writes them, the comparison never reads a field of a
    missing row or section: [compareRows] gives its diffs for any two lists
    of such rows, and [compareDocuments] gives a result for every pair of
    document ids, also for ids that have no section at all. *)
Theorem comparison_never_fails (norm : str -> str) :
  (forall rows1 rows2, exists diffs, compareRows norm rows1 rows2 = Some diffs) /\
  (forall db docId1 docId2,
     exists result, compareDocuments norm db docId1 docId2 = Some result).
Proof.
  split.
  - intros rows1 rows2. eexists. apply compareRows_slots.
  - intros db docId1 docId2.
    destruct (SectionFacts.compareDocuments_entries norm db docId1 docId2)
      as (ds & _ & E).
    eexists. exact E.
Qed.

(** X2.  The number of row diffs of two sections lies between the size of
    the larger section and the sum of both sizes. *)
Theorem compareRows_count (norm : str -> str) (rows1 rows2 : list DbRow.t) :
  exists diffs,
    compareRows norm rows1 rows2 = Some diffs /\
    Nat.max (length rows1) (length rows2) <= length diffs
    <= length rows1 + length rows2.
Proof.
  eexists. split; [apply compareRows_slots|]. rewrite length_map.
  pose proof (slots_count (map snd (rowSlots norm rows1 rows2))) as (H1 & H2 & H3).
  rewrite length_map in H1, H2, H3.
  assert (E1 : length (flat_map slotOld (map snd (rowSlots norm rows1 rows2)))
               = length rows1).
  { apply Permutation_length. rewrite rowSlots_old.
    apply group_all; [apply rowKeys_nodup | intros r; apply rowKeys_old]. }
  assert (E2 : length (flat_map slotNew (map snd (rowSlots norm rows1 rows2)))
               = length rows2).
  { apply Permutation_length. rewrite rowSlots_new.
    apply group_all; [apply rowKeys_nodup | intros r; apply rowKeys_new]. }
  lia.
Qed.

(** X3.  Every row diff carries the compound key of the rows it holds; the
    two rows of a 'modified' diff have the same key, and all rows come from
    the section they are reported for. *)
Theorem compareRows_keys (norm : str -> str) (rows1 rows2 : list DbRow.t) :
  exists diffs,
    compareRows norm rows1 rows2 = Some diffs /\
    Forall (keyOfItsRows norm) diffs /\
    Forall (fun d => match d with
                     | RowAdded _ r => In r rows2
                     | RowRemoved _ r | RowUnchanged _ r => In r rows1
                     | RowModified _ r1 r2 _ => In r1 rows1 /\ In r2 rows2
                     end) diffs.
Proof.
  eexists. split; [apply compareRows_slots|].
  split; apply Forall_forall; intros d Hd; apply in_map_iff in Hd;
    destruct Hd as ([k sl] & <- & Hsl);
    destruct (rowSlots_in norm rows1 rows2 k sl Hsl) as (Ho & Hn); simpl fst; simpl snd.
  - destruct sl as [r1 r2|r1|r2]; simpl in *.
    + destruct (Ho r1 (or_introl eq_refl)) as (_ & E1).
      destruct (Hn r2 (or_introl eq_refl)) as (_ & E2).
      destruct (diffRowFields norm r1 r2); simpl; auto.
    + destruct (Ho r1 (or_introl eq_refl)) as (_ & E1). now rewrite E1.
    + destruct (Hn r2 (or_introl eq_refl)) as (_ & E2). now rewrite E2.
  - destruct sl as [r1 r2|r1|r2]; simpl in *.
    + destruct (Ho r1 (or_introl eq_refl)) as (I1 & _).
      destruct (Hn r2 (or_introl eq_refl)) as (I2 & _).
      destruct (diffRowFields norm r1 r2); simpl; auto.
    + now destruct (Ho r1 (or_introl eq_refl)).
    + now destruct (Hn r2 (or_introl eq_refl)).
Qed.

Lemma rowsWithKey_nil norm k : rowsWithKey norm k [] = [].
Proof. reflexivity. Qed.

Lemma zipSlots_nil_r l : zipSlots l [] = map OldOnly l.
Proof. induction l as [|r l IH]; simpl; [reflexivity | now rewrite IH]. Qed.

Lemma map_rowsWithKey {B} norm (f : str -> DbRow.t -> B) k rows :
  map (f k) (rowsWithKey norm k rows)
  = map (fun r => f (rowKey norm r) r) (rowsWithKey norm k rows).
Proof.
  apply map_ext_in. intros r Hr. apply filter_In in Hr. destruct Hr as (_ & E).
  apply eqb_eq in E. now rewrite E.
Qed.

(** X4.  Against an empty section every row is reported once as 'removed',
    and from an empty section every row once as 'added'; two empty sections
    give no row diff. *)
Theorem compareRows_with_empty (norm : str -> str) (rows : list DbRow.t) :
  (exists diffs,
     compareRows norm rows [] = Some diffs /\
     Permutation diffs (map (fun r => RowRemoved (Some (rowKey norm r)) r) rows)) /\
  (exists diffs,
     compareRows norm [] rows = Some diffs /\
     Permutation diffs (map (fun r => RowAdded (Some (rowKey norm r)) r) rows)) /\
  compareRows norm [] [] = Some [].
Proof.
  split; [|split].
  - eexists. split; [apply compareRows_slots|].
    unfold rowSlots.
    assert (E : forall ks,
      map (fun ks => slotDiff norm (fst ks) (snd ks))
        (flat_map (fun key => map (pair key)
           (zipSlots (rowsWithKey norm key rows) (rowsWithKey norm key []))) ks)
      = map (fun r => RowRemoved (Some (rowKey norm r)) r)
          (flat_map (fun k => rowsWithKey norm k rows) ks)).
    { induction ks as [|k ks IH]; [reflexivity|]. cbn [flat_map].
      rewrite !map_app, IH, rowsWithKey_nil, zipSlots_nil_r, !map_map.
      cbn [slotDiff fst snd]. f_equal.
      apply (map_rowsWithKey norm (fun k r => RowRemoved (Some k) r)). }
    rewrite E. apply Permutation_map.
    apply group_all; [apply rowKeys_nodup | intros r; apply rowKeys_old].
  - eexists. split; [apply compareRows_slots|].
    unfold rowSlots.
    assert (E : forall ks,
      map (fun ks => slotDiff norm (fst ks) (snd ks))
        (flat_map (fun key => map (pair key)
           (zipSlots (rowsWithKey norm key []) (rowsWithKey norm key rows))) ks)
      = map (fun r => RowAdded (Some (rowKey norm r)) r)
          (flat_map (fun k => rowsWithKey norm k rows) ks)).
    { induction ks as [|k ks IH]; [reflexivity|]. cbn [flat_map].
      rewrite !map_app, IH, rowsWithKey_nil. cbn [zipSlots]. rewrite !map_map.
      cbn [slotDiff fst snd]. f_equal.
      apply (map_rowsWithKey norm (fun k r => RowAdded (Some k) r)). }
    rewrite E. apply Permutation_map.
    apply group_all; [apply rowKeys_nodup | intros r; apply rowKeys_new].
  - reflexivity.
Qed.

End RowMatchingMore.

(* ================================================================== *)
(** * Field changes of rows and of section metadata *)
(* ================================================================== *)

Module FieldChanges.
Import JS Aux Notions JSFacts Comparator RowFacts.

Lemma differ_true norm a b : differ norm a b = true <-> norm a <> norm b.
Proof. unfold differ. rewrite negb_true_iff. apply eqb_neq. Qed.

Lemma differ_sym norm a b : differ norm a b = differ norm b a.
Proof.
  unfold differ. f_equal. destruct (eqb_spec (norm a) (norm b)) as [E|E];
    destruct (eqb_spec (norm b) (norm a)) as [E'|E']; congruence.
Qed.

Ltac split_differ :=
  repeat match goal with
         | |- context [differ ?n ?a ?b] =>
             let E := fresh "E" in destruct (differ n a b) eqn:E
         end.

(** X5.  [diffRowFields] reports real differences only: every change is one
    of the six fields of the two rows, the free-text fields with their
    trimmed values, and its two values still differ after normalisation;
    there are no changes exactly when the six compared fields agree. *)
Theorem diffRowFields_real_changes (norm : str -> str) (r1 r2 : DbRow.t) :
  Forall (fun c => In c (rowFieldCandidates r1 r2) /\ realChange norm c)
    (diffRowFields norm r1 r2) /\
  length (diffRowFields norm r1 r2) <= 6 /\
  (diffRowFields norm r1 r2 = [] <-> sameFields norm r1 r2).
Proof.
  split; [|split].
  - unfold diffRowFields, textFields, rowFieldCandidates, realChange.
    cbn [fold_left fst snd]. split_differ; cbn [app];
      repeat match goal with
             | H : differ _ _ _ = true |- _ => apply differ_true in H
             | H : differ _ _ _ = false |- _ => clear H
             end;
      repeat (constructor; [split; [simpl; tauto | simpl; assumption]|]);
      constructor.
  - unfold diffRowFields, textFields. cbn [fold_left fst snd].
    split_differ; simpl; lia.
  - split; [apply no_changes_sameFields | apply sameFields_no_changes].
Qed.

(** X6.  Comparing two rows the other way round gives the same changes
    with old and new exchanged. *)
Theorem diffRowFields_swapped (norm : str -> str) (r1 r2 : DbRow.t) :
  diffRowFields norm r2 r1 = map swapChange (diffRowFields norm r1 r2).
Proof.
  unfold diffRowFields, textFields. cbn [fold_left fst snd].
  rewrite (differ_sym norm (trim (DbRow.beschreibung r2))),
    (differ_sym norm (trim (DbRow.statusCol1 r2))),
    (differ_sym norm (trim (DbRow.statusCol2 r2))),
    (differ_sym norm (trim (DbRow.bedingung r2))),
    (differ_sym norm (DbRow.segmentGroup r2)),
    (differ_sym norm (DbRow.segmentCode r2)).
  split_differ; reflexivity.
Qed.

Lemma getMetaChanges_nil norm s1 s2 :
  getMetaChanges norm s1 s2 = [] <-> checkMetaChanges norm s1 s2 = false.
Proof.
  unfold getMetaChanges, checkMetaChanges.
  split_differ; simpl; split; intros H; try discriminate H; reflexivity.
Qed.

(** X7.  The metadata check and the metadata changes agree: sections are
    flagged as changed exactly when a change is listed; every listed change
    is one of title, kommunikationVon and the two column headers, with the
    stored values, which differ after normalisation. *)
Theorem metaChanges_agree (norm : str -> str) (s1 s2 : DbSection.t) :
  (checkMetaChanges norm s1 s2 = true <-> getMetaChanges norm s1 s2 <> []) /\
  Forall (fun c => In c (metaFieldCandidates s1 s2) /\ realChange norm c)
    (getMetaChanges norm s1 s2).
Proof.
  split.
  - rewrite <- not_false_iff_true, <- getMetaChanges_nil. tauto.
  - unfold getMetaChanges, metaFieldCandidates, realChange.
    split_differ; cbn [app];
      repeat match goal with
             | H : differ _ _ _ = true |- _ => apply differ_true in H
             | H : differ _ _ _ = false |- _ => clear H
             end;
      repeat (constructor; [split; [simpl; tauto | simpl; assumption]|]);
      constructor.
Qed.

End FieldChanges.

(* ================================================================== *)
(** * More on the section matching *)
(* ================================================================== *)

Module SectionMatchingMore.
Import JS Aux Notions JSFacts MapFacts Comparator RowFacts SectionFacts.
Import SectionMatching FieldChanges.

(** ** The order of the section diffs *)

Lemma typeIs_order t d e :
  typeIs t d = true -> typeIs t e = true ->
  order (sectionDiffType d) = order (sectionDiffType e).
Proof.
  unfold typeIs. destruct t, (sectionDiffType d), (sectionDiffType e);
    try discriminate; reflexivity.
Qed.

Lemma insert_filter t d l :
  filter (typeIs t) (insert d l)
  = (if typeIs t d then [d] else []) ++ filter (typeIs t) l.
Proof.
  induction l as [|e l IH]; simpl; [now destruct (typeIs t d)|].
  destruct (order (sectionDiffType d) <=? order (sectionDiffType e)) eqn:E.
  - simpl. now destruct (typeIs t d).
  - simpl. rewrite IH. destruct (typeIs t e) eqn:Te; [|reflexivity].
    destruct (typeIs t d) eqn:Td; [|reflexivity].
    apply Nat.leb_gt in E. rewrite (typeIs_order t d e Td Te) in E. lia.
Qed.

Lemma sort_filter t l : filter (typeIs t) (sort l) = filter (typeIs t) l.
Proof.
  induction l as [|d l IH]; simpl; [reflexivity|].
  rewrite insert_filter, IH. now destruct (typeIs t d).
Qed.

Lemma insert_sorted d l :
  StronglySorted byRank l -> StronglySorted byRank (insert d l).
Proof.
  induction 1 as [|e l Hs IH He]; simpl.
  - repeat constructor.
  - destruct (order (sectionDiffType d) <=? order (sectionDiffType e)) eqn:E.
    + apply Nat.leb_le in E. constructor; [now constructor|].
      constructor; [exact E|]. eapply Forall_impl; [|exact He].
      unfold byRank. intros x Hx. lia.
    + apply Nat.leb_gt in E. constructor; [exact IH|].
      apply Forall_forall. intros x Hx.
      apply (Permutation_in _ (insert_perm d l)) in Hx. destruct Hx as [<-|Hx].
      * unfold byRank. lia.
      * rewrite Forall_forall in He. now apply He.
Qed.

Lemma sort_sorted l : StronglySorted byRank (sort l).
Proof.
  induction l as [|d l IH]; simpl; [constructor | now apply insert_sorted].
Qed.

Lemma entries_keys norm db sections1 sections2 keys ds :
  Forall2 (sectionEntry norm db sections1 sections2) keys ds ->
  map sectionDiffKey ds = keys.
Proof.
  induction 1 as [|k d keys ds Hd _ IH]; simpl; [reflexivity|].
  now rewrite IH, (sectionEntry_key norm db _ _ _ _ Hd).
Qed.

(** X8.  The section diffs of a result are ordered modified, added,
    removed, unchanged; within one type they keep the order in which the
    keys were met: the keys of the old document first, then the keys only
    the new document has. *)
Theorem sectionDiffs_sorted_stably (norm : str -> str) (db : Database)
    (docId1 docId2 : Z) :
  exists result inKeyOrder,
    compareDocuments norm db docId1 docId2 = Some result /\
    map sectionDiffKey inKeyOrder = docKeys db docId1 docId2 /\
    docKeys db docId1 docId2
    = JSSet.of_list (JSSet.of_list (sectionKeys db docId1)
                     ++ JSSet.of_list (sectionKeys db docId2)) /\
    Permutation (sectionDiffs result) inKeyOrder /\
    StronglySorted byRank (sectionDiffs result) /\
    (forall t, filter (typeIs t) (sectionDiffs result)
               = filter (typeIs t) inKeyOrder).
Proof.
  destruct (compareDocuments_entries norm db docId1 docId2) as (ds & Hds & E).
  eexists. exists ds. split; [exact E|]. simpl.
  split; [eapply entries_keys; eauto|].
  split; [unfold docKeys; now rewrite !buildPruefMap_keys_list|].
  split; [apply sort_perm|]. split; [apply sort_sorted|].
  intros t. apply sort_filter.
Qed.

(** ** The counters *)

Lemma countInto_counts ds : forall s,
  countInto s ds
  = {| added := added s + length (filter (typeIs Added) ds);
       removed := removed s + length (filter (typeIs Removed) ds);
       modified := modified s + length (filter (typeIs Modified) ds);
       unchanged := unchanged s + length (filter (typeIs Unchanged) ds) |}.
Proof.
  induction ds as [|d ds IH]; intros s.
  - simpl. rewrite !Nat.add_0_r. now destruct s.
  - unfold countInto in *. cbn [fold_left]. rewrite IH.
    destruct d as [k sec rows|k sec rows|t k so sn mc rows]; [| |destruct t];
      simpl; f_equal; lia.
Qed.

Lemma filter_types_length (ds : list SectionDiff) :
  length (filter (typeIs Added) ds) + length (filter (typeIs Removed) ds)
  + length (filter (typeIs Modified) ds) + length (filter (typeIs Unchanged) ds)
  = length ds.
Proof.
  induction ds as [|d ds IH]; [reflexivity|].
  destruct d as [k sec rows|k sec rows|t k so sn mc rows]; [| |destruct t];
    simpl; lia.
Qed.

(** X9.  The summary counts what the result holds: each counter is the
    number of section diffs of its type, and there is exactly one section
    diff for every key that occurs in either document. *)
Theorem summary_counts_sectionDiffs (norm : str -> str) (db : Database)
    (docId1 docId2 : Z) :
  exists result,
    compareDocuments norm db docId1 docId2 = Some result /\
    added (summary result) = length (filter (typeIs Added) (sectionDiffs result)) /\
    removed (summary result) = length (filter (typeIs Removed) (sectionDiffs result)) /\
    modified (summary result) = length (filter (typeIs Modified) (sectionDiffs result)) /\
    unchanged (summary result)
    = length (filter (typeIs Unchanged) (sectionDiffs result)) /\
    added (summary result) + removed (summary result) + modified (summary result)
    + unchanged (summary result) = length (sectionDiffs result) /\
    NoDup (map sectionDiffKey (sectionDiffs result)) /\
    (forall k, In k (map sectionDiffKey (sectionDiffs result))
               <-> In k (sectionKeys db docId1) \/ In k (sectionKeys db docId2)).
Proof.
  destruct (compareDocuments_entries norm db docId1 docId2) as (ds & Hds & E).
  eexists. split; [exact E|]. cbn [summary sectionDiffs].
  rewrite countInto_counts, !sort_filter. cbn.
  repeat split; try reflexivity.
  - rewrite filter_types_length. symmetry. apply Permutation_length, sort_perm.
  - apply (Permutation_NoDup (l := map sectionDiffKey ds)).
    + apply Permutation_map, Permutation_sym, sort_perm.
    + rewrite (entries_keys _ _ _ _ _ _ Hds). apply docKeys_nodup.
  - intros H. apply docKeys_in. rewrite <- (entries_keys _ _ _ _ _ _ Hds).
    eapply Permutation_in; [apply Permutation_map, sort_perm | exact H].
  - intros H. apply docKeys_in in H. rewrite <- (entries_keys _ _ _ _ _ _ Hds) in H.
    eapply Permutation_in; [apply Permutation_map, Permutation_sym, sort_perm | exact H].
Qed.

(** ** What a section diff says *)

Lemma changed_exists ds :
  existsb changed ds = true <-> Exists (fun rd => rowDiffType rd <> Unchanged) ds.
Proof.
  rewrite existsb_exists, Exists_exists. unfold changed.
  split; intros (d & Hd & H); exists d; split; auto;
    destruct (rowDiffType d); try discriminate; try reflexivity; congruence.
Qed.

Lemma not_changed_forall ds :
  existsb changed ds = false <-> Forall (fun rd => rowDiffType rd = Unchanged) ds.
Proof.
  split.
  - intros H. apply Forall_forall. intros d Hd.
    destruct (rowDiffType d) eqn:E; try reflexivity; exfalso;
      (assert (Ht : existsb changed ds = true);
       [apply existsb_exists; exists d; split; [exact Hd | unfold changed; now rewrite E]
       | congruence]).
  - apply unchanged_not_changed.
Qed.

Lemma entry_sound norm db docId1 docId2 k d :
  sectionEntry norm db (getSections db docId1) (getSections db docId2) k d ->
  soundDiff norm db docId1 docId2 d.
Proof.
  unfold sectionEntry.
  destruct (findSection k (getSections db docId1)) as [s1|] eqn:F1;
    destruct (findSection k (getSections db docId2)) as [s2|] eqn:F2;
    intros H; try contradiction; subst d; simpl; auto.
  rewrite F1, F2, compareRows_slots. repeat split.
  - destruct (checkMetaChanges norm s1 s2) eqn:C; [reflexivity|].
    symmetry. now apply getMetaChanges_nil.
  - destruct (checkMetaChanges norm s1 s2) eqn:C.
    + right. rewrite orb_true_r. split; [reflexivity|]. left.
      apply (proj1 (metaChanges_agree norm s1 s2)). exact C.
    + rewrite orb_false_r.
      destruct (existsb changed _) eqn:X.
      * right. split; [reflexivity|]. right. now apply changed_exists.
      * left. repeat split. now apply not_changed_forall.
Qed.

(** X10.  Every section diff of a result is sound.  An added or removed
    section is the first section of its key in the one document, the key
    is absent from the other, and all its rows are listed.  A matched pair
    consists of the first sections of the key in both documents and carries
    their row diffs and their metadata changes; it is 'unchanged' exactly
    when there are no metadata changes and every row diff is 'unchanged',
    and 'modified' otherwise.  A later section with a key already seen is
    never reported. *)
Theorem sectionDiffs_sound (norm : str -> str) (db : Database)
    (docId1 docId2 : Z) :
  exists result,
    compareDocuments norm db docId1 docId2 = Some result /\
    Forall (soundDiff norm db docId1 docId2) (sectionDiffs result).
Proof.
  destruct (compareDocuments_entries norm db docId1 docId2) as (ds & Hds & E).
  eexists. split; [exact E|]. simpl. apply Forall_forall. intros d Hd.
  apply (Permutation_in _ (sort_perm ds)) in Hd.
  destruct (Forall2_in_right _ _ _ _ Hds Hd) as (k & _ & He).
  eapply entry_sound; eauto.
Qed.

(** ** An empty document *)

Lemma countInto_all t ds :
  Forall (fun d => typeIs t d = true) ds ->
  length (filter (typeIs t) ds) = length ds /\
  (forall t', sameType t t' = false -> length (filter (typeIs t') ds) = 0).
Proof.
  intros H. split.
  - rewrite filter_all; [reflexivity|]. now apply Forall_forall.
  - intros t' Ht. rewrite filter_none; [reflexivity|].
    rewrite Forall_forall in H. intros d Hd. specialize (H d Hd).
    unfold typeIs in *. destruct t, t', (sectionDiffType d); try discriminate;
      reflexivity.
Qed.

Lemma docKeys_list db docId1 docId2 :
  docKeys db docId1 docId2
  = JSSet.of_list (JSSet.of_list (sectionKeys db docId1)
                   ++ JSSet.of_list (sectionKeys db docId2)).
Proof. unfold docKeys. now rewrite !buildPruefMap_keys_list. Qed.

(** X11.  A document without sections makes every section of the other
    document 'added' or 'removed': against an empty old document the result
    holds one 'added' diff for each distinct key of the new document and
    nothing else, against an empty new document one 'removed' diff for each
    distinct key of the old one. *)
Theorem empty_document_all_added_or_removed (norm : str -> str)
    (db : Database) (docId1 docId2 : Z) :
  (getSections db docId1 = [] ->
   exists result,
     compareDocuments norm db docId1 docId2 = Some result /\
     summary result
     = {| added := length (JSSet.of_list (sectionKeys db docId2));
          removed := 0; modified := 0; unchanged := 0 |} /\
     Forall (fun d => typeIs Added d = true) (sectionDiffs result)) /\
  (getSections db docId2 = [] ->
   exists result,
     compareDocuments norm db docId1 docId2 = Some result /\
     summary result
     = {| added := 0;
          removed := length (JSSet.of_list (sectionKeys db docId1));
          modified := 0; unchanged := 0 |} /\
     Forall (fun d => typeIs Removed d = true) (sectionDiffs result)).
Proof.
  destruct (compareDocuments_entries norm db docId1 docId2) as (ds & Hds & E).
  pose proof (Forall2_length Hds) as Hlen. rewrite docKeys_list in Hlen.
  split; intros Hempty.
  - assert (Hall : Forall (fun d => typeIs Added d = true) ds).
    { apply Forall_forall. intros d Hd.
      destruct (Forall2_in_right _ _ _ _ Hds Hd) as (k & _ & He).
      unfold sectionEntry in He. rewrite Hempty in He. simpl in He.
      destruct (findSection k (getSections db docId2)); [now subst d | contradiction]. }
    destruct (countInto_all Added ds Hall) as (H1 & H0).
    eexists. split; [exact E|]. cbn [summary sectionDiffs]. split.
    + rewrite countInto_counts, H1, !H0 by reflexivity. cbn. f_equal.
      rewrite <- Hlen. unfold sectionKeys at 1. rewrite Hempty. cbn [map app].
      change (JSSet.of_list []) with (@nil (list N)). cbn [app].
      now rewrite (of_list_nodup_id _ (of_list_nodup _)).
    + apply Forall_forall. intros d Hd.
      apply (Permutation_in _ (sort_perm ds)) in Hd.
      rewrite Forall_forall in Hall. now apply Hall.
  - assert (Hall : Forall (fun d => typeIs Removed d = true) ds).
    { apply Forall_forall. intros d Hd.
      destruct (Forall2_in_right _ _ _ _ Hds Hd) as (k & _ & He).
      unfold sectionEntry in He. rewrite Hempty in He. simpl in He.
      destruct (findSection k (getSections db docId1)); [now subst d | contradiction]. }
    destruct (countInto_all Removed ds Hall) as (H1 & H0).
    eexists. split; [exact E|]. cbn [summary sectionDiffs]. split.
    + rewrite countInto_counts, H1, !H0 by reflexivity. cbn. f_equal.
      rewrite <- Hlen. unfold sectionKeys at 2. rewrite Hempty. cbn [map].
      change (JSSet.of_list []) with (@nil (list N)). rewrite app_nil_r.
      now rewrite (of_list_nodup_id _ (of_list_nodup _)).
    + apply Forall_forall. intros d Hd.
      apply (Permutation_in _ (sort_perm ds)) in Hd.
      rewrite Forall_forall in Hall. now apply Hall.
Qed.

Lemma empty_document_all_added_or_removed_witness :
  (exists result,
     compareDocuments Normalize.normalizeForComparison Sample.overlapDb 3 2
     = Some result /\
     summary result = {| added := 2; removed := 0; modified := 0; unchanged := 0 |}) /\
  (exists result,
     compareDocuments Normalize.normalizeForComparison Sample.overlapDb 1 3
     = Some result /\
     summary result = {| added := 0; removed := 2; modified := 0; unchanged := 0 |}).
Proof.
  split.
  - destruct (proj1 (empty_document_all_added_or_removed
                       Normalize.normalizeForComparison Sample.overlapDb 3 2))
      as (result & E & S & _); [reflexivity|].
    exists result. split; [exact E | exact S].
  - destruct (proj2 (empty_document_all_added_or_removed
                       Normalize.normalizeForComparison Sample.overlapDb 1 3))
      as (result & E & S & _); [reflexivity|].
    exists result. split; [exact E | exact S].
Defined.

End SectionMatchingMore.

(* ================================================================== *)
(** * Exchanging the two documents *)
(* ================================================================== *)

Module Exchange.
Import JS Aux Notions JSFacts MapFacts Comparator RowFacts SectionFacts.
Import SectionMatching FieldChanges SectionMatchingMore.

Lemma sameFields_sym norm r1 r2 : sameFields norm r1 r2 -> sameFields norm r2 r1.
Proof. unfold sameFields. intuition congruence. Qed.

Lemma no_changes_sym norm r1 r2 :
  diffRowFields norm r1 r2 = [] -> diffRowFields norm r2 r1 = [].
Proof.
  intros H. apply sameFields_no_changes, sameFields_sym.
  now apply no_changes_sameFields.
Qed.

Lemma zipSlots_mirror l1 : forall l2,
  zipSlots l2 l1 = map mirror (zipSlots l1 l2).
Proof.
  induction l1 as [|a l1 IH]; intros l2.
  - simpl zipSlots at 2. rewrite map_map. simpl.
    induction l2 as [|b l2 IH2]; simpl; [reflexivity | now rewrite IH2].
  - destruct l2 as [|b l2]; simpl.
    + f_equal. exact (IH []).
    + f_equal. apply IH.
Qed.

Lemma changed_mirror norm k sl :
  changed (slotDiff norm k (mirror sl)) = changed (slotDiff norm k sl).
Proof.
  destruct sl as [r1 r2| |]; simpl; try reflexivity.
  destruct (diffRowFields norm r1 r2) eqn:E.
  - now rewrite (no_changes_sym norm r1 r2 E).
  - destruct (diffRowFields norm r2 r1) eqn:E'; [|reflexivity].
    apply no_changes_sym in E'. congruence.
Qed.

Lemma keyChanged_sym norm rows1 rows2 k :
  keyChanged norm rows2 rows1 k = keyChanged norm rows1 rows2 k.
Proof.
  unfold keyChanged. rewrite zipSlots_mirror, map_map.
  induction (zipSlots (rowsWithKey norm k rows1) (rowsWithKey norm k rows2))
    as [|sl sls IH]; simpl; [reflexivity|].
  now rewrite changed_mirror, IH.
Qed.

Lemma rowSlots_changed norm rows1 rows2 :
  existsb changed
    (map (fun ks => slotDiff norm (fst ks) (snd ks)) (rowSlots norm rows1 rows2))
  = existsb (keyChanged norm rows1 rows2) (rowKeys norm rows1 rows2).
Proof.
  unfold rowSlots.
  induction (rowKeys norm rows1 rows2) as [|k ks IH]; simpl; [reflexivity|].
  rewrite map_app, existsb_app, IH, map_map. reflexivity.
Qed.

Lemma keyChanged_known norm rows1 rows2 rows1' rows2' k :
  keyChanged norm rows1 rows2 k = true ->
  (forall r, In r rows1 \/ In r rows2 -> In r rows1' \/ In r rows2') ->
  In k (rowKeys norm rows1' rows2').
Proof.
  intros H Hsub.
  destruct (in_dec (list_eq_dec N.eq_dec) k (rowKeys norm rows1' rows2'))
    as [Hin|Hout]; [exact Hin|]. exfalso.
  assert (E : rowsWithKey norm k rows1 = [] /\ rowsWithKey norm k rows2 = []).
  { split;
      match goal with
      | |- rowsWithKey norm k ?rows = [] =>
          destruct (rowsWithKey norm k rows) as [|r l] eqn:Er; [reflexivity|];
          exfalso;
          assert (Hr : In r (rowsWithKey norm k rows)) by (rewrite Er; now left);
          apply filter_In in Hr; destruct Hr as (Hr & Hk); apply eqb_eq in Hk;
          subst k; apply Hout
      end.
    - destruct (Hsub r (or_introl Hr)); [now apply rowKeys_old | now apply rowKeys_new].
    - destruct (Hsub r (or_intror Hr)); [now apply rowKeys_old | now apply rowKeys_new]. }
  unfold keyChanged in H. destruct E as (E1 & E2). rewrite E1, E2 in H. discriminate.
Qed.

Lemma rowDiffs_changed_sym norm rows1 rows2 :
  existsb changed
    (map (fun ks => slotDiff norm (fst ks) (snd ks)) (rowSlots norm rows2 rows1))
  = existsb changed
      (map (fun ks => slotDiff norm (fst ks) (snd ks)) (rowSlots norm rows1 rows2)).
Proof.
  rewrite !rowSlots_changed. apply eq_true_iff_eq. rewrite !existsb_exists.
  split; intros (k & _ & Hk).
  - rewrite keyChanged_sym in Hk. exists k. split; [|exact Hk].
    apply (keyChanged_known norm rows1 rows2 rows1 rows2 k Hk). tauto.
  - exists k. rewrite keyChanged_sym. split; [|exact Hk].
    apply (keyChanged_known norm rows1 rows2 rows2 rows1 k Hk). tauto.
Qed.

Lemma checkMetaChanges_sym norm s1 s2 :
  checkMetaChanges norm s2 s1 = checkMetaChanges norm s1 s2.
Proof.
  unfold checkMetaChanges.
  now rewrite (differ_sym norm (DbSection.title s2)),
    (differ_sym norm (DbSection.kommunikationVon s2)),
    (differ_sym norm (DbSection.statusCol1Header s2)),
    (differ_sym norm (DbSection.statusCol2Header s2)).
Qed.

Lemma keyType_swap norm db sections1 sections2 k :
  keyType norm db sections2 sections1 k
  = option_map swapType (keyType norm db sections1 sections2 k).
Proof.
  unfold keyType.
  destruct (findSection k sections1) as [s1|];
    destruct (findSection k sections2) as [s2|]; try reflexivity.
  rewrite rowDiffs_changed_sym, checkMetaChanges_sym.
  now destruct (existsb changed _ || checkMetaChanges norm s1 s2).
Qed.

Lemma entry_keyType norm db sections1 sections2 k d :
  sectionEntry norm db sections1 sections2 k d ->
  keyType norm db sections1 sections2 k = Some (sectionDiffType d).
Proof.
  unfold sectionEntry, keyType.
  destruct (findSection k sections1) as [s1|];
    destruct (findSection k sections2) as [s2|]; intros H; try contradiction;
    subst d; try reflexivity.
  simpl. now destruct (existsb changed _ || checkMetaChanges norm s1 s2).
Qed.

Lemma typeIs_hasType t d : typeIs t d = hasType t (Some (sectionDiffType d)).
Proof. reflexivity. Qed.

Lemma entries_count norm db sections1 sections2 t keys ds :
  Forall2 (sectionEntry norm db sections1 sections2) keys ds ->
  length (filter (typeIs t) ds)
  = length (filter (fun k => hasType t (keyType norm db sections1 sections2 k)) keys).
Proof.
  induction 1 as [|k d keys ds Hd _ IH]; [reflexivity|]. cbn [filter].
  rewrite (entry_keyType _ _ _ _ _ _ Hd), <- typeIs_hasType.
  destruct (typeIs t d); simpl; now rewrite IH.
Qed.

Lemma docKeys_swap db docId1 docId2 :
  Permutation (docKeys db docId2 docId1) (docKeys db docId1 docId2).
Proof.
  apply NoDup_Permutation; try apply docKeys_nodup.
  intros k. rewrite !docKeys_in. tauto.
Qed.

Lemma hasType_swap t o : hasType t (option_map swapType o) = hasType (swapType t) o.
Proof. destruct o as [t'|]; [|reflexivity]. now destruct t, t'. Qed.

Lemma count_swap norm db docId1 docId2 t :
  length (filter (fun k => hasType t
            (keyType norm db (getSections db docId2) (getSections db docId1) k))
          (docKeys db docId2 docId1))
  = length (filter (fun k => hasType (swapType t)
              (keyType norm db (getSections db docId1) (getSections db docId2) k))
            (docKeys db docId1 docId2)).
Proof.
  rewrite (filter_ext _ (fun k => hasType (swapType t)
             (keyType norm db (getSections db docId1) (getSections db docId2) k))).
  - apply Permutation_length, filter_perm, docKeys_swap.
  - intros k. now rewrite keyType_swap, hasType_swap.
Qed.

(** X12.  Exchanging the old and the new document exchanges the numbers of
    added and removed sections and leaves the numbers of modified and
    unchanged sections as they are. *)
Theorem exchanged_documents_exchange_summary (norm : str -> str)
    (db : Database) (docId1 docId2 : Z) :
  exists forth back,
    compareDocuments norm db docId1 docId2 = Some forth /\
    compareDocuments norm db docId2 docId1 = Some back /\
    summary back = swapSummary (summary forth).
Proof.
  destruct (compareDocuments_entries norm db docId1 docId2) as (ds & Hds & E).
  destruct (compareDocuments_entries norm db docId2 docId1) as (ds' & Hds' & E').
  eexists. eexists. split; [exact E|]. split; [exact E'|].
  cbn [summary]. rewrite !countInto_counts. unfold swapSummary. cbn.
  rewrite !(entries_count _ _ _ _ _ _ _ Hds), !(entries_count _ _ _ _ _ _ _ Hds').
  rewrite (count_swap norm db docId1 docId2 Added),
    (count_swap norm db docId1 docId2 Removed),
    (count_swap norm db docId1 docId2 Modified),
    (count_swap norm db docId1 docId2 Unchanged).
  reflexivity.
Qed.

End Exchange.

(* ================================================================== *)
(** * More on the text normalisation *)
(* ================================================================== *)

Module NormalizeMore.
Import JS Normalize Aux Notions JSFacts PatternFacts NormalizeFacts.

Lemma wsrem_visible a b : wsrem a b ->
  filter (fun c => negb (isws c)) a = filter (fun c => negb (isws c)) b.
Proof.
  induction 1 as [|c s s' _ IH|c s s' Hc _ IH]; simpl.
  - reflexivity.
  - now rewrite IH.
  - now rewrite Hc.
Qed.

Lemma class_steps_unify s :
  gsub (one_of dash_variant [hyphen])
    (gsub (one_of space_variant [space])
       (gsub (one_of control []) (gsub (one_of zero_width []) s)))
  = map unify (filter (fun c => negb (invisible c)) s).
Proof.
  rewrite !gsub_subst, !gsub_delete. unfold invisible, unify.
  induction s as [|c t IH]; [reflexivity|]. simpl.
  destruct (zero_width c); simpl; [exact IH|].
  destruct (control c); simpl; [exact IH|]. now rewrite IH.
Qed.

(** The pipeline deletes white space from what the class steps give. *)
Lemma pipeline_wsrem s :
  wsrem (map unify (filter (fun c => negb (invisible c)) s)) (pipeline s).
Proof.
  unfold pipeline. rewrite class_steps_unify.
  eapply wsrem_trans; [apply (squeeze_wsrem _ good_word_hyphen_word)|].
  eapply wsrem_trans; [apply (squeeze_wsrem _ good_hyphen_slash)|].
  eapply wsrem_trans; [apply (squeeze_wsrem _ good_slash_hyphen)|].
  eapply wsrem_trans; [apply (squeeze_wsrem _ good_lone_slash)|].
  eapply wsrem_trans; [apply collapse_wsrem | apply wsrem_trim].
Qed.

(** ** White space next to a slash *)

Lemma tight_tail x a t : tight x (a :: t) = true -> tight x t = true.
Proof. simpl. intros H. apply andb_true_iff in H. tauto. Qed.

Lemma wsrem_head_kept x : forall t s, wsrem t s -> forall r, s = x :: r ->
  tight x t = true -> exists r0, t = x :: r0 /\ wsrem r0 r.
Proof.
  induction 1 as [|c s s' H _|c s s' Hc H IH]; intros r E Ht.
  - discriminate.
  - injection E as -> ->. now exists s.
  - exfalso. destruct (IH r E (tight_tail x c s Ht)) as (r0 & -> & _).
    simpl in Ht. now rewrite Hc, N.eqb_refl in Ht.
Qed.

Lemma wsrem_ws_head t b r : wsrem t (b :: r) -> isws b = true ->
  exists w t0, t = w :: t0 /\ isws w = true.
Proof. intros H Hb. inversion H; subst; eauto. Qed.

Lemma wsrem_tight x s s' :
  wsrem s s' -> tight x s = true -> tight x s' = true.
Proof.
  induction 1 as [|c s s' H IH|c s s' Hc H IH]; intros Ht.
  - reflexivity.
  - pose proof (IH (tight_tail x c s Ht)) as Ht'.
    destruct s' as [|b r]; [reflexivity|].
    change (negb (isws c && N.eqb b x) && negb (N.eqb c x && isws b)
            && tight x (b :: r) = true).
    rewrite Ht', andb_true_r. apply andb_true_iff. split; apply negb_true_iff.
    + destruct (isws c) eqn:Hc; [|reflexivity]. simpl.
      destruct (N.eqb_spec b x) as [->|]; [|reflexivity]. exfalso.
      destruct (wsrem_head_kept x s (x :: r) H r eq_refl (tight_tail x c s Ht))
        as (r0 & -> & _).
      simpl in Ht. now rewrite Hc, N.eqb_refl in Ht.
    + destruct (N.eqb_spec c x) as [->|]; [|reflexivity]. simpl.
      destruct (isws b) eqn:Hb; [|reflexivity]. exfalso.
      destruct (wsrem_ws_head s b r H Hb) as (w & t0 & -> & Hw).
      simpl in Ht. rewrite N.eqb_refl, Hw in Ht.
      rewrite andb_false_r in Ht. discriminate.
  - apply IH, (tight_tail x c s Ht).
Qed.

Lemma lone_slash_match s :
  match_pattern lone_slash s
  = match drop_ws s with
    | c :: t => if N.eqb c slash then Some ([c], drop_ws t) else None
    | [] => None
    end.
Proof.
  unfold match_pattern, lone_slash. simpl.
  destruct (drop_ws s) as [|c t]; [reflexivity|].
  unfold chr. now destruct (N.eqb c slash).
Qed.

Lemma squeeze_lone_slash_tight s :
  tight slash (squeeze lone_slash s) = true /\
  (forall r, squeeze lone_slash s = slash :: r -> exists t, drop_ws s = slash :: t).
Proof.
  induction s as [s IH] using str_scan_ind.
  destruct s as [|c t]; [split; [reflexivity | discriminate]|].
  destruct (match_pattern lone_slash (c :: t)) as [[k r]|] eqn:E.
  - rewrite (squeeze_hit _ good_lone_slash c t k r E).
    pose proof (rx_id_shrinks _ good_lone_slash (c :: t) k r) as Hlen.
    unfold rx in Hlen. rewrite E in Hlen. specialize (Hlen eq_refl).
    destruct (match_pattern_some _ good_lone_slash _ _ _ E) as (_ & _ & _ & Htrail).
    specialize (Htrail eq_refl).
    rewrite lone_slash_match in E.
    destruct (drop_ws (c :: t)) as [|c' t'] eqn:Ed; [discriminate|].
    destruct (N.eqb_spec c' slash) as [->|]; [|discriminate].
    injection E as <- <-.
    destruct (IH (drop_ws t') Hlen) as (Ht & _). split.
    + change (tight slash (slash :: squeeze lone_slash (drop_ws t')) = true).
      pose proof (squeeze_head _ good_lone_slash (drop_ws t') (drop_ws_idem t')) as Hh.
      destruct (squeeze lone_slash (drop_ws t')) as [|b q] eqn:Es; [reflexivity|].
      change (negb (isws slash && N.eqb b slash) && negb (N.eqb slash slash && isws b)
              && tight slash (b :: q) = true).
      rewrite Ht, (drop_ws_head b q (b :: q) Hh). reflexivity.
    + intros _ _. now exists t'.
  - rewrite (squeeze_miss _ c t E).
    rewrite lone_slash_match in E.
    assert (Hc : c <> slash).
    { intros ->. simpl in E. discriminate. }
    destruct (IH t (Nat.lt_succ_diag_r _)) as (Ht & Hhead). split.
    + destruct (squeeze lone_slash t) as [|b q] eqn:Es; [reflexivity|].
      change (negb (isws c && N.eqb b slash) && negb (N.eqb c slash && isws b)
              && tight slash (b :: q) = true).
      rewrite Ht, andb_true_r. apply andb_true_iff. split; apply negb_true_iff.
      * destruct (isws c) eqn:Hw; [|reflexivity]. simpl.
        destruct (N.eqb_spec b slash) as [->|]; [|reflexivity]. exfalso.
        destruct (Hhead q eq_refl) as (t0 & Et).
        simpl in E. rewrite Hw, Et in E. discriminate.
      * destruct (N.eqb_spec c slash); [contradiction | reflexivity].
    + intros r Er. injection Er as -> _. contradiction.
Qed.

Lemma filter_invisible s :
  filter (fun c => negb (control c)) (filter (fun c => negb (zero_width c)) s)
  = filter (fun c => negb (invisible c)) s.
Proof.
  unfold invisible. induction s as [|c t IH]; [reflexivity|]. simpl.
  destruct (zero_width c); simpl; [exact IH|].
  destruct (control c); simpl; now rewrite IH.
Qed.

Lemma unify_ws c : isws (unify c) = true -> isws c = true.
Proof.
  unfold unify. destruct (space_variant c) eqn:Hs.
  - intros _. destruct (isws c) eqn:E; [reflexivity|exfalso].
    unfold_classes. bool_lia.
  - destruct (dash_variant c); [discriminate | auto].
Qed.

Lemma ws_unify c : isws c = true -> isws (unify c) = true.
Proof.
  unfold unify. intros H. destruct (space_variant c); [reflexivity|].
  destruct (dash_variant c) eqn:Hd; [|exact H]. exfalso.
  assert (E : isws c = false); [|congruence].
  clear H. destruct (isws c) eqn:E; [exfalso|reflexivity].
  unfold_classes. bool_lia.
Qed.

Lemma drop_ws_all w : Forall (fun c => isws c = true) w -> drop_ws w = [].
Proof. induction 1 as [|c w Hc _ IH]; simpl; [reflexivity | now rewrite Hc]. Qed.

Lemma trim_all_ws w : Forall (fun c => isws c = true) w -> trim w = [].
Proof. intros H. unfold trim. now rewrite (drop_ws_all w H). Qed.

Lemma trim_fixed_ws s : Forall (fun c => isws c = true) s -> trim s = s -> s = [].
Proof. intros H E. rewrite <- E. now apply trim_all_ws. Qed.

Lemma clean_unify y : Forall clean_char y ->
  map unify (filter (fun c => negb (invisible c)) y) = y.
Proof.
  induction 1 as [|c t (H1 & H2 & H3 & H4) _ IH]; [reflexivity|].
  simpl. unfold invisible at 1. rewrite H1, H2. simpl. rewrite IH.
  f_equal. unfold unify. now rewrite H3, H4.
Qed.

(** X13.  What [normalizeForComparison] returns has no white space at
    either end, no two plain spaces in a row, no white space next to a slash,
    and none of the code units the first four replacements look for. *)
Theorem normalizeForComparison_shape (s : str) :
  trim (normalizeForComparison s) = normalizeForComparison s /\
  nodouble (normalizeForComparison s) /\
  tight slash (normalizeForComparison s) = true /\
  Forall clean_char (normalizeForComparison s).
Proof.
  rewrite normalize_pipeline_all. split; [apply trim_idem|].
  split; [apply trim_nodouble, collapse_nodouble|]. split.
  - unfold pipeline.
    eapply wsrem_tight;
      [eapply wsrem_trans; [apply collapse_wsrem | apply wsrem_trim]|].
    apply squeeze_lone_slash_tight.
  - eapply wsrem_Forall; [apply pipeline_wsrem|].
    rewrite <- class_steps_unify. apply clean_class_steps.
Qed.

(** X14.  Normalisation touches nothing but white space, invisible code
    units and the kind of dash: what is to be seen of the result is what is
    to be seen of the text, and the result is never longer than the text. *)
Theorem normalizeForComparison_keeps_visible_text (s : str) :
  visibleText (normalizeForComparison s) = visibleText s /\
  filter (fun c => negb (isws c)) (normalizeForComparison s) = visibleText s /\
  length (normalizeForComparison s) <= length s.
Proof.
  rewrite normalize_pipeline_all.
  assert (Hv : filter (fun c => negb (isws c)) (pipeline s) = visibleText s).
  { symmetry. apply wsrem_visible, pipeline_wsrem. }
  split; [|split; [exact Hv|]].
  - assert (Hclean : Forall clean_char (pipeline s)).
    { eapply wsrem_Forall; [apply pipeline_wsrem|].
      rewrite <- class_steps_unify. apply clean_class_steps. }
    rewrite <- Hv. unfold visibleText. f_equal. now apply clean_unify.
  - pose proof (wsrem_length _ _ (pipeline_wsrem s)) as H.
    rewrite length_map in H.
    pose proof (filter_length_le (fun c => negb (invisible c)) s). lia.
Qed.

(** X15.  A text is normalised to the empty string exactly when it has
    nothing but white space and invisible code units. *)
Theorem normalizeForComparison_empty (s : str) :
  normalizeForComparison s = []
  <-> Forall (fun c => isws c || invisible c = true) s.
Proof.
  rewrite normalize_pipeline_all. split.
  - intros E. pose proof (wsrem_visible _ _ (pipeline_wsrem s)) as H.
    rewrite E in H. simpl in H. clear E.
    induction s as [|c t IH]; [constructor|].
    simpl in H. destruct (invisible c) eqn:Hi; simpl in H.
    + constructor; [now rewrite Hi, orb_true_r | now apply IH].
    + destruct (isws (unify c)) eqn:Hw; simpl in H; [|discriminate].
      constructor; [now rewrite (unify_ws c Hw) | now apply IH].
  - intros H.
    assert (Hall : Forall (fun c => isws c = true)
                     (map unify (filter (fun c => negb (invisible c)) s))).
    { induction H as [|c t Hc _ IH]; [constructor|]. simpl.
      destruct (invisible c) eqn:Hi; simpl; [exact IH|].
      constructor; [|exact IH]. rewrite orb_false_r in Hc. now apply ws_unify. }
    apply trim_fixed_ws.
    + eapply wsrem_Forall; [apply pipeline_wsrem | exact Hall].
    + apply trim_idem.
Qed.

(** X16.  Two texts that are equal once their zero-width and control code
    units are taken out are normalised to the same string. *)
Theorem normalizeForComparison_ignores_invisible (s1 s2 : str) :
  filter (fun c => negb (invisible c)) s1 = filter (fun c => negb (invisible c)) s2 ->
  normalizeForComparison s1 = normalizeForComparison s2.
Proof.
  intros H. rewrite !normalize_pipeline_all. unfold pipeline.
  now rewrite !class_steps_unify, H.
Qed.

Lemma normalizeForComparison_ignores_invisible_witness :
  normalizeForComparison (lit "SG" ++ [8203%N] ++ lit "2 /" ++ [7%N] ++ lit " CTA")
  = normalizeForComparison (lit "SG2 / CTA").
Proof.
  apply (normalizeForComparison_ignores_invisible
           (lit "SG" ++ [8203%N] ++ lit "2 /" ++ [7%N] ++ lit " CTA")
           (lit "SG2 / CTA")).
  reflexivity.
Defined.

End NormalizeMore.

(* ================================================================== *)
(** * White space of the text fragments *)
(* ================================================================== *)

Module FragmentText.
Import JS Aux Notions JSFacts NormalizeFacts NormalizeMore ParserText.

Local Abbreviation blank := (gsub (ws_run (lit " "))).

Lemma drop_ws_length t : length (drop_ws t) <= length t.
Proof. apply wsrem_length, wsrem_drop_ws. Qed.

Lemma ws_run_shrinks r : shrinks (ws_run r).
Proof.
  intros [|c t] r' rest; simpl; [discriminate|].
  destruct (isws c); [|discriminate]. intros E. injection E as _ <-.
  pose proof (drop_ws_length t). lia.
Qed.

Lemma blank_hit c t : isws c = true ->
  blank (c :: t) = 32%N :: blank (drop_ws t).
Proof.
  intros H. apply (gsub_hit _ c t (lit " ") (drop_ws t) (ws_run_shrinks _)).
  simpl. now rewrite H.
Qed.

Lemma blank_miss c t : isws c = false -> blank (c :: t) = c :: blank t.
Proof. intros H. apply gsub_miss. simpl. now rewrite H. Qed.

Lemma blank_head s : drop_ws s = s -> no_space_head (blank s).
Proof.
  destruct s as [|c t]; intros H; [rewrite gsub_nil; exact I|].
  pose proof (drop_ws_head c t (c :: t) H) as Hc.
  rewrite (blank_miss c t Hc). simpl. intros ->. discriminate.
Qed.

Lemma blank_shape s : Forall plainSpaced (blank s) /\ nodouble (blank s).
Proof.
  induction s as [s IH] using str_scan_ind.
  destruct s as [|c t]; [rewrite gsub_nil; split; [constructor | apply nodouble_nil]|].
  destruct (isws c) eqn:Hc.
  - rewrite (blank_hit c t Hc).
    assert (Hlen : length (drop_ws t) < length (c :: t)).
    { pose proof (drop_ws_length t). simpl. lia. }
    destruct (IH _ Hlen) as (H1 & H2). split.
    + constructor; [now intros _ | exact H1].
    + apply nodouble_cons; [exact H2|]. intros _.
      apply blank_head, drop_ws_idem.
  - rewrite (blank_miss c t Hc).
    destruct (IH t (Nat.lt_succ_diag_r _)) as (H1 & H2). split.
    + constructor; [|exact H1]. intros H. congruence.
    + apply nodouble_cons; [exact H2|]. intros ->. discriminate.
Qed.

Lemma blank_visible s :
  filter (fun c => negb (isws c)) (blank s) = filter (fun c => negb (isws c)) s.
Proof.
  induction s as [s IH] using str_scan_ind.
  destruct s as [|c t]; [now rewrite gsub_nil|].
  destruct (isws c) eqn:Hc.
  - rewrite (blank_hit c t Hc).
    assert (Hlen : length (drop_ws t) < length (c :: t)).
    { pose proof (drop_ws_length t). simpl. lia. }
    simpl. rewrite Hc. simpl. rewrite (IH _ Hlen).
    symmetry. apply wsrem_visible, wsrem_drop_ws.
  - rewrite (blank_miss c t Hc). simpl. rewrite Hc. simpl.
    now rewrite (IH t (Nat.lt_succ_diag_r _)).
Qed.

Lemma nodouble_head t : nodouble (32%N :: t) -> no_space_head t.
Proof.
  intros H. destruct t as [|b t]; [exact I|]. simpl. intros ->.
  apply (H [] t). reflexivity.
Qed.

Lemma blank_fixed s : Forall plainSpaced s -> nodouble s -> blank s = s.
Proof.
  induction 1 as [|c t Hc Ht IH]; intros Hn; [apply gsub_nil|].
  pose proof (nodouble_tail c t Hn) as Hn'.
  destruct (isws c) eqn:Hw.
  - rewrite (blank_hit c t Hw). pose proof (Hc Hw) as ->.
    assert (E : drop_ws t = t).
    { pose proof (nodouble_head t Hn) as Hh.
      destruct Ht as [|b t Hb _]; [reflexivity|].
      simpl. destruct (isws b) eqn:Hwb; [|reflexivity].
      exfalso. apply Hh, Hb, Hwb. }
    rewrite E. now rewrite (IH Hn').
  - rewrite (blank_miss c t Hw). now rewrite (IH Hn').
Qed.

Lemma Forall_trim (P : N -> Prop) s : Forall P s -> Forall P (trim s).
Proof.
  intros H. destruct (trim_infix s) as (w1 & w2 & E). rewrite E in H.
  apply Forall_app in H. destruct H as (_ & H).
  apply Forall_app in H. tauto.
Qed.

Lemma no_visible_all_ws s :
  filter (fun c => negb (isws c)) s = [] <-> Forall (fun c => isws c = true) s.
Proof.
  induction s as [|c t IH]; simpl; [split; [constructor | reflexivity]|].
  destruct (isws c) eqn:Hc; simpl.
  - rewrite IH. split; [now constructor | now inversion 1].
  - split; [discriminate|]. inversion 1. congruence.
Qed.

(** X17.  A text fragment cleaned by [normalizeWhitespace] has no white
    space at either end, its white space is single plain spaces, and its
    other code units are those of the fragment, in their order. *)
Theorem normalizeWhitespace_shape (text : str) :
  trim (normalizeWhitespace text) = normalizeWhitespace text /\
  Forall plainSpaced (normalizeWhitespace text) /\
  nodouble (normalizeWhitespace text) /\
  filter (fun c => negb (isws c)) (normalizeWhitespace text)
  = filter (fun c => negb (isws c)) text.
Proof.
  unfold normalizeWhitespace. destruct (blank_shape text) as (H1 & H2).
  split; [apply trim_idem|]. split; [now apply Forall_trim|].
  split; [now apply trim_nodouble|].
  rewrite <- (blank_visible text). symmetry. apply wsrem_visible, wsrem_trim.
Qed.

(** X18.  [normalizeWhitespace] is idempotent. *)
Theorem normalizeWhitespace_idempotent (text : str) :
  normalizeWhitespace (normalizeWhitespace text) = normalizeWhitespace text.
Proof.
  unfold normalizeWhitespace. destruct (blank_shape text) as (H1 & H2).
  rewrite (blank_fixed (trim (blank text))).
  - apply trim_idem.
  - now apply Forall_trim.
  - now apply trim_nodouble.
Qed.

(** X19.  The fragments [parsePDF] keeps, those with [item.str.trim()]
    truthy, are the fragments whose cleaned text is not empty. *)
Theorem kept_fragments_have_text (text : str) :
  truthy (normalizeWhitespace text) = truthy (trim text).
Proof.
  assert (H : forall s, truthy (trim s) = false
                        <-> Forall (fun c => isws c = true) s).
  { intros s. rewrite <- no_visible_all_ws,
      (wsrem_visible s (trim s) (wsrem_trim s)), no_visible_all_ws.
    split.
    - destruct (trim s); [constructor | discriminate].
    - intros Hall. rewrite (trim_fixed_ws (trim s) Hall (trim_idem s)). reflexivity. }
  destruct (truthy (trim text)) eqn:E.
  - destruct (truthy (normalizeWhitespace text)) eqn:E'; [reflexivity|].
    unfold normalizeWhitespace in E'. apply H in E'.
    apply no_visible_all_ws in E'. rewrite blank_visible in E'.
    apply no_visible_all_ws, H in E'. congruence.
  - apply H in E. unfold normalizeWhitespace. apply H.
    apply no_visible_all_ws. rewrite blank_visible. now apply no_visible_all_ws.
Qed.

End FragmentText.

(* ================================================================== *)
(** * The command line *)
(* ================================================================== *)

Module CliFacts.
Import JS Aux Notions JSFacts Comparator Cli.

Lemma indexOfFrom_spec x l : forall i,
  (~ In x l /\ indexOfFrom x l i = (-1)%Z) \/
  (exists pre post, l = pre ++ x :: post /\ ~ In x pre /\
     indexOfFrom x l i = (i + Z.of_nat (length pre))%Z).
Proof.
  induction l as [|a l IH]; intros i; simpl.
  - left. tauto.
  - destruct (eqb_spec a x) as [->|Hne].
    + right. exists [], l. simpl. split; [reflexivity|]. split; [tauto | lia].
    + destruct (IH (i + 1)%Z) as [(Hn & E)|(pre & post & -> & Hn & E)].
      * left. split; [intros [H|H]; tauto | exact E].
      * right. exists (a :: pre), post. split; [reflexivity|].
        split; [intros [H|H]; tauto|]. rewrite E. simpl length. lia.
Qed.

Lemma first_occurrence_unique (x : str) pre : forall pre' post post',
  pre ++ x :: post = pre' ++ x :: post' -> ~ In x pre -> ~ In x pre' ->
  pre = pre' /\ post = post'.
Proof.
  induction pre as [|a pre IH]; intros [|a' pre'] post post' E H H'; simpl in *.
  - injection E as ->. tauto.
  - injection E as <- _. tauto.
  - injection E as -> _. tauto.
  - injection E as <- E. destruct (IH pre' post post' E) as (-> & ->); tauto.
Qed.

Lemma getArg_found pre flag post : ~ In flag pre ->
  getArg (pre ++ flag :: post) flag = hd_error post.
Proof.
  intros Hn. unfold getArg, indexOf.
  destruct (indexOfFrom_spec flag (pre ++ flag :: post) 0)
    as [(Hout & _)|(pre' & post' & E & Hn' & ->)].
  { exfalso. apply Hout, in_elt. }
  destruct (first_occurrence_unique flag pre pre' post post' E Hn Hn') as (<- & <-).
  rewrite length_app. simpl length.
  replace (Z.to_nat (0 + Z.of_nat (length pre) + 1)) with (length pre + 1) by lia.
  rewrite nth_error_app2 by lia.
  replace (length pre + 1 - length pre) with 1 by lia.
  destruct post as [|v post]; simpl.
  - destruct (negb _ && _) eqn:E1; [|reflexivity].
    apply andb_true_iff in E1. destruct E1 as (_ & E1). apply Z.ltb_lt in E1. lia.
  - destruct (negb _ && _) eqn:E1; [reflexivity|].
    apply andb_false_iff in E1. destruct E1 as [E1|E1].
    + apply negb_false_iff, Z.eqb_eq in E1. lia.
    + apply Z.ltb_ge in E1. lia.
Qed.

Lemma getArg_absent args flag : ~ In flag args -> getArg args flag = None.
Proof.
  intros Hn. unfold getArg, indexOf.
  destruct (indexOfFrom_spec flag args 0)
    as [(_ & ->)|(pre' & post' & -> & _)]; [reflexivity|].
  exfalso. apply Hn, in_elt.
Qed.

(** X20.  [getArg] gives the argument right behind the first occurrence of
    the flag, whatever it is, and nothing when the flag is missing or its
    first occurrence is the last argument. *)
Theorem getArg_first_occurrence (args : list str) (flag : str) :
  (forall v, getArg args flag = Some v
             <-> exists pre post, args = pre ++ flag :: v :: post /\ ~ In flag pre) /\
  (getArg args flag = None
   <-> ~ In flag args \/ exists pre, args = pre ++ [flag] /\ ~ In flag pre).
Proof.
  destruct (indexOfFrom_spec flag args 0)
    as [(Hout & _)|(pre & post & -> & Hn & _)].
  - rewrite (getArg_absent args flag Hout). split.
    + intros v. split; [discriminate|].
      intros (pre & post & -> & _). exfalso. apply Hout, in_elt.
    + split; [now left | reflexivity].
  - rewrite (getArg_found pre flag post Hn). split.
    + intros v. split.
      * destruct post as [|v' post]; [discriminate|]. intros E. injection E as ->.
        now exists pre, post.
      * intros (pre' & post' & E & Hn').
        destruct (first_occurrence_unique flag pre pre' post (v :: post') E Hn Hn')
          as (_ & ->). reflexivity.
    + split.
      * destruct post as [|v post]; [|discriminate]. intros _. right. now exists pre.
      * intros [Hout|(pre' & E & Hn')]; [exfalso; apply Hout, in_elt|].
        destruct (first_occurrence_unique flag pre pre' post [] E Hn Hn')
          as (_ & ->). reflexivity.
Qed.

(** X21.  The paths of the report and of the database are never empty, and
    they are the defaults when their flags are not given. *)
Theorem paths_have_defaults (args : list str) :
  outputPath args <> [] /\ dbPath args <> [] /\
  (~ In (lit "--output") args -> outputPath args = lit "report.html") /\
  (~ In (lit "--db") args -> dbPath args = lit "compare.sqlite").
Proof.
  unfold outputPath, dbPath, orDefault. repeat split.
  - destruct (getArg args (lit "--output")) as [[|c v]|]; discriminate.
  - destruct (getArg args (lit "--db")) as [[|c v]|]; discriminate.
  - intros H. now rewrite (getArg_absent _ _ H).
  - intros H. now rewrite (getArg_absent _ _ H).
Qed.

Lemma paths_have_defaults_witness :
  outputPath [lit "old.pdf"; lit "new.pdf"; lit "--db"; lit "x.sqlite"]
  = lit "report.html".
Proof.
  apply (proj1 (proj2 (proj2 (paths_have_defaults
           [lit "old.pdf"; lit "new.pdf"; lit "--db"; lit "x.sqlite"])))).
  simpl. intros H.
  repeat match goal with H : _ \/ _ |- _ => destruct H as [H|H] end;
    try discriminate H. exact H.
Defined.

Lemma countRow_counts t stats rd :
  (if sameType t Added then added (countRow stats rd)
   else if sameType t Removed then removed (countRow stats rd)
   else if sameType t Modified then modified (countRow stats rd)
   else unchanged (countRow stats rd))
  = (if sameType t Added then added stats
     else if sameType t Removed then removed stats
     else if sameType t Modified then modified stats
     else unchanged stats)
    + (if rowTypeIs t rd then 1 else 0).
Proof.
  unfold countRow, rowTypeIs.
  destruct t; destruct (rowDiffType rd); simpl; lia.
Qed.

Lemma countRows_counts t rds : forall stats,
  (if sameType t Added then added (fold_left countRow rds stats)
   else if sameType t Removed then removed (fold_left countRow rds stats)
   else if sameType t Modified then modified (fold_left countRow rds stats)
   else unchanged (fold_left countRow rds stats))
  = (if sameType t Added then added stats
     else if sameType t Removed then removed stats
     else if sameType t Modified then modified stats
     else unchanged stats)
    + length (filter (rowTypeIs t) rds).
Proof.
  induction rds as [|rd rds IH]; intros stats; simpl; [lia|].
  rewrite IH, countRow_counts. destruct (rowTypeIs t rd); simpl; lia.
Qed.

Lemma rowStats_fold sds : forall stats,
  fold_left (fun stats sd => fold_left countRow (sectionDiffRows sd) stats) sds stats
  = fold_left countRow (flat_map sectionDiffRows sds) stats.
Proof.
  induction sds as [|sd sds IH]; intros stats; simpl; [reflexivity|].
  now rewrite fold_left_app, IH.
Qed.

Lemma types_partition (rds : list RowDiff) :
  length (filter (rowTypeIs Added) rds) + length (filter (rowTypeIs Removed) rds)
  + length (filter (rowTypeIs Modified) rds)
  + length (filter (rowTypeIs Unchanged) rds) = length rds.
Proof.
  induction rds as [|rd rds IH]; [reflexivity|]. cbn [filter].
  destruct (rowTypeIs Added rd) eqn:E1, (rowTypeIs Removed rd) eqn:E2,
    (rowTypeIs Modified rd) eqn:E3, (rowTypeIs Unchanged rd) eqn:E4;
    unfold rowTypeIs in E1, E2, E3, E4;
    destruct (rowDiffType rd); try discriminate; cbn [length]; lia.
Qed.

(** X22.  The row statistics of [main] count the row diffs of all section
    diffs by their type, and together they count every row diff once. *)
Theorem rowStats_counts (sectionDiffs : list SectionDiff) :
  let all := flat_map sectionDiffRows sectionDiffs in
  added (rowStats sectionDiffs) = length (filter (rowTypeIs Added) all) /\
  removed (rowStats sectionDiffs) = length (filter (rowTypeIs Removed) all) /\
  modified (rowStats sectionDiffs) = length (filter (rowTypeIs Modified) all) /\
  unchanged (rowStats sectionDiffs) = length (filter (rowTypeIs Unchanged) all) /\
  added (rowStats sectionDiffs) + removed (rowStats sectionDiffs)
  + modified (rowStats sectionDiffs) + unchanged (rowStats sectionDiffs)
  = length all.
Proof.
  intros all.
  assert (E : rowStats sectionDiffs = fold_left countRow all noSummary).
  { unfold rowStats. now rewrite rowStats_fold. }
  rewrite E. clear E.
  pose proof (countRows_counts Added all noSummary) as Ha.
  pose proof (countRows_counts Removed all noSummary) as Hr.
  pose proof (countRows_counts Modified all noSummary) as Hm.
  pose proof (countRows_counts Unchanged all noSummary) as Hu.
  pose proof (types_partition all) as Hp.
  cbn [sameType noSummary added removed modified unchanged] in Ha, Hr, Hm, Hu.
  repeat split; lia.
Qed.

End CliFacts.

(* ================================================================== *)
(** * Lines and columns of a page *)
(* ================================================================== *)

Module Grouping.
Import JS Aux Notions JSFacts Parser.

Section WithRuntime.
Variable rt : Runtime.

Lemma insertItem_perm a l : Permutation (insertItem rt a l) (a :: l).
Proof.
  induction l as [|b l IH]; simpl; [reflexivity|].
  destruct (num_lt rt _ _); [|reflexivity].
  rewrite IH. apply perm_swap.
Qed.

Lemma sortItems_perm items : Permutation (sortItems rt items) items.
Proof.
  induction items as [|a l IH]; simpl; [reflexivity|].
  rewrite insertItem_perm. now constructor.
Qed.

Lemma closeRow_concat (rows : list (list (Item.t rt))) currentRow :
  concat (if 0 <? length currentRow then rows ++ [currentRow] else rows)
  = concat rows ++ currentRow.
Proof.
  destruct currentRow as [|a l]; simpl.
  - now rewrite app_nil_r.
  - rewrite concat_app. simpl. now rewrite app_nil_r.
Qed.

Lemma groupLoop_concat sorted : forall rows currentRow currentY,
  concat (groupLoop rt sorted rows currentRow currentY)
  = concat rows ++ currentRow ++ sorted.
Proof.
  induction sorted as [|item rest IH]; intros rows currentRow currentY.
  - cbn [groupLoop]. now rewrite closeRow_concat, app_nil_r.
  - cbn [groupLoop]. destruct (match currentY with None => true | Some _ => _ end).
    + rewrite IH, closeRow_concat, <- app_assoc. reflexivity.
    + rewrite IH, <- app_assoc. reflexivity.
Qed.

Lemma closeRow_nonempty (rows : list (list (Item.t rt))) currentRow :
  Forall (fun g => g <> []) rows ->
  Forall (fun g => g <> [])
    (if 0 <? length currentRow then rows ++ [currentRow] else rows).
Proof.
  intros H. destruct currentRow as [|a l]; simpl; [exact H|].
  apply Forall_app. split; [exact H|]. constructor; [discriminate | constructor].
Qed.

Lemma groupLoop_nonempty sorted : forall rows currentRow currentY,
  Forall (fun g => g <> []) rows ->
  Forall (fun g => g <> []) (groupLoop rt sorted rows currentRow currentY).
Proof.
  induction sorted as [|item rest IH]; intros rows currentRow currentY H.
  - cbn [groupLoop]. now apply closeRow_nonempty.
  - cbn [groupLoop]. destruct (match currentY with None => true | Some _ => _ end).
    + apply IH. now apply closeRow_nonempty.
    + now apply IH.
Qed.

(** ** Lines *)

Lemma lines_extend prev rows : forall first others item,
  lines rt prev (rows ++ [first :: others]) ->
  farFrom rt (Item.y first) item = false ->
  lines rt prev (rows ++ [first :: others ++ [item]]).
Proof.
  revert prev. induction rows as [|g rows IH]; intros prev first others item H Hc.
  - simpl in *. destruct H as (H1 & H2 & _). split; [exact H1|].
    split; [|exact I]. apply Forall_app. split; [exact H2|]. now constructor.
  - simpl in *. destruct g as [|f o]; [contradiction|].
    destruct H as (H1 & H2 & H3). split; [exact H1|]. split; [exact H2|].
    now apply IH.
Qed.

Lemma lines_open prev rows : forall first others item,
  lines rt prev (rows ++ [first :: others]) ->
  farFrom rt (Item.y first) item = true ->
  lines rt prev ((rows ++ [first :: others]) ++ [[item]]).
Proof.
  revert prev. induction rows as [|g rows IH]; intros prev first others item H Hc.
  - simpl in *. destruct H as (H1 & H2 & _). split; [exact H1|].
    split; [exact H2|]. split; [exact Hc|]. split; [constructor | exact I].
  - simpl in *. destruct g as [|f o]; [contradiction|].
    destruct H as (H1 & H2 & H3). split; [exact H1|]. split; [exact H2|].
    now apply IH.
Qed.

Lemma groupLoop_lines sorted : forall rows currentRow currentY,
  grouped rt rows currentRow currentY ->
  lines rt None (groupLoop rt sorted rows currentRow currentY).
Proof.
  induction sorted as [|item rest IH]; intros rows currentRow currentY H.
  - cbn [groupLoop]. destruct currentRow as [|first others]; simpl in *.
    + destruct H as (-> & _). exact I.
    + apply H.
  - cbn [groupLoop]. destruct currentRow as [|first others]; simpl in H.
    + destruct H as (-> & ->). apply IH. simpl. repeat split; constructor.
    + destruct H as (-> & H). fold (farFrom rt (Item.y first) item).
      destruct (farFrom rt (Item.y first) item) eqn:Hf.
      * apply IH. simpl. split; [reflexivity|]. now apply lines_open.
      * apply IH. simpl. split; [reflexivity|]. now apply lines_extend.
Qed.

(** ** Columns *)

Lemma join_snoc l : forall t, l <> [] ->
  join (lit " ") (l ++ [t]) = join (lit " ") l ++ lit " " ++ t.
Proof.
  induction l as [|a l IH]; intros t H; [contradiction|].
  destruct l as [|b l]; [reflexivity|].
  change (a ++ lit " " ++ join (lit " ") ((b :: l) ++ [t])
          = (a ++ lit " " ++ join (lit " ") (b :: l)) ++ lit " " ++ t).
  rewrite IH by discriminate. now rewrite <- !app_assoc.
Qed.

Lemma join_truthy l :
  l <> [] -> Forall (fun t => t <> []) l -> truthy (join (lit " ") l) = true.
Proof.
  destruct l as [|a l]; [contradiction|]. intros _ H. inversion H; subst.
  destruct a as [|c a]; [contradiction|]. destruct l; reflexivity.
Qed.

Lemma appendText_join l t : Forall (fun t => t <> []) l ->
  appendText (join (lit " ") l) t = join (lit " ") (l ++ [t]).
Proof.
  intros H. unfold appendText. destruct l as [|a l]; [reflexivity|].
  rewrite join_truthy by (discriminate || assumption).
  symmetry. apply join_snoc. discriminate.
Qed.

Lemma textsOf_cons p item items :
  textsOf rt p (item :: items)
  = (if p item then [Item.text item] else []) ++ textsOf rt p items.
Proof. unfold textsOf. simpl. now destruct (p item). Qed.

Lemma placeItem_holds p item G C D B S1 S2 Bd :
  Item.text item <> [] -> holds p G C D B S1 S2 Bd ->
  holds (placeItem rt p item)
    (G ++ if inEdifactSub rt segmentGroup item then [Item.text item] else [])
    (C ++ if inEdifactSub rt segmentCode item then [Item.text item] else [])
    (D ++ if inEdifactSub rt dataElement item then [Item.text item] else [])
    (B ++ if inColumn rt beschreibung item then [Item.text item] else [])
    (S1 ++ if inColumn rt status1 item then [Item.text item] else [])
    (S2 ++ if inColumn rt status2 item then [Item.text item] else [])
    (Bd ++ if inColumn rt bedingung item then [Item.text item] else []).
Proof.
  intros Ht ((HG & HG') & (HC & HC') & (HD & HD') & HB & HS1 & HS2 & HBd).
  assert (Hsnoc : forall l, Forall (fun t => t <> []) l ->
                            Forall (fun t => t <> []) (l ++ [Item.text item])).
  { intros l Hl. apply Forall_app. split; [exact Hl | now constructor]. }
  unfold placeItem, inEdifactSub, inColumn, holds.
  destruct (classifyColumn rt (Item.x item));
    [destruct (classifyEdifactSub rt (Item.x item))| | | |];
    cbn; rewrite ?app_nil_r, ?HG, ?HC, ?HD, ?HB, ?HS1, ?HS2, ?HBd;
    rewrite ?appendText_join by assumption; auto 20.
Qed.

Lemma placeItems_hold items : forall p G C D B S1 S2 Bd,
  Forall (fun item => Item.text item <> []) items ->
  holds p G C D B S1 S2 Bd ->
  holds (fold_left (placeItem rt) items p)
    (G ++ textsOf rt (inEdifactSub rt segmentGroup) items)
    (C ++ textsOf rt (inEdifactSub rt segmentCode) items)
    (D ++ textsOf rt (inEdifactSub rt dataElement) items)
    (B ++ textsOf rt (inColumn rt beschreibung) items)
    (S1 ++ textsOf rt (inColumn rt status1) items)
    (S2 ++ textsOf rt (inColumn rt status2) items)
    (Bd ++ textsOf rt (inColumn rt bedingung) items).
Proof.
  induction items as [|item items IH]; intros p G C D B S1 S2 Bd Ht H.
  - unfold textsOf. simpl. now rewrite !app_nil_r.
  - inversion Ht as [|? ? Hi Hrest]; subst. cbn [fold_left].
    rewrite !textsOf_cons, !app_assoc.
    apply IH; [exact Hrest|]. now apply placeItem_holds.
Qed.

End WithRuntime.

(** X23.  Grouping loses and invents nothing: the groups, one behind the
    other, are the items in sorted order, hence a rearrangement of the
    items, and no group is empty. *)
Theorem groupIntoRows_conserves_items (rt : Runtime) (items : list (Item.t rt)) :
  concat (groupIntoRows rt items) = sortItems rt items /\
  Permutation (concat (groupIntoRows rt items)) items /\
  Forall (fun g => g <> []) (groupIntoRows rt items).
Proof.
  assert (E : concat (groupIntoRows rt items) = sortItems rt items).
  { unfold groupIntoRows. now rewrite groupLoop_concat. }
  split; [exact E|]. split.
  - rewrite E. apply sortItems_perm.
  - unfold groupIntoRows. apply groupLoop_nonempty. constructor.
Qed.

(** X24.  Every group is a line: its items lie within the threshold of the
    height of its first item, and the first item of each further group lies
    beyond the threshold of the height of the first item of the group
    before. *)
Theorem groupIntoRows_groups_are_lines (rt : Runtime) (items : list (Item.t rt)) :
  lines rt None (groupIntoRows rt items).
Proof.
  unfold groupIntoRows. apply groupLoop_lines. simpl. tauto.
Qed.

(** X25.  When no item has an empty text, as with the items [parsePDF]
    hands over, every field of a parsed row is the texts of the items of its
    column, in their order, joined by single spaces. *)
Theorem parseRow_joins_columns (rt : Runtime) (items : list (Item.t rt)) :
  Forall (fun item => Item.text item <> []) items ->
  ParsedRow.segmentGroup (parseRow rt items)
  = join (lit " ") (textsOf rt (inEdifactSub rt segmentGroup) items) /\
  ParsedRow.segmentCode (parseRow rt items)
  = join (lit " ") (textsOf rt (inEdifactSub rt segmentCode) items) /\
  ParsedRow.dataElement (parseRow rt items)
  = join (lit " ") (textsOf rt (inEdifactSub rt dataElement) items) /\
  ParsedRow.beschreibung (parseRow rt items)
  = join (lit " ") (textsOf rt (inColumn rt beschreibung) items) /\
  ParsedRow.statusCol1 (parseRow rt items)
  = join (lit " ") (textsOf rt (inColumn rt status1) items) /\
  ParsedRow.statusCol2 (parseRow rt items)
  = join (lit " ") (textsOf rt (inColumn rt status2) items) /\
  ParsedRow.bedingung (parseRow rt items)
  = join (lit " ") (textsOf rt (inColumn rt bedingung) items).
Proof.
  intros Ht.
  pose proof (placeItems_hold rt items
                {| p_segmentGroup := []; p_segmentCode := []; p_dataElement := [];
                   p_beschreibung := []; p_status1 := []; p_status2 := [];
                   p_bedingung := [] |} [] [] [] [] [] [] [] Ht) as H.
  destruct H as ((HG & _) & (HC & _) & (HD & _) & HB & HS1 & HS2 & HBd).
  { repeat split; constructor. }
  unfold parseRow. cbn [ParsedRow.segmentGroup ParsedRow.segmentCode
    ParsedRow.dataElement ParsedRow.beschreibung ParsedRow.statusCol1
    ParsedRow.statusCol2 ParsedRow.bedingung].
  rewrite HG, HC, HD, HB, HS1, HS2, HBd. simpl app. tauto.
Qed.

Lemma parseRow_joins_columns_witness :
  ParsedRow.segmentGroup
    (parseRow Sample.runtime (Page.items Sample.page1))
  = join (lit " ")
      (textsOf Sample.runtime (inEdifactSub Sample.runtime segmentGroup)
         (Page.items Sample.page1)).
Proof.
  apply (parseRow_joins_columns Sample.runtime (Page.items Sample.page1)).
  repeat constructor; discriminate.
Defined.

End Grouping.

(* ================================================================== *)
(** * The sections of a document *)
(* ================================================================== *)

Module SectionBuilding.
Import JS Aux Notions JSFacts Parser Structuring.

Section WithRuntime.
Variable rt : Runtime.

(** ** [buildSections] as one walk through the rows of the document *)

Lemma fold_left_mapped {A B C} (f : A -> C -> A) (g : B -> C) l : forall a,
  fold_left f (map g l) a = fold_left (fun a b => f a (g b)) l a.
Proof. induction l as [|b l IH]; intros a; simpl; [reflexivity | apply IH]. Qed.

Lemma run_app rows1 rows2 st :
  run rt (rows1 ++ rows2) st = run rt rows2 (run rt rows1 st).
Proof. apply fold_left_app. Qed.

Lemma buildPage_run st page :
  buildPage rt st page = run rt (documentRows rt [page]) st.
Proof.
  unfold buildPage, documentRows, run. cbn [flat_map]. rewrite app_nil_r.
  rewrite fold_left_mapped. cbn [fst snd].
  destruct (filter _ (Page.items page)) as [|item items]; reflexivity.
Qed.

Lemma buildPages_run pages : forall st,
  fold_left (buildPage rt) pages st = run rt (documentRows rt pages) st.
Proof.
  induction pages as [|page pages IH]; intros st; [reflexivity|].
  assert (E : documentRows rt (page :: pages)
              = documentRows rt [page] ++ documentRows rt pages).
  { unfold documentRows. cbn [flat_map]. now rewrite app_nil_r. }
  rewrite E, run_app. cbn [fold_left]. now rewrite IH, buildPage_run.
Qed.

Lemma buildSections_run pages :
  buildSections rt pages
  = sections (finalizeSection (run rt (documentRows rt pages) start)).
Proof. unfold buildSections. now rewrite buildPages_run. Qed.

Lemma run_invariant (I : Builder -> Prop) :
  (forall n st parsed, I st -> I (classifyRow rt n st parsed)) ->
  forall rows st, I st -> I (run rt rows st).
Proof.
  intros Hstep rows. induction rows as [|[n parsed] rows IH]; intros st H.
  - exact H.
  - apply IH, Hstep, H.
Qed.

(** ** The codes of the sections *)

Lemma openKeys_eq st :
  openKeys st
  = map ParsedSection.pruefidentifikator (sections st)
    ++ match current st with
       | Some c => [ParsedSection.pruefidentifikator c]
       | None => []
       end.
Proof.
  unfold openKeys, finalizeSection. destruct (current st) as [c|]; simpl.
  - now rewrite map_app.
  - now rewrite app_nil_r.
Qed.

Lemma step_keys n st parsed :
  if opensAt rt st parsed
  then openKeys (classifyRow rt n st parsed) = openKeys st ++ [statusValues rt parsed]
       /\ current (classifyRow rt n st parsed) <> None
  else openKeys (classifyRow rt n st parsed) = openKeys st
       /\ (current (classifyRow rt n st parsed) = None <-> current st = None).
Proof.
  unfold opensAt, opens.
  destruct (isTableHeader rt parsed) eqn:Ht.
  { unfold classifyRow. rewrite Ht. simpl. tauto. }
  destruct (isPruefidentifikatorHeader rt parsed) eqn:Hh; cbn [negb andb].
  - destruct (current st) as [c|] eqn:Ec.
    + unfold sectionKey.
      destruct (eqb (join (lit ",") (statusValues rt parsed))
                  (join (lit ",") (ParsedSection.pruefidentifikator c))) eqn:Ek;
        cbn [negb]; unfold classifyRow; rewrite Ht, Hh, Ec, Ek.
      * rewrite Ec. tauto.
      * split; [|discriminate].
        unfold openKeys at 1. unfold finalizeSection at 1. cbn.
        now rewrite map_app.
    + unfold classifyRow; rewrite Ht, Hh, Ec. split; [|discriminate].
      unfold openKeys at 1. unfold finalizeSection at 1. cbn.
      now rewrite map_app.
  - destruct (not_header_keeps_sections rt n st parsed Hh) as (Hs & Hc).
    rewrite !openKeys_eq, Hs.
    destruct (current (classifyRow rt n st parsed)) as [c'|];
      destruct (current st) as [c|]; simpl in Hc; try discriminate.
    + injection Hc as ->. split; [reflexivity|]. split; discriminate.
    + tauto.
Qed.

Lemma header_has_code parsed : opens rt parsed = true ->
  Exists (fun c => codeLike c = true) (statusValues rt parsed) /\
  length (statusValues rt parsed) <= 2 /\
  Forall (fun c => trim c = c) (statusValues rt parsed).
Proof.
  unfold opens, isPruefidentifikatorHeader, statusValues, codeLike.
  intros H. apply andb_true_iff in H. destruct H as (_ & H).
  destruct (includes _ marker); [|discriminate]. cbn [negb] in H.
  assert (Hnil : fiveDigits (trim []) || twoCodes (trim []) = false) by reflexivity.
  assert (Hnil5 : fiveDigits (trim []) = false) by reflexivity.
  assert (Hnil2 : twoCodes (trim []) = false) by reflexivity.
  destruct (ParsedRow.statusCol1 parsed) as [|a s1];
    destruct (ParsedRow.statusCol2 parsed) as [|b s2]; cbn [filter truthy map length].
  - rewrite Hnil5, Hnil2 in H. discriminate.
  - rewrite Hnil5, Hnil2 in H. cbn [orb] in H. rewrite orb_false_r in H.
    split; [apply Exists_cons_hd; exact H|]. split; [lia|].
    constructor; [apply trim_idem | constructor].
  - rewrite Hnil5, Hnil2 in H. rewrite !orb_false_r in H.
    split; [apply Exists_cons_hd; exact H|]. split; [lia|].
    constructor; [apply trim_idem | constructor].
  - split; [|split; [lia|]].
    + destruct (fiveDigits (trim (a :: s1)) || twoCodes (trim (a :: s1))) eqn:E1.
      * now apply Exists_cons_hd.
      * apply Exists_cons_tl, Exists_cons_hd.
        apply orb_false_iff in E1. destruct E1 as (E1 & E2).
        rewrite E1, E2 in H. cbn [orb] in H. rewrite orb_false_r in H. exact H.
    + constructor; [apply trim_idem|]. constructor; [apply trim_idem | constructor].
Qed.

Lemma opensAt_opens st parsed : opensAt rt st parsed = true -> opens rt parsed = true.
Proof. unfold opensAt. intros H. apply andb_true_iff in H. tauto. Qed.

Lemma distinct_snoc l : forall b a,
  distinctNeighbours (l ++ [b]) -> b <> a -> distinctNeighbours ((l ++ [b]) ++ [a]).
Proof.
  induction l as [|x l IH]; intros b a H Hne.
  - simpl. tauto.
  - destruct H as (H1 & H2). specialize (IH b a H2 Hne).
    split; [|exact IH]. destruct l; exact H1.
Qed.

Lemma run_keys rows : forall st,
  (current st = None -> openKeys st = []) ->
  length (openKeys (run rt rows st))
  <= length (openKeys st) + length (filter (rowOpens rt) rows) /\
  (current (run rt rows st) = None
   <-> current st = None /\ Forall (fun nr => rowOpens rt nr = false) rows) /\
  (current (run rt rows st) = None -> openKeys (run rt rows st) = []).
Proof.
  induction rows as [|[n parsed] rows IH]; intros st Hn.
  - simpl. split; [lia|]. split; [|exact Hn]. split; [now split | tauto].
  - change (run rt ((n, parsed) :: rows) st)
      with (run rt rows (classifyRow rt n st parsed)).
    pose proof (step_keys n st parsed) as Hstep. cbn [filter].
    unfold rowOpens at 1. cbn [snd].
    destruct (opensAt rt st parsed) eqn:Eo.
    + destruct Hstep as (E & Hc).
      destruct (IH (classifyRow rt n st parsed)) as (H1 & H2 & H3).
      { intros Hc'. contradiction. }
      rewrite (opensAt_opens st parsed Eo).
      rewrite E, length_app in H1. cbn [length] in *.
      split; [lia|]. split; [|exact H3]. rewrite H2. split.
      * intros (Hc' & _). contradiction.
      * intros (_ & Hall). inversion Hall as [|? ? Ho _]; subst.
        unfold rowOpens in Ho. cbn [snd] in Ho.
        rewrite (opensAt_opens st parsed Eo) in Ho. discriminate.
    + destruct Hstep as (E & Hc).
      destruct (IH (classifyRow rt n st parsed)) as (H1 & H2 & H3).
      { intros Hc'. rewrite E. apply Hn, Hc, Hc'. }
      rewrite E in H1. split.
      * destruct (opens rt parsed); cbn [length]; lia.
      * split; [|exact H3]. rewrite H2, Hc. split.
        -- intros (Hc' & Hall). split; [exact Hc'|]. constructor; [|exact Hall].
           unfold rowOpens. cbn [snd]. unfold opensAt in Eo. rewrite Hc' in Eo.
           now rewrite andb_true_r in Eo.
        -- intros (Hc' & Hall). inversion Hall; subst. tauto.
Qed.

(** ** The rows of the sections *)

Lemma step_rows n st parsed :
  let st' := classifyRow rt n st parsed in
  (sections st' = sections st /\ rows st' = rows st /\ lastRow st' = lastRow st /\
   (current st' = None <-> current st = None))
  \/
  (sections st' = sections (finalizeSection st) /\
   rows st' = rows (finalizeSection st) /\ lastRow st' = None /\
   current st' <> None)
  \/
  (exists r, (r = dataRowOf rt parsed \/ r = labelRowOf rt parsed) /\
     current st <> None /\ current st' = current st /\
     sections st' = sections st /\ rows st' = rows st ++ [r] /\
     lastRow st' = Some (length (rows st)))
  \/
  (exists i, lastRow st = Some i /\ current st <> None /\
     current st' = current st /\ sections st' = sections st /\
     rows st' = updateAt i (continueRow rt parsed) (rows st) /\
     lastRow st' = Some i).
Proof.
  assert (Hsame : forall st0 : Builder,
            sections st0 = sections st0 /\ rows st0 = rows st0 /\
            lastRow st0 = lastRow st0 /\ (current st0 = None <-> current st0 = None))
    by (intros; tauto).
  cbv zeta. unfold classifyRow.
  destruct (isTableHeader rt parsed); [left; apply Hsame|].
  destruct (isPruefidentifikatorHeader rt parsed).
  { destruct (current st) as [c|] eqn:Ec.
    - destruct (eqb _ _); [left; rewrite ?Ec; tauto|].
      right; left. cbn. repeat split; discriminate.
    - right; left. cbn. repeat split; discriminate. }
  destruct (current st) as [c|] eqn:Ec.
  - destruct (isKommunikationVon rt parsed).
    { destruct (length _ =? 0); left; cbn; rewrite ?Ec;
        repeat split; try discriminate; tauto. }
    destruct (isStatusColumnHeader rt parsed).
    { destruct (negb _); left; cbn; rewrite ?Ec;
        repeat split; try discriminate; tauto. }
    destruct (isDataRow rt parsed).
    { right; right; left. exists (dataRowOf rt parsed). cbn. rewrite ?Ec.
      repeat split; auto; discriminate. }
    destruct (lastRow st) as [i|] eqn:El.
    + destruct (isContinuationRow rt parsed).
      { right; right; right. exists i. cbn. rewrite ?Ec.
        repeat split; auto; discriminate. }
      destruct (isSectionLabel rt parsed).
      * right; right; left. exists (labelRowOf rt parsed). cbn. rewrite ?Ec.
        repeat split; auto; discriminate.
      * left. rewrite ?Ec, ?El. tauto.
    + destruct (isSectionLabel rt parsed).
      * right; right; left. exists (labelRowOf rt parsed). cbn. rewrite ?Ec.
        repeat split; auto; discriminate.
      * left. rewrite ?Ec, ?El. tauto.
  - destruct (_ && _); left; cbn; rewrite ?Ec; tauto.
Qed.

Lemma updateAt_length i f : forall l, length (updateAt i f l) = length l.
Proof.
  induction i as [|i IH]; intros [|r l]; simpl; auto.
Qed.

Lemma updateAt_Forall (P : Row.t -> Prop) f : (forall r, P r -> P (f r)) ->
  forall i l, Forall P l -> Forall P (updateAt i f l).
Proof.
  intros Hf i. induction i as [|i IH]; intros [|r l] H; simpl; auto;
    inversion H; subst; constructor; auto.
Qed.

Lemma updateAt_last f before : forall r i, i = length before ->
  updateAt i f (before ++ [r]) = before ++ [f r].
Proof.
  induction before as [|b before IH]; intros r i ->; simpl; [reflexivity|].
  now rewrite (IH r _ eq_refl).
Qed.

Lemma tidy_data parsed : tidy (dataRowOf rt parsed).
Proof.
  unfold tidy, dataRowOf.
  cbn [Row.segmentGroup Row.segmentCode Row.dataElement Row.isLabel].
  rewrite !trim_idem. repeat split; auto; discriminate.
Qed.

Lemma tidy_label parsed : tidy (labelRowOf rt parsed).
Proof. unfold tidy, labelRowOf. cbn. repeat split; reflexivity. Qed.

Lemma tidy_continue parsed r : tidy r -> tidy (continueRow rt parsed r).
Proof.
  unfold tidy, continueRow.
  cbn [Row.segmentGroup Row.segmentCode Row.dataElement Row.isLabel]. tauto.
Qed.

(** What the walk keeps true of the rows of the open section. *)
Lemma run_rows rows :
  let st := run rt rows start in
  (current st = None -> Parser.rows st = []) /\
  match lastRow st with
  | Some i => S i = length (Parser.rows st)
  | None => Parser.rows st = []
  end /\
  Forall tidy (Parser.rows st) /\
  Forall (fun s => Forall tidy (ParsedSection.rows s)) (sections st).
Proof.
  cbv zeta.
  apply (run_invariant (fun st =>
    (current st = None -> Parser.rows st = []) /\
    match lastRow st with
    | Some i => S i = length (Parser.rows st)
    | None => Parser.rows st = []
    end /\
    Forall tidy (Parser.rows st) /\
    Forall (fun s => Forall tidy (ParsedSection.rows s)) (sections st)));
    [|repeat split; constructor].
  intros n st parsed (Hn & Hl & Hr & Hs).
  destruct (step_rows n st parsed)
    as [(E1 & E2 & E3 & E4)|[(E1 & E2 & E3 & E4)|
        [(r & Hrow & Hc & E0 & E1 & E2 & E3)|(i & Hi & Hc & E0 & E1 & E2 & E3)]]].
  - rewrite E1, E2, E3. repeat split; auto. intros Hc. apply Hn, E4, Hc.
  - rewrite E1, E2, E3. unfold finalizeSection.
    destruct (current st) as [c|] eqn:Ec; cbn.
    + repeat split; auto; try contradiction.
      apply Forall_app. split; [exact Hs|]. constructor; [exact Hr | constructor].
    + rewrite (Hn eq_refl). repeat split; auto; try contradiction.
  - rewrite E0, E1, E2, E3. split; [intros Hc'; contradiction|].
    split; [rewrite length_app; simpl; lia|]. split; [|exact Hs].
    apply Forall_app. split; [exact Hr|]. constructor; [|constructor].
    destruct Hrow as [->| ->]; [apply tidy_data | apply tidy_label].
  - rewrite E0, E1, E2, E3. split; [intros Hc'; contradiction|].
    rewrite updateAt_length. rewrite Hi in Hl. split; [exact Hl|].
    split; [|exact Hs]. apply updateAt_Forall; [apply tidy_continue | exact Hr].
Qed.

End WithRuntime.

(** X26.  Every section carries the codes of a header row: one or two
    trimmed status values, one of which is five digits or two five-digit
    codes. *)
Theorem sections_carry_codes (rt : Runtime) (allPages : list (Page.t rt)) :
  Forall (fun s =>
            Exists (fun c => codeLike c = true) (ParsedSection.pruefidentifikator s) /\
            length (ParsedSection.pruefidentifikator s) <= 2 /\
            Forall (fun c => trim c = c) (ParsedSection.pruefidentifikator s))
    (buildSections rt allPages).
Proof.
  rewrite buildSections_run.
  set (P := fun keys : list str =>
              Exists (fun c => codeLike c = true) keys /\ length keys <= 2 /\
              Forall (fun c => trim c = c) keys).
  assert (H : Forall P (openKeys (run rt (documentRows rt allPages) start))).
  { apply (run_invariant rt (fun st => Forall P (openKeys st))); [|constructor].
    intros n st parsed Hst. pose proof (step_keys rt n st parsed) as Hstep.
    destruct (opensAt rt st parsed) eqn:Eo.
    - destruct Hstep as (-> & _). apply Forall_app. split; [exact Hst|].
      constructor; [|constructor].
      apply header_has_code, (opensAt_opens rt st parsed Eo).
    - destruct Hstep as (-> & _). exact Hst. }
  unfold openKeys in H. rewrite Forall_map in H. exact H.
Qed.

(** X27.  Two sections in a row never have the same codes: a header row
    that repeats the codes of the open section opens nothing. *)
Theorem neighbouring_sections_differ (rt : Runtime) (allPages : list (Page.t rt)) :
  distinctNeighbours (map sectionKey (buildSections rt allPages)).
Proof.
  rewrite buildSections_run.
  set (K := fun st => distinctNeighbours (map (join (lit ",")) (openKeys st)) /\
                      (current st = None -> openKeys st = [])).
  assert (H : K (run rt (documentRows rt allPages) start)).
  { apply (run_invariant rt K); [|split; [exact I | reflexivity]].
    unfold K. intros n st parsed (Hd & Hn).
    pose proof (step_keys rt n st parsed) as Hstep.
    destruct (opensAt rt st parsed) eqn:Eo.
    - destruct Hstep as (E & Hc). split; [|intros Hc'; contradiction].
      rewrite E. unfold opensAt in Eo. apply andb_true_iff in Eo.
      destruct Eo as (_ & Eo). rewrite openKeys_eq in *.
      destruct (current st) as [c|].
      + rewrite !map_app. cbn [map]. apply distinct_snoc.
        * rewrite map_app in Hd. exact Hd.
        * apply negb_true_iff, eqb_neq in Eo. unfold sectionKey in Eo. congruence.
      + rewrite (Hn eq_refl). simpl. tauto.
    - destruct Hstep as (E & Hc). rewrite E. split; [exact Hd|].
      intros Hc'. apply Hn, Hc, Hc'. }
  destruct H as (H & _). unfold openKeys in H. rewrite map_map in H. exact H.
Qed.

(** X28.  Sections come from header rows only: there are at most as many
    sections as rows that can open one, and there is no section exactly when
    the document has no such row. *)
Theorem sections_come_from_headers (rt : Runtime) (allPages : list (Page.t rt)) :
  length (buildSections rt allPages)
  <= length (filter (rowOpens rt) (documentRows rt allPages)) /\
  (buildSections rt allPages = []
   <-> Forall (fun nr => rowOpens rt nr = false) (documentRows rt allPages)).
Proof.
  rewrite buildSections_run.
  destruct (run_keys rt (documentRows rt allPages) start) as (H1 & H2 & H3);
    [reflexivity|].
  set (st := run rt (documentRows rt allPages) start) in *.
  assert (El : length (sections (finalizeSection st)) = length (openKeys st)).
  { unfold openKeys. now rewrite length_map. }
  split; [rewrite El; simpl in H1; exact H1|].
  assert (Hk : sections (finalizeSection st) = [] <-> current st = None).
  { split.
    - intros E. rewrite E in El. rewrite openKeys_eq, length_app in El.
      destruct (current st); [simpl in El; lia | reflexivity].
    - intros Hc. specialize (H3 Hc). rewrite H3 in El.
      now destruct (sections (finalizeSection st)). }
  rewrite Hk, H2. split; [tauto | now split].
Qed.

(** X29.  In every row of every section the three EDIFACT fields are
    trimmed, and they are empty when the row is a label: continuation lines
    never reach them. *)
Theorem section_rows_are_tidy (rt : Runtime) (allPages : list (Page.t rt)) :
  Forall (fun s => Forall tidy (ParsedSection.rows s)) (buildSections rt allPages).
Proof.
  rewrite buildSections_run.
  destruct (run_rows rt (documentRows rt allPages)) as (_ & _ & Hr & Hs).
  unfold finalizeSection. destruct (current _) as [c|]; cbn; [|exact Hs].
  apply Forall_app. split; [exact Hs|]. constructor; [exact Hr | constructor].
Qed.

(** X30.  After any rows of a document, a continuation row that finds a row
    to continue extends the last row of the open section in place: the rows
    before it, the number of rows, the sections and the open section stay as
    they are. *)
Theorem continuation_extends_last_row (rt : Runtime) (rows : list (Z * ParsedRow.t rt))
    (pageNum : Z) (parsed : ParsedRow.t rt) :
  lastRow (run rt rows start) <> None ->
  isContinuationRow rt parsed = true ->
  isTableHeader rt parsed = false ->
  isPruefidentifikatorHeader rt parsed = false ->
  isKommunikationVon rt parsed = false ->
  isStatusColumnHeader rt parsed = false ->
  exists before r,
    Parser.rows (run rt rows start) = before ++ [r] /\
    Parser.rows (classifyRow rt pageNum (run rt rows start) parsed)
    = before ++ [continueRow rt parsed r] /\
    sections (classifyRow rt pageNum (run rt rows start) parsed)
    = sections (run rt rows start) /\
    current (classifyRow rt pageNum (run rt rows start) parsed)
    = current (run rt rows start) /\
    lastRow (classifyRow rt pageNum (run rt rows start) parsed)
    = lastRow (run rt rows start).
Proof.
  intros Hlast Hcont Htab Hhead Hk Hs.
  destruct (run_rows rt rows) as (Hn & Hl & _ & _).
  set (st := run rt rows start) in *.
  destruct (lastRow st) as [i|] eqn:El; [|contradiction].
  destruct (exists_last (l := Parser.rows st)) as (before & r & Er).
  { intros E. rewrite E in Hl. discriminate. }
  assert (Hi : i = length before).
  { rewrite Er, length_app in Hl. simpl in Hl. lia. }
  destruct (current st) as [c|] eqn:Ec.
  2:{ specialize (Hn eq_refl). rewrite Hn in Er. now destruct before. }
  exists before, r. split; [exact Er|].
  unfold classifyRow.
  rewrite Htab, Hhead, Ec, Hk, Hs, (continuation_no_data rt parsed Hcont), El, Hcont.
  cbn [Parser.rows sections current lastRow]. rewrite Er, ?Ec, ?El.
  split; [now apply updateAt_last|]. repeat split; reflexivity.
Qed.

Lemma continuation_extends_last_row_witness :
  exists before r,
    rows (run Sample.runtime
            (firstn 3 (documentRows Sample.runtime [Sample.page1])) start)
    = before ++ [r] /\
    rows (classifyRow Sample.runtime 1
            (run Sample.runtime
               (firstn 3 (documentRows Sample.runtime [Sample.page1])) start)
            Sample.statusOnly)
    = before ++ [continueRow Sample.runtime Sample.statusOnly r].
Proof.
  destruct (continuation_extends_last_row Sample.runtime
              (firstn 3 (documentRows Sample.runtime [Sample.page1])) 1
              Sample.statusOnly) as (before & r & H1 & H2 & _);
    try reflexivity.
  - vm_compute. discriminate.
  - exists before, r. split; [exact H1 | exact H2].
Defined.

End SectionBuilding.
